(** * Emoji recognition engine of chatterino2 (providers/emoji/Emojis.cpp)

    A shallow embedding of the emoji loader, the tone-name resolver, the
    emoji-set (vendor) resolver, the text scanner [parse] and the shortcode
    substitution [replaceShortCodes], followed by the properties of the
    design document that concern them. *)

From Equations Require Import Equations.
From Stdlib Require Import ZArith Lia String Ascii Sorted.
From stdpp Require Import base option list gmap.

Local Open Scope Z_scope.

(** ** Qt strings

    A [QChar] is one UTF-16 code unit and a [QString] a sequence of them. *)

Abbreviation QChar := Z (only parsing).
Abbreviation QString := (list Z) (only parsing).

(** A string literal of the source, as its UTF-16 code units (the literals
    of this file are ASCII). *)
Definition qs (s : string) : QString :=
  map (fun a => Z.of_N (N_of_ascii a)) (list_ascii_of_string s).


Definition isLowSurrogate (c : QChar) : bool :=
  Z.land c 0xFC00 =? 0xDC00.

(** [QChar::toLower] and [QString::toLower], on the ASCII range: the codes
    of the dataset are hexadecimal and the shortcode pattern only captures
    ASCII, so this is the part of Qt's case mapping the engine exercises.
    Code units outside [A-Z] are kept. *)
Definition QChar_toLower (c : QChar) : QChar :=
  if (65 <=? c) && (c <=? 90) then c + 32 else c.

Definition toLower (s : QString) : QString := map QChar_toLower s.

(** [QString::split(sep)], with Qt's default [KeepEmptyParts]: the empty
    string splits into one empty part. *)
Fixpoint split (sep : QChar) (s : QString) : list QString :=
  match s with
  | [] => [[]]
  | c :: s' =>
      if decide (c = sep) then [] :: split sep s'
      else match split sep s' with
           | [] => [[c]]
           | w :: ws => (c :: w) :: ws
           end
  end.

(** [QStringList::join(sep)]. *)
Fixpoint join (sep : QChar) (l : list QString) : QString :=
  match l with
  | [] => []
  | [w] => w
  | w :: ws => w ++ sep :: join sep ws
  end.

(** [QString::mid(position, n)] and [QString::mid(position)] for positions
    inside the string. *)
Definition mid (s : QString) (position n : nat) : QString :=
  take n (drop position s).

Definition mid_from (s : QString) (position : nat) : QString :=
  drop position s.

(** [QString::replace(position, n, after)]: a position outside the string
    leaves it alone, and [n] is cut at the end of the string. *)
Definition replace (s : QString) (position n : Z) (after : QString) : QString :=
  if (position <? 0) || (Z.of_nat (length s) <? position) then s
  else
    let n' := Z.min n (Z.of_nat (length s) - position) in
    take (Z.to_nat position) s ++ after ++ drop (Z.to_nat (position + n')) s.

(** [QString::operator<]: code units compared in order. *)
Fixpoint QString_lt (a b : QString) : bool :=
  match a, b with
  | _, [] => false
  | [], _ :: _ => true
  | x :: a', y :: b' => (x <? y) || ((x =? y) && QString_lt a' b')
  end.

(** The value of one hexadecimal digit, if it is one. *)
Definition hexDigit (c : QChar) : option Z :=
  if (48 <=? c) && (c <=? 57) then Some (c - 48)
  else if (97 <=? c) && (c <=? 102) then Some (c - 87)
  else if (65 <=? c) && (c <=? 70) then Some (c - 55)
  else None.

Fixpoint hexValue (acc : Z) (s : QString) : option Z :=
  match s with
  | [] => Some acc
  | c :: s' =>
      match hexDigit c with
      | Some d => hexValue (16 * acc + d) s'
      | None => None
      end
  end.

(** [QChar::isSpace]: the blanks Qt skips around a number. *)
Definition isSpace (c : QChar) : bool :=
  (c =? 0x20) || ((0x09 <=? c) && (c <=? 0x0D)) || (c =? 0x85) || (c =? 0xA0)
  || (c =? 0x1680) || ((0x2000 <=? c) && (c <=? 0x200A)) || (c =? 0x2028)
  || (c =? 0x2029) || (c =? 0x202F) || (c =? 0x205F) || (c =? 0x3000).

Fixpoint dropSpaces (s : QString) : QString :=
  match s with
  | c :: s' => if isSpace c then dropSpaces s' else s
  | [] => []
  end.

(** The string without the blanks at its two ends. *)
Definition trimmed (s : QString) : QString :=
  reverse (dropSpaces (reverse (dropSpaces s))).

(** The sign [strtoull] accepts for an unsigned number: one '+'. *)
Definition dropPlus (s : QString) : QString :=
  match s with
  | 43 :: s' => s'
  | _ => s
  end.

(** The prefix [strtoull] accepts in base 16: "0x" or "0X". *)
Definition dropHexPrefix (s : QString) : QString :=
  match s with
  | 48 :: x :: s' => if (x =? 120) || (x =? 88) then s' else s
  | _ => s
  end.

(** [QString::toUInt(nullptr, 16)]: the blanks at the two ends are skipped,
    then come an optional '+', an optional "0x" and one or more hexadecimal
    digits up to the end of the string. The result is 0 when the conversion
    fails: no digit, any other character, or a value that does not fit 32
    bits. *)
Definition toUInt16 (s : QString) : Z :=
  match dropHexPrefix (dropPlus (trimmed s)) with
  | [] => 0
  | digits =>
      match hexValue 0 digits with
      | Some v => if v <? 2 ^ 32 then v else 0
      | None => 0
      end
  end.

(** [QChar::fromUcs4] for one code point: a surrogate pair from 0x10000 on
    ([QChar::highSurrogate], [QChar::lowSurrogate], cut to 16 bits), the
    code unit itself below. *)
Definition QChar_fromUcs4 (c : Z) : QString :=
  if 0x10000 <=? c
  then [ (Z.shiftr c 10 + 0xD7C0) mod 2 ^ 16 ; c mod 0x400 + 0xDC00 ]
  else [ c ].

(** A 32-bit code point read in the other byte order. *)
Definition byteSwap (c : Z) : Z :=
  Z.lor (Z.shiftl (Z.land c 0xFF) 24)
    (Z.lor (Z.shiftl (Z.land (Z.shiftr c 8) 0xFF) 16)
       (Z.lor (Z.shiftl (Z.land (Z.shiftr c 16) 0xFF) 8)
          (Z.land (Z.shiftr c 24) 0xFF))).

(** [QString::fromUcs4(data, size)]: Qt's UTF-32 decoder looks for a
    byte-order mark in the first code point. U+FEFF there is taken away and
    the other code points are read as they are; the mark in the other byte
    order, 0xFFFE0000, is taken away too and the other code points are read
    in the other byte order. Any other first code point is part of the
    text. Each code point read is encoded as above. *)
Definition fromUcs4 (cps : list Z) : QString :=
  match cps with
  | [] => []
  | c :: rest =>
      if c =? 0xFEFF then concat (map QChar_fromUcs4 rest)
      else if c =? 0xFFFE0000
      then concat (map (fun c' => QChar_fromUcs4 (byteSwap c')) rest)
      else concat (map QChar_fromUcs4 cps)
  end.

(** ** Failures

    What leaves a function other than its result: the exception of
    [std::array::at], a failed [assert], and behaviour the language leaves
    undefined ([operator[]] or [at] past the end, a dangling pointer). *)
Inductive Failure : Type :=
| OutOfRange
| AssertionFailed
| Undefined.

Inductive Result (A : Type) : Type :=
| Ok (a : A)
| Raise (f : Failure).
Arguments Ok {A} a.
Arguments Raise {A} f.

Definition bind {A B} (m : Result A) (k : A -> Result B) : Result B :=
  match m with
  | Ok a => k a
  | Raise f => Raise f
  end.

Notation "x <~ m ;; k" := (bind m (fun x => k))
  (at level 100, m at next level, right associativity).

(** ** Tone names *)

Definition toneNames : gmap QString QString :=
  list_to_map
    [ (qs "1F3FB", qs "tone1"); (qs "1F3FC", qs "tone2");
      (qs "1F3FD", qs "tone3"); (qs "1F3FE", qs "tone4");
      (qs "1F3FF", qs "tone5") ].

(** A line written to the Qt log. *)
Inductive Diagnostic : Type :=
| ToneMissing (tonePart : QString)
| JsonParseError.

(** The loop of [getToneNames]: the names found so far and the diagnostics
    written so far. *)
Definition toneStep (acc : list QString * list Diagnostic) (tonePart : QString)
  : list QString * list Diagnostic :=
  match toneNames !! tonePart with
  | None => (acc.1, acc.2 ++ [ToneMissing tonePart])
  | Some name => (acc.1 ++ [name], acc.2)
  end.

(** [getToneNames]: the diagnostics it writes, and its result; the [assert]
    before the [return] is checked. *)
Definition getToneNames (tones : QString) : list Diagnostic * Result QString :=
  let toneParts := split 45 tones in
  let '(toneNameResults, diagnostics) := foldl toneStep ([], []) toneParts in
  (diagnostics,
   match toneNameResults with
   | [] => Raise AssertionFailed
   | _ => Ok (join 45 toneNameResults)
   end).

(** [getToneNames] in a build with [NDEBUG], where [assert] expands to
    nothing: the same loop, and the join is always reached. *)
Definition getToneNames_NDEBUG (tones : QString) : list Diagnostic * QString :=
  let toneParts := split 45 tones in
  let '(toneNameResults, diagnostics) := foldl toneStep ([], []) toneParts in
  (diagnostics, join 45 toneNameResults).

(** ** Records

    [Emote] as [Emojis::loadEmojiSet] builds it: the name, the URL of the one
    image and its scale (in hundredths), the tooltip and the (empty) home
    page. *)
Record Emote : Type := mkEmote {
  emote_name : QString;
  emote_imageUrl : QString;
  emote_imageScale : Z;
  emote_tooltip : QString;
  emote_homePage : QString
}.

(** [EmotePtr]: a shared pointer to an immutable [Emote], null or not. *)
Abbreviation EmotePtr := (option Emote) (only parsing).

Record EmojiData : Type := mkEmojiData {
  shortCodes : list QString;
  nonQualifiedCode : QString;
  unifiedCode : QString;
  value : QString;
  capabilities : gset QString;
  emote : EmotePtr
}.

(** A default-constructed [EmojiData] ([std::make_shared<EmojiData>()]). *)
Definition newEmojiData : EmojiData :=
  mkEmojiData [] [] [] [] ∅ None.

(** One entry of the dataset, as the loader reads it: [short_names] and the
    four [has_img_] flags are on every entry (a flag that is missing would
    leave [parseEmoji]'s local uninitialised; such entries are outside this
    model), the two codes and the [skin_variations] object may be missing. *)
#[warnings="-register-all"]
Inductive RawEmoji : Type := mkRawEmoji {
  short_names : list QString;
  non_qualified : option QString;
  unified : option QString;
  has_img_apple : bool;
  has_img_google : bool;
  has_img_twitter : bool;
  has_img_facebook : bool;
  skin_variations : option (list (QString * RawEmoji))
}.

(** The document [rapidjson] returns: a parse error, or the array. *)
Inductive Document : Type :=
| ParseError
| Array (entries : list RawEmoji).

(** [rj::getSafe] on a string member: the target is written when the member
    is there and left alone when it is not. *)
Definition getSafe (member : option QString) (target : QString) : QString :=
  match member with
  | Some v => v
  | None => target
  end.

(** The loop of [parseEmoji] over [unicodeCharacters]:
    [unicodeBytes.at(numUnicodeBytes++) = ...] on a [std::array] of 9, the
    array being the code points written so far. [at] raises beyond 9. *)
Definition storeCodepoint (acc : Result (list Z)) (unicodeCharacter : QString)
  : Result (list Z) :=
  unicodeBytes <~ acc ;;
  if decide (length unicodeBytes < 9)%nat
  then Ok (unicodeBytes ++ [toUInt16 unicodeCharacter])
  else Raise OutOfRange.

Definition storeCodepoints (unicodeCharacters : list QString) : Result (list Z) :=
  foldl storeCodepoint (Ok []) unicodeCharacters.

Definition insertIf (b : bool) (name : QString) (s : gset QString) : gset QString :=
  if b then {[ name ]} ∪ s else s.

(** The four [if (capabilities. ...)] of [parseEmoji]. *)
Definition insertCapabilities (unparsedEmoji : RawEmoji) (s : gset QString)
  : gset QString :=
  insertIf (has_img_facebook unparsedEmoji) (qs "Facebook")
    (insertIf (has_img_twitter unparsedEmoji) (qs "Twitter")
       (insertIf (has_img_google unparsedEmoji) (qs "Google")
          (insertIf (has_img_apple unparsedEmoji) (qs "Apple") s))).

(** [parseEmoji(emojiData, unparsedEmoji, shortCode)]: the record it leaves
    in [emojiData], or the exception that leaves it. *)
Definition parseEmoji (emojiData : EmojiData) (unparsedEmoji : RawEmoji)
    (shortCode : QString) : Result EmojiData :=
  let shortCodes' :=
    match shortCode with
    | _ :: _ => shortCodes emojiData ++ [shortCode]
    | [] => shortCodes emojiData ++ short_names unparsedEmoji
    end in
  let nonQualifiedCode' :=
    getSafe (non_qualified unparsedEmoji) (nonQualifiedCode emojiData) in
  let unifiedCode' := getSafe (unified unparsedEmoji) (unifiedCode emojiData) in
  let capabilities' :=
    insertCapabilities unparsedEmoji (capabilities emojiData) in
  let emojiData' :=
    mkEmojiData shortCodes' nonQualifiedCode' unifiedCode' (value emojiData)
      capabilities' (emote emojiData) in
  let unicodeCharacters :=
    match nonQualifiedCode' with
    | _ :: _ => split 45 (toLower nonQualifiedCode')
    | [] => split 45 (toLower unifiedCode')
    end in
  if decide (length unicodeCharacters < 1)%nat then Ok emojiData'
  else
    unicodeBytes <~ storeCodepoints unicodeCharacters ;;
    Ok (mkEmojiData shortCodes' nonQualifiedCode' unifiedCode'
          (fromUcs4 unicodeBytes) capabilities' (emote emojiData)).

(** ** The engine

    The records live in a store and the three maps hold pointers into it
    (the [std::shared_ptr<EmojiData>] of the source): a record reached from
    two maps is one record. A pointer is a position of the store. *)
Abbreviation EmojiPtr := nat (only parsing).

(** The members of [Emojis] ([Emojis_shortCodes] is the member [shortCodes]),
    with the store and the lines written to the Qt log so far. *)
Record Emojis : Type := mkEmojis {
  store : list EmojiData;
  emojis : gmap QString EmojiPtr;
  Emojis_shortCodes : list QString;
  emojiShortCodeToEmoji_ : gmap QString EmojiPtr;
  emojiFirstByte_ : gmap QChar (list EmojiPtr);
  diagnostics : list Diagnostic
}.

Definition emptyEmojis : Emojis := mkEmojis [] ∅ [] ∅ ∅ [].

(** [p->...]: the record a pointer leads to. *)
Definition deref (st : Emojis) (p : EmojiPtr) : EmojiData :=
  default newEmojiData (store st !! p).

(** How a member function ends: normally, or by a failure, in both cases
    with the state it leaves. *)
Inductive Outcome : Type :=
| Done (st : Emojis)
| Thrown (st : Emojis) (f : Failure).

Definition stateOf (o : Outcome) : Emojis :=
  match o with
  | Done st => st
  | Thrown st _ => st
  end.

(** A range-based [for] whose body may fail. *)
Fixpoint forEach {A} (body : A -> Emojis -> Outcome) (l : list A) (st : Emojis)
  : Outcome :=
  match l with
  | [] => Done st
  | x :: l' =>
      match body x st with
      | Done st' => forEach body l' st'
      | Thrown st' f => Thrown st' f
      end
  end.

(** The record becomes reachable: it is put in the store, and its pointer
    returned. *)
Definition share (emojiData : EmojiData) (st : Emojis) : EmojiPtr * Emojis :=
  (length (store st),
   mkEmojis (store st ++ [emojiData]) (emojis st) (Emojis_shortCodes st)
     (emojiShortCodeToEmoji_ st) (emojiFirstByte_ st) (diagnostics st)).

(** [emojiShortCodeToEmoji_.insert(shortCode, p); shortCodes.push_back(shortCode)] *)
Definition insertShortCode (p : EmojiPtr) (st : Emojis) (shortCode : QString) : Emojis :=
  mkEmojis (store st) (emojis st) (Emojis_shortCodes st ++ [shortCode])
    (<[shortCode := p]> (emojiShortCodeToEmoji_ st)) (emojiFirstByte_ st)
    (diagnostics st).

(** [emojiFirstByte_[c].append(p)] *)
Definition appendFirstByte (c : QChar) (p : EmojiPtr) (st : Emojis) : Emojis :=
  mkEmojis (store st) (emojis st) (Emojis_shortCodes st)
    (emojiShortCodeToEmoji_ st)
    (<[c := default [] (emojiFirstByte_ st !! c) ++ [p]]> (emojiFirstByte_ st))
    (diagnostics st).

(** [emojis.insert(unifiedCode, p)] *)
Definition insertEmoji (code : QString) (p : EmojiPtr) (st : Emojis) : Emojis :=
  mkEmojis (store st) (<[code := p]> (emojis st)) (Emojis_shortCodes st)
    (emojiShortCodeToEmoji_ st) (emojiFirstByte_ st) (diagnostics st).

Definition writeLog (ds : list Diagnostic) (st : Emojis) : Emojis :=
  mkEmojis (store st) (emojis st) (Emojis_shortCodes st)
    (emojiShortCodeToEmoji_ st) (emojiFirstByte_ st) (diagnostics st ++ ds).

(** [emojiFirstByte_[emojiData->value.at(0)].append(emojiData);
     emojis.insert(emojiData->unifiedCode, emojiData)] *)
Definition indexByValue (emojiData : EmojiData) (p : EmojiPtr) (st : Emojis) : Outcome :=
  match value emojiData with
  | [] => Thrown st Undefined
  | c :: _ => Done (insertEmoji (unifiedCode emojiData) p (appendFirstByte c p st))
  end.

(** The body of the loop over [skin_variations]. *)
Definition loadVariation (emojiData : EmojiData)
    (skinVariation : QString * RawEmoji) (st : Emojis) : Outcome :=
  let '(diags, toneNameR) := getToneNames skinVariation.1 in
  let st := writeLog diags st in
  match toneNameR with
  | Raise f => Thrown st f
  | Ok toneName =>
      match shortCodes emojiData with
      | [] => Thrown st Undefined
      | shortCode0 :: _ =>
          match parseEmoji newEmojiData skinVariation.2
                  (shortCode0 ++ qs "_" ++ toneName) with
          | Raise f => Thrown st f
          | Ok variationEmojiData =>
              match shortCodes variationEmojiData with
              | [] => Thrown st Undefined
              | variationShortCode :: _ =>
                  let '(pv, st) := share variationEmojiData st in
                  let st := insertShortCode pv st variationShortCode in
                  indexByValue variationEmojiData pv st
              end
          end
      end
  end.

(** The body of the loop of [loadEmojis] over the entries. *)
Definition loadEmoji (unparsedEmoji : RawEmoji) (st : Emojis) : Outcome :=
  match parseEmoji newEmojiData unparsedEmoji [] with
  | Raise f => Thrown st f
  | Ok emojiData =>
      let '(p, st) := share emojiData st in
      let st := foldl (insertShortCode p) st (shortCodes emojiData) in
      match indexByValue emojiData p st with
      | Thrown st f => Thrown st f
      | Done st =>
          match skin_variations unparsedEmoji with
          | None => Done st
          | Some variations => forEach (loadVariation emojiData) variations st
          end
      end
  end.

(** [Emojis::loadEmojis], on the parsed document. *)
Definition loadEmojis (root : Document) (st : Emojis) : Outcome :=
  match root with
  | ParseError => Done (writeLog [JsonParseError] st)
  | Array entries => forEach loadEmoji entries st
  end.

(** [std::stable_sort(first, last, comp)]: an element goes in front of the
    first one that [comp] does not put before it, so equivalent elements
    keep their order. *)
Fixpoint insertSorted {A} (comp : A -> A -> bool) (x : A) (l : list A) : list A :=
  match l with
  | [] => [x]
  | y :: l' => if comp y x then y :: insertSorted comp x l' else x :: y :: l'
  end.

Definition stable_sort {A} (comp : A -> A -> bool) (l : list A) : list A :=
  foldr (insertSorted comp) [] l.

(** The comparison of [sortEmojis] on the candidates: longer value first. *)
Definition longerValue (st : Emojis) (lhs rhs : EmojiPtr) : bool :=
  (length (value (deref st rhs)) <? length (value (deref st lhs)))%nat.

(** [Emojis::sortEmojis] *)
Definition sortEmojis (st : Emojis) : Emojis :=
  mkEmojis (store st) (emojis st)
    (stable_sort QString_lt (Emojis_shortCodes st))
    (emojiShortCodeToEmoji_ st)
    (stable_sort (longerValue st) <$> emojiFirstByte_ st)
    (diagnostics st).

(** The table of [loadEmojiSet]. *)
Definition emojiSets : gmap QString QString :=
  list_to_map
    [ (qs "Twitter", qs "https://pajbot.com/static/emoji-v2/img/twitter/64/");
      (qs "Facebook", qs "https://pajbot.com/static/emoji-v2/img/facebook/64/");
      (qs "Apple", qs "https://pajbot.com/static/emoji-v2/img/apple/64/");
      (qs "Google", qs "https://pajbot.com/static/emoji-v2/img/google/64/") ].

Definition defaultUrlPrefix : QString :=
  qs "https://pajbot.com/static/emoji-v2/img/twitter/64/".

(** The set [loadEmojiSet] settles on for one record. *)
Definition emojiSetToUse (emojiSet : QString) (emoji : EmojiData) : QString :=
  if decide (emojiSet ∈ capabilities emoji) then emojiSet else qs "Twitter".

Definition urlPrefixOf (set : QString) : QString :=
  match emojiSets !! set with
  | Some urlPrefix => urlPrefix
  | None => defaultUrlPrefix
  end.

(** The function [loadEmojiSet] gives to [emojis.each], on one record. *)
Definition setEmote (emojiSet : QString) (emoji : EmojiData) : Result EmojiData :=
  let code := toLower (unifiedCode emoji) in
  let urlPrefix := urlPrefixOf (emojiSetToUse emojiSet emoji) in
  let url := urlPrefix ++ code ++ qs ".png" in
  match shortCodes emoji with
  | [] => Raise Undefined
  | shortCode0 :: _ =>
      Ok (mkEmojiData (shortCodes emoji) (nonQualifiedCode emoji)
            (unifiedCode emoji) (value emoji) (capabilities emoji)
            (Some (mkEmote (value emoji) url 35
                     (qs ":" ++ shortCode0 ++ qs ":<br/>Emoji") [])))
  end.

Definition updateStore (p : EmojiPtr) (emoji : EmojiData) (st : Emojis) : Emojis :=
  mkEmojis (<[p := emoji]> (store st)) (emojis st) (Emojis_shortCodes st)
    (emojiShortCodeToEmoji_ st) (emojiFirstByte_ st) (diagnostics st).

Definition setEmoteAt (emojiSet : QString) (entry : QString * EmojiPtr)
    (st : Emojis) : Outcome :=
  match store st !! entry.2 with
  | None => Thrown st Undefined
  | Some emoji =>
      match setEmote emojiSet emoji with
      | Raise f => Thrown st f
      | Ok emoji' => Done (updateStore entry.2 emoji' st)
      end
  end.

(** [Emojis::loadEmojiSet], for the value [emojiSet] of the setting. *)
Definition loadEmojiSet (emojiSet : QString) (st : Emojis) : Outcome :=
  forEach (setEmoteAt emojiSet) (map_to_list (emojis st)) st.

(** [Emojis::load] *)
Definition load (root : Document) (emojiSet : QString) (st : Emojis) : Outcome :=
  match loadEmojis root st with
  | Thrown st f => Thrown st f
  | Done st => loadEmojiSet emojiSet (sortEmojis st)
  end.

(** ** The scanner *)

(** The loop of [parse] over [j]: the value agrees with the text after its
    first unit. *)
Definition restMatches (text : QString) (i : nat) (v : QString) : bool :=
  forallb (fun j => bool_decide (text !! (i + j)%nat = v !! j))
    (seq 1 (length v - 1)).

(** The loop of [parse] over [possibleEmojis]: the first candidate that fits
    in the text and agrees with it. *)
Fixpoint firstMatch (st : Emojis) (text : QString) (i : nat)
    (possibleEmojis : list EmojiPtr) : option EmojiPtr :=
  match possibleEmojis with
  | [] => None
  | emoji :: rest =>
      let v := value (deref st emoji) in
      let emojiExtraCharacters := Z.of_nat (length v) - 1 in
      let remainingCharacters := Z.of_nat (length text) - Z.of_nat i - 1 in
      if remainingCharacters <? emojiExtraCharacters
      then firstMatch st text i rest
      else if restMatches text i v then Some emoji
      else firstMatch st text i rest
  end.

(** The body of the loop of [parse] at [i], up to its last [continue]: the
    matched record and the length of its value, when there is a match. *)
Definition matchAt (st : Emojis) (text : QString) (i : nat)
  : option (EmojiPtr * nat) :=
  match text !! i with
  | None => None
  | Some character =>
      if isLowSurrogate character then None
      else
        match emojiFirstByte_ st !! character with
        | None => None
        | Some possibleEmojis =>
            match firstMatch st text i possibleEmojis with
            | None => None
            | Some matchedEmoji =>
                let matchedEmojiLength := length (value (deref st matchedEmoji)) in
                if decide (matchedEmojiLength = 0%nat) then None
                else Some (matchedEmoji, matchedEmojiLength)
            end
        end
  end.

(** What [parse] appends to its result: a piece of the text, by position and
    length, or the emote of a matched record. *)
Inductive Span : Type :=
| SpanText (position n : nat)
| SpanEmoji (position : nat) (matchedEmoji : EmojiPtr).

(** The characters between the last emoji and the one at [i]. *)
Definition inbetween (lastParsedEmojiEndIndex i : nat) : list Span :=
  if decide (lastParsedEmojiEndIndex < i)%nat
  then [SpanText lastParsedEmojiEndIndex (i - lastParsedEmojiEndIndex)]
  else [].

(** The loop of [parse] from [i] on, then the remaining characters. *)
Equations? parseLoop (st : Emojis) (text : QString)
    (i lastParsedEmojiEndIndex : nat) (result : list Span)
  : list Span by wf (length text - i)%nat lt :=
  parseLoop st text i last result with decide (i < length text)%nat := {
    | right _ => result ++ inbetween last (length text);
    | left _ with matchAt st text i := {
        | None => parseLoop st text (S i) last result;
        | Some (matchedEmoji, matchedEmojiLength) =>
            parseLoop st text (S (i + (matchedEmojiLength - 1)))
              (i + matchedEmojiLength)
              (result ++ inbetween last i ++ [SpanEmoji i matchedEmoji]) } }.
Proof. all: lia. Qed.

Definition parseSpans (st : Emojis) (text : QString) : list Span :=
  parseLoop st text 0 0 [].

(** The element of the result a span stands for: [text.mid(position, n)] or
    [matchedEmoji->emote]. *)
Definition pushed (st : Emojis) (text : QString) (s : Span) : EmotePtr + QString :=
  match s with
  | SpanText position n => inr (mid text position n)
  | SpanEmoji _ matchedEmoji => inl (emote (deref st matchedEmoji))
  end.

(** [Emojis::parse] *)
Definition parse (st : Emojis) (text : QString) : list (EmotePtr + QString) :=
  pushed st text <$> parseSpans st text.

(** ** Shortcode substitution *)

(** Modelled from the spec: the character class of the shortcode pattern
    [findShortCodesRegex_], which the class declaration (not part of this
    file's sources) holds: letters, digits, underscore, plus and minus. *)
Definition isShortCodeChar (c : QChar) : bool :=
  ((97 <=? c) && (c <=? 122)) || ((65 <=? c) && (c <=? 90))
  || ((48 <=? c) && (c <=? 57)) || (c =? 95) || (c =? 43) || (c =? 45).

(** The length of the longest run of characters of the class at the start
    of [l]. *)
Fixpoint runLength (l : QString) : nat :=
  match l with
  | c :: l' => if isShortCodeChar c then S (runLength l') else 0%nat
  | [] => 0%nat
  end.

(** Modelled from the spec: a match of the pattern at [pos], a colon, one or
    more characters of the class and a colon; the number of characters of the
    class. The class has no colon, so the longest run is the only candidate. *)
Definition tokenAt (text : QString) (pos : nat) : option nat :=
  match text !! pos with
  | Some 58 =>
      let run := runLength (drop (S pos) text) in
      match run, text !! (S pos + run)%nat with
      | S _, Some 58 => Some run
      | _, _ => None
      end
  | _ => None
  end.

(** Modelled from the spec: [findShortCodesRegex_.globalMatch(text)], the
    matches of the pattern from left to right, none overlapping another, each
    as [capturedStart] and [capturedLength]. *)
Equations? globalMatchFrom (text : QString) (pos : nat)
  : list (nat * nat) by wf (length text - pos)%nat lt :=
  globalMatchFrom text pos with decide (pos < length text)%nat := {
    | right _ => [];
    | left _ with tokenAt text pos := {
        | None => globalMatchFrom text (S pos);
        | Some run => (pos, run + 2)%nat :: globalMatchFrom text (pos + (run + 2)) } }.
Proof. all: lia. Qed.

Definition globalMatch (text : QString) : list (nat * nat) :=
  globalMatchFrom text 0.

(** The body of the loop of [replaceShortCodes]: [ret] and [offset] after one
    more match. *)
Definition replaceStep (st : Emojis) (text : QString) (acc : QString * Z)
    (m : nat * nat) : QString * Z :=
  let '(ret, offset) := acc in
  let '(capturedStart, capturedLength) := m in
  let capturedString := mid text capturedStart capturedLength in
  let matchString := mid (toLower capturedString) 1 (length capturedString - 2) in
  match emojiShortCodeToEmoji_ st !! matchString with
  | None => (ret, offset)
  | Some emojiData =>
      let v := value (deref st emojiData) in
      (replace ret (offset + Z.of_nat capturedStart) (Z.of_nat capturedLength) v,
       offset + (Z.of_nat (length v) - Z.of_nat capturedLength))
  end.

(** [Emojis::replaceShortCodes] *)
Definition replaceShortCodes (st : Emojis) (text : QString) : QString :=
  (foldl (replaceStep st text) (text, 0) (globalMatch text)).1.

(** ** Example data

    The record of the design document's example, a record of ten code
    points, and the state the example leaves after [loadEmojis]. *)
Definition smileRaw : RawEmoji :=
  mkRawEmoji [qs "smile"] None (Some (qs "1F604")) true false true false None.

Definition tooLongRaw : RawEmoji :=
  mkRawEmoji [qs "long"] None
    (Some (qs "1F468-200D-1F469-200D-1F467-200D-1F466-200D-1F466-FE0F"))
    true true true true None.

Definition noCodeRaw : RawEmoji :=
  mkRawEmoji [qs "nothing"] None None true false true false None.

Definition smileLoaded : Emojis :=
  stateOf (loadEmojis (Array [smileRaw]) emptyEmojis).

(** The engine after [load] on the example, and the example's text. *)
Definition smileEngine : Emojis :=
  stateOf (load (Array [smileRaw]) (qs "Twitter") emptyEmojis).

Definition smileText : QString :=
  qs "hi " ++ [0xD83D; 0xDE04] ++ qs " there".

(** The same record under a short name with a capital, and the engine
    loaded from it. *)
Definition capitalRaw : RawEmoji :=
  mkRawEmoji [qs "Smile"] None (Some (qs "1F604")) true false true false None.

Definition capitalEngine : Emojis :=
  stateOf (load (Array [capitalRaw]) (qs "Twitter") emptyEmojis).

(** Three flags whose values begin alike: U+1F3F3, U+1F3F3 U+FE0F and
    U+1F3F3 U+FE0F U+200D U+1F308. *)
Definition flagRaws : list RawEmoji :=
  [ mkRawEmoji [qs "flag"] None (Some (qs "1F3F3")) true true true true None;
    mkRawEmoji [qs "white_flag"] None (Some (qs "1F3F3-FE0F")) true true true true None;
    mkRawEmoji [qs "rainbow-flag"] None (Some (qs "1F3F3-FE0F-200D-1F308"))
      true true true true None ].

Definition flagsLoaded : Emojis :=
  stateOf (load (Array flagRaws) (qs "Twitter") emptyEmojis).

Definition flagText : QString :=
  qs "x" ++ [0xD83C; 0xDFF3; 0xFE0F] ++ qs "y".

(** * Notions of the statements

    The invariants of the engine, the design document's wording of the
    resolver and of the substitution, and the data of the examples. *)

(** The code [parseEmoji] decodes on a fresh record: [non_qualified] when it
    is there and not empty, [unified] (or the empty string) otherwise. *)
Definition codeOf (unparsedEmoji : RawEmoji) : QString :=
  let nonQualified := getSafe (non_qualified unparsedEmoji) [] in
  match nonQualified with
  | _ :: _ => nonQualified
  | [] => getSafe (unified unparsedEmoji) []
  end.

(** The code points of a byte-order mark alone, in either byte order. *)
Definition byteOrderMarkOnly (cps : list Z) : Prop :=
  cps = [0xFEFF] \/ cps = [0xFFFE0000].

(** A record is registered: shared, entered under each of its shortcodes,
    under the first unit of its value and under its unified code. *)
Definition register (emojiData : EmojiData) (st : Emojis) : Outcome :=
  let '(p, st) := share emojiData st in
  indexByValue emojiData p (foldl (insertShortCode p) st (shortCodes emojiData)).

(** The state [register] leaves for a record whose value starts with [c]. *)
Definition registered (emojiData : EmojiData) (c : QChar) (st : Emojis) : Emojis :=
  let p := length (store st) in
  mkEmojis (store st ++ [emojiData])
    (<[unifiedCode emojiData := p]> (emojis st))
    (Emojis_shortCodes st ++ shortCodes emojiData)
    (foldl (fun m s => <[s := p]> m) (emojiShortCodeToEmoji_ st) (shortCodes emojiData))
    (<[c := default [] (emojiFirstByte_ st !! c) ++ [p]]> (emojiFirstByte_ st))
    (diagnostics st).

(** The state [register] leaves for a record whose value is empty: the
    record is shared and entered under its shortcodes, and [value.at(0)]
    fails. *)
Definition entered (emojiData : EmojiData) (st : Emojis) : Emojis :=
  let p := length (store st) in
  mkEmojis (store st ++ [emojiData]) (emojis st)
    (Emojis_shortCodes st ++ shortCodes emojiData)
    (foldl (fun m s => <[s := p]> m) (emojiShortCodeToEmoji_ st) (shortCodes emojiData))
    (emojiFirstByte_ st) (diagnostics st).

(** What the three indexes of a state promise about the records in its
    store. *)
Record Indexed (st : Emojis) : Prop := {
  indexed_value :
    forall p e, store st !! p = Some e -> value e <> [];
  indexed_first :
    forall c ps p, emojiFirstByte_ st !! c = Some ps -> p ∈ ps ->
      exists e, store st !! p = Some e /\ value e !! 0%nat = Some c;
  indexed_shortCode :
    forall s p, emojiShortCodeToEmoji_ st !! s = Some p ->
      exists e, store st !! p = Some e /\ s ∈ shortCodes e;
  indexed_all :
    forall p e s, store st !! p = Some e -> s ∈ shortCodes e ->
      is_Some (emojiShortCodeToEmoji_ st !! s)
}.

(** The length of the value behind a pointer: the key of [sortEmojis]. *)
Definition valueLength (st : Emojis) (p : EmojiPtr) : nat :=
  length (value (deref st p)).

(** Every list of candidates has the longer values first. *)
Definition LongestFirst (st : Emojis) : Prop :=
  forall c ps, emojiFirstByte_ st !! c = Some ps ->
    StronglySorted (fun a b => valueLength st b <= valueLength st a)%nat ps.

(** A record with its emote put aside. *)
Definition stripEmote (e : EmojiData) : EmojiData :=
  mkEmojiData (shortCodes e) (nonQualifiedCode e) (unifiedCode e) (value e)
    (capabilities e) None.

(** Two states that differ in the emotes of their records at most. *)
Record SameData (st st' : Emojis) : Prop := {
  same_store : stripEmote <$> store st' = stripEmote <$> store st;
  same_emojis : emojis st' = emojis st;
  same_shortCodes : Emojis_shortCodes st' = Emojis_shortCodes st;
  same_shortCodeToEmoji : emojiShortCodeToEmoji_ st' = emojiShortCodeToEmoji_ st;
  same_firstByte : emojiFirstByte_ st' = emojiFirstByte_ st;
  same_diagnostics : diagnostics st' = diagnostics st
}.

(** The design document's words for the emote of a record under a vendor
    preference: the preferred vendor when the record has it, "Twitter"
    otherwise; the prefix of that vendor in the table, the default prefix
    when the table has none; the lower-case unified code and ".png". *)
Definition specVendor (preference : QString) (emoji : EmojiData) : QString :=
  if decide (preference ∈ capabilities emoji) then preference else qs "Twitter".

Definition specUrl (preference : QString) (emoji : EmojiData) : QString :=
  default defaultUrlPrefix (emojiSets !! specVendor preference emoji)
  ++ toLower (unifiedCode emoji) ++ qs ".png".

Definition specEmote (preference : QString) (emoji : EmojiData)
    (primaryShortCode : QString) : Emote :=
  mkEmote (value emoji) (specUrl preference emoji) 35
    (qs ":" ++ primaryShortCode ++ qs ":<br/>Emoji") [].

(** A value stands in the text at [i]. *)
Definition occursAt (text : QString) (i : nat) (v : QString) : Prop :=
  mid text i (length v) = v.

(** The candidates of a unit begin with that unit. *)
Definition FirstUnit (st : Emojis) : Prop :=
  forall c ps p, emojiFirstByte_ st !! c = Some ps -> p ∈ ps ->
    value (deref st p) !! 0%nat = Some c.

(** The text a span stands for: the piece of the input, or the value of the
    matched record. *)
Definition spanText (st : Emojis) (text : QString) (s : Span) : QString :=
  match s with
  | SpanText position n => mid text position n
  | SpanEmoji _ matchedEmoji => value (deref st matchedEmoji)
  end.

(** The emote of a record, when it has one, is named by its value. *)
Definition EmoteNamed (st : Emojis) : Prop :=
  forall p e em, store st !! p = Some e -> emote e = Some em ->
    emote_name em = value e.

(** A string of one or more characters of the shortcode class. *)
Definition isShortCode (w : QString) : Prop :=
  w <> [] /\ Forall (fun c => isShortCodeChar c = true) w.

(** [":" + w + ":"] *)
Definition token (w : QString) : QString := 58 :: w ++ [58].

(** The key [replaceShortCodes] looks a match up under: the text between
    the colons, in lower case. *)
Definition matchKey (text : QString) (m : nat * nat) : QString :=
  let capturedString := mid text m.1 m.2 in
  mid (toLower capturedString) 1 (length capturedString - 2).

(** The matches of the pattern from [q] on, each a token, one after the
    other. *)
Inductive Placed (text : QString) : nat -> list (nat * nat) -> Prop :=
| Placed_nil (q : nat) : Placed text q []
| Placed_cons (q s run : nat) (rest : list (nat * nat)) :
    (q <= s)%nat ->
    tokenAt text s = Some run ->
    Placed text (s + (run + 2)) rest ->
    Placed text q ((s, run + 2)%nat :: rest).

(** The design document's words for the substitution: the text between the
    matches stays, a match whose inner text (in lower case) is a known
    shortcode becomes the value of its record, and any other match stays. *)
Fixpoint substituteFrom (st : Emojis) (text : QString) (pos : nat)
    (matches : list (nat * nat)) : QString :=
  match matches with
  | [] => mid_from text pos
  | m :: rest =>
      mid text pos (m.1 - pos)
      ++ match emojiShortCodeToEmoji_ st !! matchKey text m with
         | Some p => value (deref st p)
         | None => mid text m.1 m.2
         end
      ++ substituteFrom st text (m.1 + m.2) rest
  end.

Definition specSubstitute (st : Emojis) (text : QString) : QString :=
  substituteFrom st text 0 (globalMatch text).

(** The change of length one match brings. *)
Definition lengthDifference (st : Emojis) (text : QString) (m : nat * nat) : Z :=
  match emojiShortCodeToEmoji_ st !! matchKey text m with
  | Some p => Z.of_nat (length (value (deref st p))) - Z.of_nat m.2
  | None => 0
  end.

Fixpoint sumZ (l : list Z) : Z :=
  match l with
  | [] => 0
  | x :: l' => x + sumZ l'
  end.

(** ** Further notions *)

(** The parts of the code [parseEmoji] decodes on a fresh record. *)
Definition partsOf (unparsedEmoji : RawEmoji) : list QString :=
  split 45 (toLower (codeOf unparsedEmoji)).

(** The entries of [skin_variations], none when the member is missing. *)
Definition variationsOf (unparsedEmoji : RawEmoji) : list (QString * RawEmoji) :=
  default [] (skin_variations unparsedEmoji).

(** A tone key one of whose parts is in the table of tones. *)
Definition resolvable (tones : QString) : Prop :=
  exists part, part ∈ split 45 tones /\ is_Some (toneNames !! part).

(** A code [parseEmoji] decodes to a value with a first unit: it has at
    most 9 parts, and they are not a byte-order mark alone. *)
Definition decodable (unparsedEmoji : RawEmoji) : Prop :=
  (length (partsOf unparsedEmoji) <= 9)%nat
  /\ ~ byteOrderMarkOnly (toUInt16 <$> partsOf unparsedEmoji).

(** An entry [loadEmojis] gets through: it has a short name and a code that
    is decodable, and so has every variation, under a tone key with a known
    part. *)
Definition wellFormedEntry (unparsedEmoji : RawEmoji) : Prop :=
  short_names unparsedEmoji <> []
  /\ decodable unparsedEmoji
  /\ Forall (fun sv => resolvable sv.1 /\ decodable sv.2)
       (variationsOf unparsedEmoji).

(** What the maps of a state hold of the records of its store, beyond
    [Indexed]: the unified codes, the candidates, and the list of
    shortcodes. *)
Record Consistent (st : Emojis) : Prop := {
  consistent_emojis :
    forall k p, emojis st !! k = Some p ->
      exists e, store st !! p = Some e /\ unifiedCode e = k;
  consistent_unified :
    forall p e, store st !! p = Some e -> is_Some (emojis st !! unifiedCode e);
  consistent_candidate :
    forall p e, store st !! p = Some e ->
      exists c ps, value e !! 0%nat = Some c
                   /\ emojiFirstByte_ st !! c = Some ps /\ p ∈ ps;
  consistent_nodup :
    forall c ps, emojiFirstByte_ st !! c = Some ps -> NoDup ps
}.

(** A state that has everything another has, in the same places. *)
Record Extends (st0 st : Emojis) : Prop := {
  extends_store : store st0 `prefix_of` store st;
  extends_shortCodes : Emojis_shortCodes st0 `prefix_of` Emojis_shortCodes st;
  extends_diagnostics : diagnostics st0 `prefix_of` diagnostics st;
  extends_shortCodeToEmoji :
    forall s, is_Some (emojiShortCodeToEmoji_ st0 !! s) ->
              is_Some (emojiShortCodeToEmoji_ st !! s);
  extends_emojis :
    forall k, is_Some (emojis st0 !! k) -> is_Some (emojis st !! k);
  extends_firstByte :
    forall c ps0, emojiFirstByte_ st0 !! c = Some ps0 ->
      exists ps, emojiFirstByte_ st !! c = Some ps /\ ps0 `prefix_of` ps
}.

(** A variation and the record [loadEmojis] makes of it, for a base record
    whose first shortcode is [shortCode0]. *)
Definition variantOf (shortCode0 : QString) (skinVariation : QString * RawEmoji)
    (v : EmojiData) : Prop :=
  exists toneName,
    (getToneNames skinVariation.1).2 = Ok toneName
    /\ parseEmoji newEmojiData skinVariation.2 (shortCode0 ++ qs "_" ++ toneName) = Ok v
    /\ shortCodes v = [shortCode0 ++ qs "_" ++ toneName].

(** An entry with a variation, and the engine loaded from it and the
    example's record. *)
Definition waveRaw : RawEmoji :=
  mkRawEmoji [qs "wave"] None (Some (qs "1F44B")) true true true true
    (Some [ (qs "1F3FB",
             mkRawEmoji [] (Some (qs "1F44B-1F3FB")) (Some (qs "1F44B-1F3FB"))
               true true true true None) ]).

Definition waveEngine : Emojis :=
  stateOf (load (Array [smileRaw; waveRaw]) (qs "Apple") emptyEmojis).

(** The spans tile the text from [pos] on: each begins where the one before
    ended, a piece of text is not empty, has no match beginning in it and is
    not followed by another piece of text, and an emoji span is the match at
    its place. *)
Fixpoint Tiled (st : Emojis) (text : QString) (pos : nat) (spans : list Span)
  : Prop :=
  match spans with
  | [] => pos = length text
  | SpanText position n :: rest =>
      position = pos /\ (0 < n)%nat
      /\ (forall j, (pos <= j < pos + n)%nat -> matchAt st text j = None)
      /\ match rest with
         | SpanText _ _ :: _ => False
         | _ => True
         end
      /\ Tiled st text (pos + n) rest
  | SpanEmoji position matchedEmoji :: rest =>
      position = pos
      /\ matchAt st text pos = Some (matchedEmoji, valueLength st matchedEmoji)
      /\ Tiled st text (pos + valueLength st matchedEmoji) rest
  end.

(** The candidates of every unit are in the order of their registration. *)
Definition Ascending (st : Emojis) : Prop :=
  forall c ps, emojiFirstByte_ st !! c = Some ps -> StronglySorted lt ps.

(** Two entries of one value under different short names, loaded. *)
Definition twinEngine : Emojis :=
  stateOf (load (Array [capitalRaw; smileRaw]) (qs "Twitter") emptyEmojis).

(** An entry whose code is a byte-order mark. *)
Definition markRaw : RawEmoji :=
  mkRawEmoji [qs "mark"] None (Some (qs "FEFF")) true false true false None.

(** ** Tactics *)

(** The conjuncts of a goal, one by one (no equation is opened). *)
Ltac conjuncts :=
  repeat match goal with |- _ /\ _ => split end.

(** Induction on the number of iterations the loop of [parse] has left. *)
Ltac loop_induction text i :=
  let n := fresh "n" in
  let Hn := fresh "Hn" in
  let IH := fresh "IH" in
  remember (length text - i)%nat as n eqn:Hn;
  generalize dependent i;
  induction n as [n IH] using lt_wf_ind.

(** * Properties *)

(** ** Strings *)

Lemma split_nonempty (sep : QChar) (s : QString) : split sep s <> [].
Proof.
  destruct s as [|c s]; simpl; [done|].
  destruct (decide (c = sep)); [done|].
  destruct (split sep s); done.
Qed.

Lemma QChar_fromUcs4_nonempty (c : Z) : QChar_fromUcs4 c <> [].
Proof. unfold QChar_fromUcs4. destruct (0x10000 <=? c); done. Qed.

(** The conversions on a few strings: digits in either case, blanks around
    them, a sign, a prefix; and what does not convert. *)
Lemma toUInt16_examples :
  toUInt16 (qs "1f604") = 0x1F604 /\ toUInt16 (qs "1F604") = 0x1F604
  /\ toUInt16 (qs " 1f604 ") = 0x1F604 /\ toUInt16 (qs "+1f") = 31
  /\ toUInt16 (qs "0x1f") = 31 /\ toUInt16 (qs "+0X1F") = 31
  /\ toUInt16 (qs "ffffffff") = 0xFFFFFFFF
  /\ toUInt16 [] = 0 /\ toUInt16 (qs "1g") = 0 /\ toUInt16 (qs "1 f") = 0
  /\ toUInt16 (qs "0x") = 0 /\ toUInt16 (qs "++1") = 0
  /\ toUInt16 (qs "100000000") = 0.
Proof. conjuncts; by vm_compute. Qed.

Lemma fromUcs4_examples :
  fromUcs4 [0x1F604] = [0xD83D; 0xDE04]
  /\ fromUcs4 [0x263A; 0xFE0F] = [0x263A; 0xFE0F]
  /\ fromUcs4 [0xFEFF] = [] /\ fromUcs4 [0xFEFF; 0x1F604] = [0xD83D; 0xDE04]
  /\ fromUcs4 [0xFFFE0000] = [] /\ fromUcs4 [0xFFFE0000; 0x3A260000] = [0x263A]
  /\ fromUcs4 [0x263A; 0xFEFF] = [0x263A; 0xFEFF].
Proof. conjuncts; by vm_compute. Qed.

Lemma concat_map_nil {A} (g : A -> QString) (l : list A) :
  (forall x, g x <> []) -> concat (map g l) = [] -> l = [].
Proof.
  intros Hg. destruct l as [|x l]; [done|]. simpl.
  intros [H _]%app_eq_nil. by apply Hg in H.
Qed.

(** Without a byte-order mark in front, every code point is encoded. *)
Lemma fromUcs4_plain (c : Z) (cps : list Z) :
  c <> 0xFEFF -> c <> 0xFFFE0000 ->
  fromUcs4 (c :: cps) = concat (map QChar_fromUcs4 (c :: cps)).
Proof.
  intros H1 H2. unfold fromUcs4.
  destruct (c =? 0xFEFF) eqn:E1; [apply Z.eqb_eq in E1; done|].
  destruct (c =? 0xFFFE0000) eqn:E2; [apply Z.eqb_eq in E2; done|]. done.
Qed.

(** The decoder gives the empty string for a byte-order mark alone, and for
    nothing else. *)
Lemma fromUcs4_empty (cps : list Z) :
  cps <> [] -> fromUcs4 cps = [] <-> byteOrderMarkOnly cps.
Proof.
  destruct cps as [|c cps]; [done|]. intros _. unfold fromUcs4, byteOrderMarkOnly.
  destruct (c =? 0xFEFF) eqn:E1.
  { apply Z.eqb_eq in E1 as ->. split.
    - intros ->%(concat_map_nil QChar_fromUcs4); [by left|].
      apply QChar_fromUcs4_nonempty.
    - intros [[= ->]|[=]]. done. }
  destruct (c =? 0xFFFE0000) eqn:E2.
  { apply Z.eqb_eq in E2 as ->. split.
    - intros ->%concat_map_nil; [by right|].
      intros x. apply QChar_fromUcs4_nonempty.
    - intros [[=]|[= ->]]. done. }
  apply Z.eqb_neq in E1, E2. split.
  - simpl. intros [H _]%app_eq_nil. by apply QChar_fromUcs4_nonempty in H.
  - intros [[= ? ?]|[= ? ?]]; done.
Qed.

Lemma fromUcs4_length (cps : list Z) :
  (length cps - 1 <= length (fromUcs4 cps) <= 2 * length cps)%nat.
Proof.
  assert (forall c, 1 <= length (QChar_fromUcs4 c) <= 2)%nat as Hone.
  { intros c. unfold QChar_fromUcs4. destruct (0x10000 <=? c); simpl; lia. }
  assert (forall (g : Z -> QString) l,
            (forall x, 1 <= length (g x) <= 2)%nat ->
            length l <= length (concat (map g l)) <= 2 * length l)%nat as Hlen.
  { intros g l Hg. induction l as [|c l IH]; simpl; [lia|].
    rewrite length_app. specialize (Hg c). lia. }
  destruct cps as [|c cps]; [simpl; lia|]. unfold fromUcs4.
  pose proof (Hlen QChar_fromUcs4 cps Hone) as H1.
  pose proof (Hlen (fun c' => QChar_fromUcs4 (byteSwap c')) cps
                (fun x => Hone (byteSwap x))) as H2.
  pose proof (Hlen QChar_fromUcs4 (c :: cps) Hone) as H3.
  cbn [length] in *.
  destruct (c =? 0xFEFF); [lia|].
  destruct (c =? 0xFFFE0000); lia.
Qed.

(** ** Tone names *)

Lemma toneStep_foldl (parts : list QString) (acc : list QString * list Diagnostic) :
  foldl toneStep acc parts =
    (acc.1 ++ omap (fun part => toneNames !! part) parts,
     acc.2 ++ (ToneMissing <$> filter (fun part => toneNames !! part = None) parts)).
Proof.
  revert acc. induction parts as [|part parts IH]; intros [names diags]; simpl.
  - by rewrite !app_nil_r.
  - rewrite IH. unfold toneStep. rewrite filter_cons.
    destruct (toneNames !! part) as [name|] eqn:E; simpl.
    + by rewrite <- app_assoc.
    + by rewrite <- app_assoc.
Qed.

(** C5: [getToneNames] splits the key on '-', writes one diagnostic for each
    part that is not in the table of five tones and leaves that part out,
    and returns the labels of the other parts joined with '-': for every key
    when [assert] is compiled out, and when it is checked for every key that
    has a part in the table, which is what the assertion before the [return]
    demands of the key. Two tones give "tone1-tone5", the bare third tone
    gives "tone3". *)
Theorem getToneNames_resolves (tones : QString) :
  let parts := split 45 tones in
  let labels := omap (fun part => toneNames !! part) parts in
  let missing := filter (fun part => toneNames !! part = None) parts in
  getToneNames_NDEBUG tones = (ToneMissing <$> missing, join 45 labels)
  /\ ((exists part, part ∈ parts /\ is_Some (toneNames !! part)) ->
      getToneNames tones = (ToneMissing <$> missing, Ok (join 45 labels)))
  /\ (forall part label,
        toneNames !! part = Some label <->
        (part, label) ∈ [ (qs "1F3FB", qs "tone1"); (qs "1F3FC", qs "tone2");
                          (qs "1F3FD", qs "tone3"); (qs "1F3FE", qs "tone4");
                          (qs "1F3FF", qs "tone5") ])
  /\ getToneNames (qs "1F3FB-1F3FF") = ([], Ok (qs "tone1-tone5"))
  /\ getToneNames (qs "1F3FD") = ([], Ok (qs "tone3"))
  /\ getToneNames_NDEBUG (qs "1F3FB-1F3FF") = ([], qs "tone1-tone5")
  /\ getToneNames_NDEBUG (qs "1F3FD") = ([], qs "tone3").
Proof.
  cbv zeta. conjuncts.
  - unfold getToneNames_NDEBUG. rewrite toneStep_foldl. reflexivity.
  - intros (part & Hpart & [name Hname]).
    unfold getToneNames. rewrite toneStep_foldl. cbn [fst snd app].
    destruct (omap (fun part => toneNames !! part) (split 45 tones))
      as [|l ls] eqn:E; [|done].
    assert (name ∈ omap (fun part => toneNames !! part) (split 45 tones)) as Hin
      by (apply list_elem_of_omap; eauto).
    rewrite E in Hin. by apply elem_of_nil in Hin.
  - intros part label. split; intros H.
    + by apply elem_of_list_to_map_2.
    + apply elem_of_list_to_map_1; [|done]. compute_done.
  - vm_compute. reflexivity.
  - vm_compute. reflexivity.
  - vm_compute. reflexivity.
  - vm_compute. reflexivity.
Qed.

(** ** The loader *)

Lemma forEach_app {A} (body : A -> Emojis -> Outcome) (l1 l2 : list A) (st : Emojis) :
  forEach body (l1 ++ l2) st =
    match forEach body l1 st with
    | Done st' => forEach body l2 st'
    | Thrown st' f => Thrown st' f
    end.
Proof.
  revert st. induction l1 as [|x l1 IH]; intros st; simpl; [done|].
  destruct (body x st); [apply IH|done].
Qed.

Lemma forEach_invariant {A} (P : Emojis -> Prop) (body : A -> Emojis -> Outcome)
    (l : list A) (st : Emojis) :
  (forall x s, P s -> P (stateOf (body x s))) ->
  P st -> P (stateOf (forEach body l st)).
Proof.
  intros Hbody. revert st. induction l as [|x l IH]; intros st Hst; simpl; [done|].
  specialize (Hbody x st Hst). destruct (body x st); simpl in *; [by apply IH|done].
Qed.

Lemma storeCodepoints_foldl (l : list QString) (acc : list Z) :
  (length acc <= 9)%nat ->
  foldl storeCodepoint (Ok acc) l =
    if decide (length acc + length l <= 9)%nat
    then Ok (acc ++ (toUInt16 <$> l)) else Raise OutOfRange.
Proof.
  revert acc. induction l as [|ch l IH]; intros acc Hacc; simpl.
  - rewrite app_nil_r. case_decide; [done|lia].
  - destruct (decide (length acc < 9)%nat) as [Hlt|Hge].
    + rewrite IH by (rewrite length_app; simpl; lia).
      rewrite length_app. simpl. rewrite <- app_assoc. simpl.
      repeat case_decide; (done || lia).
    + case_decide; [lia|]. clear. induction l as [|? l IHl]; simpl; done.
Qed.

Lemma storeCodepoints_spec (l : list QString) :
  storeCodepoints l =
    if decide (length l <= 9)%nat then Ok (toUInt16 <$> l) else Raise OutOfRange.
Proof. unfold storeCodepoints. rewrite storeCodepoints_foldl by (simpl; lia). done. Qed.

Lemma parseEmoji_fresh (unparsedEmoji : RawEmoji) (shortCode : QString) :
  parseEmoji newEmojiData unparsedEmoji shortCode =
    let unicodeCharacters := split 45 (toLower (codeOf unparsedEmoji)) in
    if decide (length unicodeCharacters <= 9)%nat
    then Ok (mkEmojiData
               (match shortCode with
                | _ :: _ => [shortCode]
                | [] => short_names unparsedEmoji
                end)
               (getSafe (non_qualified unparsedEmoji) [])
               (getSafe (unified unparsedEmoji) [])
               (fromUcs4 (toUInt16 <$> unicodeCharacters))
               (insertCapabilities unparsedEmoji ∅)
               None)
    else Raise OutOfRange.
Proof.
  unfold parseEmoji, codeOf. simpl.
  set (nq := getSafe (non_qualified unparsedEmoji) []).
  set (un := getSafe (unified unparsedEmoji) []).
  set (chars := split 45 (toLower match nq with [] => un | _ :: _ => nq end)).
  assert (Hchars : match nq with
                   | _ :: _ => split 45 (toLower nq)
                   | [] => split 45 (toLower un)
                   end = chars) by (subst chars; by destruct nq).
  rewrite Hchars.
  pose proof (split_nonempty 45 (toLower match nq with [] => un | _ :: _ => nq end)) as Hne.
  fold chars in Hne.
  destruct (decide (length chars < 1)%nat) as [Hlt|_].
  { destruct chars; [done|simpl in Hlt; lia]. }
  rewrite storeCodepoints_spec.
  destruct (decide (length chars <= 9)%nat); simpl; [|done].
  by destruct shortCode.
Qed.

Lemma parseEmoji_value (unparsedEmoji : RawEmoji) (shortCode : QString) (e : EmojiData) :
  parseEmoji newEmojiData unparsedEmoji shortCode = Ok e ->
  value e = fromUcs4 (toUInt16 <$> split 45 (toLower (codeOf unparsedEmoji)))
  /\ (value e = [] <->
      byteOrderMarkOnly (toUInt16 <$> split 45 (toLower (codeOf unparsedEmoji))))
  /\ shortCodes e = match shortCode with
                    | _ :: _ => [shortCode]
                    | [] => short_names unparsedEmoji
                    end
  /\ unifiedCode e = getSafe (unified unparsedEmoji) []
  /\ nonQualifiedCode e = getSafe (non_qualified unparsedEmoji) []
  /\ capabilities e = insertCapabilities unparsedEmoji ∅
  /\ emote e = None.
Proof.
  rewrite parseEmoji_fresh. simpl. case_decide; [|done].
  intros [= <-]. simpl. split; [done|]. split; [|done].
  apply fromUcs4_empty.
  pose proof (split_nonempty 45 (toLower (codeOf unparsedEmoji))).
  by destruct (split 45 (toLower (codeOf unparsedEmoji))).
Qed.

Lemma parseEmoji_too_long (unparsedEmoji : RawEmoji) (shortCode : QString) :
  (9 < length (split 45 (toLower (codeOf unparsedEmoji))))%nat ->
  parseEmoji newEmojiData unparsedEmoji shortCode = Raise OutOfRange.
Proof. intros H. rewrite parseEmoji_fresh. simpl. case_decide; [lia|done]. Qed.

Lemma insertShortCodes_foldl (p : EmojiPtr) (l : list QString) (st : Emojis) :
  foldl (insertShortCode p) st l =
    mkEmojis (store st) (emojis st) (Emojis_shortCodes st ++ l)
      (foldl (fun m s => <[s := p]> m) (emojiShortCodeToEmoji_ st) l)
      (emojiFirstByte_ st) (diagnostics st).
Proof.
  revert st. induction l as [|s l IH]; intros st; simpl.
  - rewrite app_nil_r. by destruct st.
  - rewrite IH. simpl. by rewrite <- app_assoc.
Qed.

Lemma lookup_foldl_insert (m : gmap QString EmojiPtr) (l : list QString)
    (p : EmojiPtr) (s : QString) :
  foldl (fun m s => <[s := p]> m) m l !! s =
    if decide (s ∈ l) then Some p else m !! s.
Proof.
  revert m. induction l as [|s' l IH]; intros m; cbn [foldl].
  - rewrite decide_False by apply not_elem_of_nil. done.
  - rewrite IH. destruct (decide (s ∈ l)) as [Hin|Hnin].
    + rewrite decide_True by (rewrite elem_of_cons; tauto). done.
    + destruct (decide (s = s')) as [->|Hne].
      * rewrite decide_True by (rewrite elem_of_cons; tauto).
        by rewrite lookup_insert_eq.
      * rewrite decide_False by (rewrite elem_of_cons; tauto).
        by rewrite lookup_insert_ne.
Qed.

Lemma register_Done (emojiData : EmojiData) (st : Emojis) (c : QChar) (v : QString) :
  value emojiData = c :: v ->
  register emojiData st = Done (registered emojiData c st).
Proof.
  intros Hv. unfold register, share, indexByValue. rewrite Hv.
  rewrite insertShortCodes_foldl. reflexivity.
Qed.

Lemma loadEmoji_register (unparsedEmoji : RawEmoji) (st : Emojis) :
  loadEmoji unparsedEmoji st =
    match parseEmoji newEmojiData unparsedEmoji [] with
    | Raise f => Thrown st f
    | Ok emojiData =>
        match register emojiData st with
        | Thrown st f => Thrown st f
        | Done st =>
            match skin_variations unparsedEmoji with
            | None => Done st
            | Some variations => forEach (loadVariation emojiData) variations st
            end
        end
    end.
Proof. reflexivity. Qed.

Lemma loadVariation_register (emojiData : EmojiData)
    (skinVariation : QString * RawEmoji) (st : Emojis)
    (toneName shortCode0 : QString) (rest : list QString) (v : EmojiData) :
  (getToneNames skinVariation.1).2 = Ok toneName ->
  shortCodes emojiData = shortCode0 :: rest ->
  parseEmoji newEmojiData skinVariation.2 (shortCode0 ++ qs "_" ++ toneName) = Ok v ->
  loadVariation emojiData skinVariation st =
    register v (writeLog (getToneNames skinVariation.1).1 st).
Proof.
  intros Htone Hsc Hparse. unfold loadVariation.
  destruct (getToneNames skinVariation.1) as [diags r]. simpl in *. subst r.
  rewrite Hsc, Hparse.
  apply parseEmoji_value in Hparse as (_ & _ & Hv & _).
  assert (shortCodes v = [shortCode0 ++ qs "_" ++ toneName]) as Hv'.
  { rewrite Hv. destruct shortCode0; done. }
  unfold register. rewrite Hv'. reflexivity.
Qed.

Lemma register_Thrown (emojiData : EmojiData) (st : Emojis) :
  value emojiData = [] ->
  register emojiData st = Thrown (entered emojiData st) Undefined.
Proof.
  intros Hv. unfold register, share, indexByValue. rewrite Hv.
  rewrite insertShortCodes_foldl. reflexivity.
Qed.

(** ** What the loader keeps

    What the lines of [getToneNames] in the log, the registration of a
    parsed record and the entering of a parsed record of empty value keep,
    [loadEmojis] keeps, however it ends. *)

Section preserved.
Variable P : Emojis -> Prop.
Hypothesis P_log :
  forall tones s, P s -> P (writeLog (getToneNames tones).1 s).
Hypothesis P_registered :
  forall unparsedEmoji shortCode e c v s,
    parseEmoji newEmojiData unparsedEmoji shortCode = Ok e ->
    value e = c :: v -> P s -> P (registered e c s).
Hypothesis P_entered :
  forall unparsedEmoji shortCode e s,
    parseEmoji newEmojiData unparsedEmoji shortCode = Ok e ->
    value e = [] -> P s -> P (entered e s).

Lemma register_preserves (unparsedEmoji : RawEmoji) (shortCode : QString)
    (e : EmojiData) (s : Emojis) :
  parseEmoji newEmojiData unparsedEmoji shortCode = Ok e ->
  P s -> P (stateOf (register e s)).
Proof.
  intros He Hs. destruct (value e) as [|c v] eqn:Hv.
  - rewrite (register_Thrown e s Hv). simpl. by eapply P_entered.
  - rewrite (register_Done e s c v Hv). simpl. by eapply P_registered.
Qed.

Lemma loadVariation_preserves (base : EmojiData)
    (skinVariation : QString * RawEmoji) (s : Emojis) :
  P s -> P (stateOf (loadVariation base skinVariation s)).
Proof.
  intros Hs. pose proof (P_log skinVariation.1 s Hs) as Hlog.
  destruct (getToneNames skinVariation.1) as [diags [toneName|f]] eqn:Htone.
  2: { unfold loadVariation. by rewrite Htone. }
  destruct (shortCodes base) as [|shortCode0 rest] eqn:Hsc.
  { unfold loadVariation. by rewrite Htone, Hsc. }
  destruct (parseEmoji newEmojiData skinVariation.2 (shortCode0 ++ qs "_" ++ toneName))
    as [v|f] eqn:Hv.
  2: { unfold loadVariation. by rewrite Htone, Hsc, Hv. }
  erewrite loadVariation_register; [|by rewrite Htone|done|done].
  rewrite Htone. by eapply register_preserves.
Qed.

Lemma loadEmoji_preserves (unparsedEmoji : RawEmoji) (s : Emojis) :
  P s -> P (stateOf (loadEmoji unparsedEmoji s)).
Proof.
  intros Hs. rewrite loadEmoji_register.
  destruct (parseEmoji newEmojiData unparsedEmoji []) as [e|f] eqn:He; [|done].
  pose proof (register_preserves _ _ _ s He Hs) as Hs'.
  destruct (register e s) as [s'|s' f]; [|done]. simpl in Hs'.
  destruct (skin_variations unparsedEmoji) as [variations|]; [|done].
  apply (forEach_invariant P); [|done].
  intros. by apply loadVariation_preserves.
Qed.

Lemma loadEmojis_preserves (root : Document) (s : Emojis) :
  (forall s', P s' -> P (writeLog [JsonParseError] s')) ->
  P s -> P (stateOf (loadEmojis root s)).
Proof.
  intros Herror Hs. destruct root as [|entries]; simpl; [by apply Herror|].
  apply (forEach_invariant P); [|done].
  intros. by apply loadEmoji_preserves.
Qed.
End preserved.

(** What the lines of the log and the registration of a parsed record keep
    holds after a [loadEmojis] that returns. *)

Lemma forEach_completed {A} (P : Emojis -> Prop) (body : A -> Emojis -> Outcome)
    (l : list A) (st st' : Emojis) :
  (forall x s s', P s -> body x s = Done s' -> P s') ->
  P st -> forEach body l st = Done st' -> P st'.
Proof.
  intros Hbody. revert st. induction l as [|x l IH]; intros st Hst; simpl.
  - by intros [= <-].
  - destruct (body x st) as [s|s f] eqn:E; [|done]. apply IH. by eapply Hbody.
Qed.

Section completed.
Variable P : Emojis -> Prop.
Hypothesis P_log : forall ds s, P s -> P (writeLog ds s).
Hypothesis P_registered :
  forall unparsedEmoji shortCode e c v s,
    parseEmoji newEmojiData unparsedEmoji shortCode = Ok e ->
    value e = c :: v -> P s -> P (registered e c s).

Lemma register_completed (unparsedEmoji : RawEmoji) (shortCode : QString)
    (e : EmojiData) (s s' : Emojis) :
  parseEmoji newEmojiData unparsedEmoji shortCode = Ok e ->
  P s -> register e s = Done s' -> P s'.
Proof.
  intros He Hs. destruct (value e) as [|c v] eqn:Hv.
  - by rewrite (register_Thrown e s Hv).
  - rewrite (register_Done e s c v Hv). intros [= <-]. by eapply P_registered.
Qed.

Lemma loadVariation_completed (base : EmojiData)
    (skinVariation : QString * RawEmoji) (s s' : Emojis) :
  P s -> loadVariation base skinVariation s = Done s' -> P s'.
Proof.
  intros Hs.
  destruct (getToneNames skinVariation.1) as [diags [toneName|f]] eqn:Htone.
  2: { unfold loadVariation. by rewrite Htone. }
  destruct (shortCodes base) as [|shortCode0 rest] eqn:Hsc.
  { unfold loadVariation. by rewrite Htone, Hsc. }
  destruct (parseEmoji newEmojiData skinVariation.2 (shortCode0 ++ qs "_" ++ toneName))
    as [v|f] eqn:Hv.
  2: { unfold loadVariation. by rewrite Htone, Hsc, Hv. }
  erewrite loadVariation_register; [|by rewrite Htone|done|done].
  apply (register_completed _ _ _ _ _ Hv). by apply P_log.
Qed.

Lemma loadEmoji_completed (unparsedEmoji : RawEmoji) (s s' : Emojis) :
  P s -> loadEmoji unparsedEmoji s = Done s' -> P s'.
Proof.
  intros Hs. rewrite loadEmoji_register.
  destruct (parseEmoji newEmojiData unparsedEmoji []) as [e|f] eqn:He; [|done].
  pose proof (fun s1 => register_completed _ _ e s s1 He Hs) as Hreg.
  destruct (register e s) as [s1|s1 f]; [|done]. specialize (Hreg s1 eq_refl).
  destruct (skin_variations unparsedEmoji) as [variations|]; [|by intros [= <-]].
  apply (forEach_completed P); [|done].
  intros sv s0 s0'. apply loadVariation_completed.
Qed.

Lemma loadEmojis_completed (root : Document) (s s' : Emojis) :
  P s -> loadEmojis root s = Done s' -> P s'.
Proof.
  intros Hs. destruct root as [|entries]; simpl.
  - intros [= <-]. by apply P_log.
  - apply (forEach_completed P); [|done].
    intros raw s0 s0'. apply loadEmoji_completed.
Qed.
End completed.

Lemma Indexed_empty : Indexed emptyEmojis.
Proof. split; simpl; intros *; by rewrite ?lookup_nil, ?lookup_empty. Qed.

Lemma Indexed_writeLog (ds : list Diagnostic) (st : Emojis) :
  Indexed st -> Indexed (writeLog ds st).
Proof. intros [H1 H2 H3 H4]. split; simpl; eauto. Qed.

Lemma Indexed_registered (emojiData : EmojiData) (c : QChar) (v : QString)
    (st : Emojis) :
  value emojiData = c :: v ->
  Indexed st -> Indexed (registered emojiData c st).
Proof.
  intros Hv [H1 H2 H3 H4]. split; simpl.
  - intros p e [He|[_ He]]%lookup_app_Some; [eauto|].
    apply list_lookup_singleton_Some in He as [_ <-]. by rewrite Hv.
  - intros c' ps p Hps Hp.
    destruct (decide (c' = c)) as [->|Hne].
    + rewrite lookup_insert_eq in Hps. injection Hps as <-.
      apply elem_of_app in Hp as [Hp|Hp].
      * destruct (emojiFirstByte_ st !! c) as [ps|] eqn:E; simpl in Hp; [|set_solver].
        destruct (H2 _ _ _ E Hp) as (e & He & Hc).
        exists e. split; [|done]. by apply lookup_app_l_Some.
      * apply list_elem_of_singleton in Hp as ->. exists emojiData.
        split; [|by rewrite Hv].
        rewrite lookup_app_r by lia. by rewrite Nat.sub_diag.
    + rewrite lookup_insert_ne in Hps by done.
      destruct (H2 _ _ _ Hps Hp) as (e & He & Hc).
      exists e. split; [|done]. by apply lookup_app_l_Some.
  - intros s p. rewrite lookup_foldl_insert. case_decide as Hin.
    + intros [= <-]. exists emojiData. split; [|done].
      rewrite lookup_app_r by lia. by rewrite Nat.sub_diag.
    + intros Hs. destruct (H3 _ _ Hs) as (e & He & Hse).
      exists e. split; [|done]. by apply lookup_app_l_Some.
  - intros p e s He Hs. rewrite lookup_foldl_insert. case_decide as Hin; [done|].
    apply lookup_app_Some in He as [He|[_ He]]; [eauto|].
    apply list_lookup_singleton_Some in He as [_ <-]. done.
Qed.

Lemma Indexed_loadEmojis (root : Document) (st st' : Emojis) :
  loadEmojis root st = Done st' -> Indexed st -> Indexed st'.
Proof.
  intros Hrun Hst. revert Hst Hrun. apply (loadEmojis_completed Indexed).
  - intros ds s. apply Indexed_writeLog.
  - intros raw sc e c v s _ Hv. by apply (Indexed_registered e c v).
Qed.

(** ** Sorting *)

Section stable_sort.
Context {A : Type} (key : A -> nat).

(** The comparison of [sortEmojis], on a key: a larger key goes first. *)
Let comp (x y : A) : bool := (key y <? key x)%nat.

Lemma insertSorted_Permutation (x : A) (l : list A) :
  insertSorted comp x l ≡ₚ x :: l.
Proof.
  induction l as [|y l IH]; simpl; [done|].
  destruct (comp y x); [|done].
  rewrite IH. apply Permutation_swap.
Qed.

Lemma stable_sort_Permutation (l : list A) : stable_sort comp l ≡ₚ l.
Proof.
  induction l as [|x l IH]; simpl; [done|].
  rewrite insertSorted_Permutation. by rewrite IH.
Qed.

Lemma insertSorted_sorted (x : A) (l : list A) :
  StronglySorted (fun a b => key b <= key a)%nat l ->
  StronglySorted (fun a b => key b <= key a)%nat (insertSorted comp x l).
Proof.
  induction 1 as [|y l Hl IH Hy]; simpl.
  - repeat constructor.
  - unfold comp at 1. destruct (key x <? key y)%nat eqn:E.
    + apply Nat.ltb_lt in E. constructor; [done|].
      rewrite insertSorted_Permutation. constructor; [lia|done].
    + apply Nat.ltb_ge in E. constructor; [by constructor|].
      constructor; [done|]. eapply Forall_impl; [exact Hy|].
      simpl. intros. lia.
Qed.

Lemma stable_sort_sorted (l : list A) :
  StronglySorted (fun a b => key b <= key a)%nat (stable_sort comp l).
Proof.
  induction l as [|x l IH]; simpl; [constructor|].
  by apply insertSorted_sorted.
Qed.

(** Stability: the elements of one key keep their order. *)
Lemma insertSorted_stable (n : nat) (x : A) (l : list A) :
  filter (fun a => key a = n) (insertSorted comp x l) =
  filter (fun a => key a = n) (x :: l).
Proof.
  induction l as [|y l IH]; simpl; [done|].
  unfold comp at 1. destruct (key x <? key y)%nat eqn:E; [|done].
  apply Nat.ltb_lt in E.
  rewrite (filter_cons _ y), IH, !filter_cons.
  repeat case_decide; (done || lia).
Qed.

Lemma stable_sort_stable (n : nat) (l : list A) :
  filter (fun a => key a = n) (stable_sort comp l) =
  filter (fun a => key a = n) l.
Proof.
  induction l as [|x l IH]; simpl; [done|].
  rewrite insertSorted_stable, !filter_cons, IH. done.
Qed.
End stable_sort.

Lemma sortEmojis_candidates (st : Emojis) (c : QChar) (ps : list EmojiPtr) :
  emojiFirstByte_ (sortEmojis st) !! c = Some ps ->
  exists ps0, emojiFirstByte_ st !! c = Some ps0
              /\ ps = stable_sort (longerValue st) ps0.
Proof.
  simpl. rewrite lookup_fmap. destruct (emojiFirstByte_ st !! c) as [ps0|]; [|done].
  simpl. intros [= <-]. eauto.
Qed.

Lemma sortEmojis_LongestFirst (st : Emojis) : LongestFirst (sortEmojis st).
Proof.
  intros c ps (ps0 & _ & ->)%sortEmojis_candidates.
  apply (stable_sort_sorted (valueLength st)).
Qed.

Lemma Indexed_sortEmojis (st : Emojis) : Indexed st -> Indexed (sortEmojis st).
Proof.
  intros [H1 H2 H3 H4]. split; simpl; eauto.
  intros c ps p (ps0 & Hps0 & ->)%sortEmojis_candidates Hp.
  apply (H2 c ps0 p Hps0).
  by rewrite (stable_sort_Permutation (valueLength st)) in Hp.
Qed.

(** ** The emoji set *)

Lemma SameData_refl (st : Emojis) : SameData st st.
Proof. by split. Qed.

Lemma SameData_lookup (st st' : Emojis) (p : EmojiPtr) (e' : EmojiData) :
  SameData st st' -> store st' !! p = Some e' ->
  exists e, store st !! p = Some e /\ stripEmote e = stripEmote e'.
Proof.
  intros [Hs _ _ _ _ _] He'.
  assert ((stripEmote <$> store st') !! p = Some (stripEmote e')) as H
    by (by rewrite list_lookup_fmap, He').
  rewrite Hs, list_lookup_fmap in H.
  destruct (store st !! p) as [e|]; [|done].
  exists e. split; [done|]. simpl in H. congruence.
Qed.

Lemma SameData_lookup_inv (st st' : Emojis) (p : EmojiPtr) (e : EmojiData) :
  SameData st st' -> store st !! p = Some e ->
  exists e', store st' !! p = Some e' /\ stripEmote e = stripEmote e'.
Proof.
  intros [Hs _ _ _ _ _] He.
  assert ((stripEmote <$> store st) !! p = Some (stripEmote e)) as H
    by (by rewrite list_lookup_fmap, He).
  rewrite <- Hs, list_lookup_fmap in H.
  destruct (store st' !! p) as [e'|]; [|done].
  exists e'. split; [done|]. simpl in H. congruence.
Qed.

Lemma stripEmote_fields (e e' : EmojiData) :
  stripEmote e = stripEmote e' ->
  shortCodes e = shortCodes e' /\ unifiedCode e = unifiedCode e'
  /\ value e = value e' /\ capabilities e = capabilities e'
  /\ nonQualifiedCode e = nonQualifiedCode e'.
Proof. destruct e, e'. unfold stripEmote. simpl. intros [=]. by subst. Qed.

Lemma SameData_value (st st' : Emojis) (p : EmojiPtr) :
  SameData st st' -> value (deref st' p) = value (deref st p).
Proof.
  intros H. unfold deref.
  destruct (store st' !! p) as [e'|] eqn:E'.
  - destruct (SameData_lookup _ _ _ _ H E') as (e & -> & Hee). simpl.
    by apply stripEmote_fields in Hee as (_ & _ & -> & _).
  - destruct (store st !! p) as [e|] eqn:E; [|done].
    destruct (SameData_lookup_inv _ _ _ _ H E) as (e' & He' & _). congruence.
Qed.

Lemma SameData_shortCodes (st st' : Emojis) (p : EmojiPtr) :
  SameData st st' -> shortCodes (deref st' p) = shortCodes (deref st p).
Proof.
  intros H. unfold deref.
  destruct (store st' !! p) as [e'|] eqn:E'.
  - destruct (SameData_lookup _ _ _ _ H E') as (e & -> & Hee). simpl.
    by apply stripEmote_fields in Hee as (-> & _).
  - destruct (store st !! p) as [e|] eqn:E; [|done].
    destruct (SameData_lookup_inv _ _ _ _ H E) as (e' & He' & _). congruence.
Qed.

Lemma Indexed_SameData (st st' : Emojis) :
  SameData st st' -> Indexed st -> Indexed st'.
Proof.
  intros Hsame [H1 H2 H3 H4].
  pose proof Hsame as [_ _ _ Hsc Hfb _]. split.
  - intros p e' (e & He & Hee)%(SameData_lookup st); [|done].
    apply stripEmote_fields in Hee as (_ & _ & <- & _). eauto.
  - intros c ps p. rewrite Hfb. intros Hps Hp.
    destruct (H2 _ _ _ Hps Hp) as (e & He & Hc).
    destruct (SameData_lookup_inv _ _ _ _ Hsame He) as (e' & He' & Hee).
    apply stripEmote_fields in Hee as (_ & _ & Hv & _).
    exists e'. by rewrite <- Hv.
  - intros s p. rewrite Hsc. intros Hs.
    destruct (H3 _ _ Hs) as (e & He & Hin).
    destruct (SameData_lookup_inv _ _ _ _ Hsame He) as (e' & He' & Hee).
    apply stripEmote_fields in Hee as (Hv & _).
    exists e'. by rewrite <- Hv.
  - intros p e' s (e & He & Hee)%(SameData_lookup st) Hs; [|done].
    apply stripEmote_fields in Hee as (Hv & _).
    rewrite Hsc. apply (H4 p e s He). by rewrite Hv.
Qed.

Lemma StronglySorted_weaken {A} (R R' : A -> A -> Prop) (l : list A) :
  (forall a b, R a b -> R' a b) -> StronglySorted R l -> StronglySorted R' l.
Proof.
  intros HR. induction 1 as [|x l Hl IH Hx]; constructor; [done|].
  eapply Forall_impl; [exact Hx|]. auto.
Qed.

Lemma LongestFirst_SameData (st st' : Emojis) :
  SameData st st' -> LongestFirst st -> LongestFirst st'.
Proof.
  intros Hsame Hst c ps. rewrite (same_firstByte _ _ Hsame). intros Hps.
  eapply StronglySorted_weaken; [|by apply (Hst c)].
  intros a b. unfold valueLength. by rewrite !(SameData_value st st').
Qed.

Lemma setEmote_stripEmote (emojiSet : QString) (e e' : EmojiData) :
  setEmote emojiSet e = Ok e' -> stripEmote e' = stripEmote e.
Proof.
  unfold setEmote. destruct e as [scs nq un v caps em]. simpl.
  destruct scs; [done|]. by intros [= <-].
Qed.

Lemma SameData_setEmoteAt (st : Emojis) (emojiSet : QString)
    (entry : QString * EmojiPtr) (s : Emojis) :
  SameData st s -> SameData st (stateOf (setEmoteAt emojiSet entry s)).
Proof.
  intros Hsame. unfold setEmoteAt.
  destruct (store s !! entry.2) as [e|] eqn:He; [|done].
  destruct (setEmote emojiSet e) as [e'|f] eqn:Hset; [|done].
  destruct Hsame as [Hs ? ? ? ? ?]. split; simpl; try done.
  rewrite list_fmap_insert, (setEmote_stripEmote _ _ _ Hset), <- Hs.
  apply list_insert_id. by rewrite list_lookup_fmap, He.
Qed.

Lemma SameData_loadEmojiSet (emojiSet : QString) (st : Emojis) :
  SameData st (stateOf (loadEmojiSet emojiSet st)).
Proof.
  unfold loadEmojiSet.
  apply (forEach_invariant (SameData st)); [|apply SameData_refl].
  intros. by apply SameData_setEmoteAt.
Qed.

Lemma setEmote_spec (emojiSet : QString) (e : EmojiData) (sc0 : QString)
    (rest : list QString) :
  shortCodes e = sc0 :: rest ->
  exists e', setEmote emojiSet e = Ok e'
             /\ emote e' = Some (specEmote emojiSet e sc0).
Proof.
  intros Hsc. unfold setEmote. rewrite Hsc. eexists. split; [done|]. simpl.
  unfold specEmote, specUrl, specVendor, urlPrefixOf, emojiSetToUse.
  by destruct (emojiSets !! _).
Qed.

Lemma specEmote_stripEmote (emojiSet : QString) (e e' : EmojiData) (sc0 : QString) :
  stripEmote e = stripEmote e' ->
  specEmote emojiSet e sc0 = specEmote emojiSet e' sc0.
Proof.
  intros (_ & Hu & Hv & Hc & _)%stripEmote_fields.
  unfold specEmote, specUrl, specVendor. by rewrite Hu, Hv, Hc.
Qed.

Lemma forEach_setEmoteAt (emojiSet : QString) (st : Emojis)
    (l : list (QString * EmojiPtr)) (s : Emojis) :
  SameData st s ->
  (forall entry, entry ∈ l ->
     exists e, store st !! entry.2 = Some e /\ shortCodes e <> []) ->
  exists s', forEach (setEmoteAt emojiSet) l s = Done s'
    /\ SameData st s'
    /\ (forall p e sc0 rest, p ∈ l.*2 -> store st !! p = Some e ->
          shortCodes e = sc0 :: rest ->
          emote (deref s' p) = Some (specEmote emojiSet e sc0))
    /\ (forall p, p ∉ l.*2 -> store s' !! p = store s !! p).
Proof.
  revert s. induction l as [|entry l IH]; intros s Hsame Hl.
  - exists s. simpl. split; [done|]. split; [done|]. split; [|done].
    intros p e sc0 rest Hp. by apply elem_of_nil in Hp.
  - destruct (Hl entry) as (e & He & Hsc); [by left|].
    destruct (SameData_lookup_inv _ _ _ _ Hsame He) as (es & Hes & Hstrip).
    destruct (shortCodes e) as [|sc0 rest] eqn:Hsc0; [done|].
    assert (shortCodes es = sc0 :: rest) as Hsces.
    { apply stripEmote_fields in Hstrip as (<- & _). done. }
    destruct (setEmote_spec emojiSet es sc0 rest Hsces) as (e1 & Hset & Hem).
    pose proof (SameData_setEmoteAt st emojiSet entry s Hsame) as Hsame1.
    simpl. unfold setEmoteAt in *. rewrite Hes, Hset in *. simpl in Hsame1.
    destruct (IH (updateStore entry.2 e1 s) Hsame1) as (s' & Hrun & Hsame' & Hin & Hout).
    { intros entry' Hentry'. apply Hl. by right. }
    exists s'. split; [done|]. split; [done|]. split.
    + intros p e' sc0' rest' Hp He' Hsc'.
      destruct (decide (p ∈ l.*2)) as [Hpl|Hpl]; [by eapply Hin|].
      apply elem_of_cons in Hp as [->|Hp]; [|done].
      unfold deref. rewrite (Hout _ Hpl). simpl.
      rewrite list_lookup_insert_eq by (by eapply lookup_lt_Some).
      simpl. rewrite Hem. rewrite He in He'. injection He' as <-.
      rewrite Hsc0 in Hsc'. injection Hsc' as <- <-.
      f_equal. symmetry. by apply specEmote_stripEmote.
    + intros p Hp. apply not_elem_of_cons in Hp as [Hne Hp].
      rewrite (Hout _ Hp). simpl. by rewrite list_lookup_insert_ne.
Qed.

(** C6, as the code has it: [loadEmojiSet] goes through the map [emojis]
    and gives every record it holds (each with a first shortcode) its emote;
    the vendor is the preference when the record's capabilities have it and
    "Twitter" otherwise, the URL is the vendor's prefix (the default prefix if the
    table has none), the lower-case unified code and ".png". A record with
    Twitter and Apple images under the preference "Google" gets the vendor
    "Twitter" and the URL with the default prefix. *)
Theorem loadEmojiSet_resolves (emojiSet : QString) (st : Emojis) :
  (forall name p, emojis st !! name = Some p ->
     exists e, store st !! p = Some e /\ shortCodes e <> []) ->
  exists st', loadEmojiSet emojiSet st = Done st'
    /\ (forall name p e sc0 rest,
          emojis st !! name = Some p -> store st !! p = Some e ->
          shortCodes e = sc0 :: rest ->
          emote (deref st' p) = Some (specEmote emojiSet e sc0)
          /\ specVendor emojiSet e =
               (if decide (emojiSet ∈ capabilities e) then emojiSet
                else qs "Twitter")
          /\ emote_imageUrl (specEmote emojiSet e sc0) =
               default defaultUrlPrefix (emojiSets !! specVendor emojiSet e)
               ++ toLower (unifiedCode e) ++ qs ".png")
    /\ (forall e sc0,
          capabilities e = {[ qs "Twitter"; qs "Apple" ]} ->
          specVendor (qs "Google") e = qs "Twitter"
          /\ emote_imageUrl (specEmote (qs "Google") e sc0) =
               defaultUrlPrefix ++ toLower (unifiedCode e) ++ qs ".png").
Proof.
  intros Hwf.
  destruct (forEach_setEmoteAt emojiSet st (map_to_list (emojis st)) st)
    as (st' & Hrun & _ & Hin & _); [apply SameData_refl| |].
  { intros [name p] Hentry%elem_of_map_to_list. by eapply Hwf. }
  exists st'. split; [done|]. split.
  - intros name p e sc0 rest Hname He Hsc. split; [|done].
    eapply Hin; [|done..].
    apply list_elem_of_fmap. exists (name, p). split; [done|].
    by apply elem_of_map_to_list.
  - intros e sc0 Hcaps.
    assert (specVendor (qs "Google") e = qs "Twitter") as Hvendor.
    { unfold specVendor. rewrite Hcaps. case_decide as Hin'; [|done].
      apply elem_of_union in Hin' as [Hin'|Hin'];
        apply elem_of_singleton in Hin'; by vm_compute in Hin'. }
    split; [done|]. simpl. unfold specUrl. rewrite Hvendor. reflexivity.
Qed.

Lemma loadEmojiSet_resolves_witness :
  exists st', loadEmojiSet (qs "Google") smileLoaded = Done st'
    /\ (forall name p e sc0 rest,
          emojis smileLoaded !! name = Some p -> store smileLoaded !! p = Some e ->
          shortCodes e = sc0 :: rest ->
          emote (deref st' p) = Some (specEmote (qs "Google") e sc0)
          /\ specVendor (qs "Google") e =
               (if decide (qs "Google" ∈ capabilities e) then qs "Google"
                else qs "Twitter")
          /\ emote_imageUrl (specEmote (qs "Google") e sc0) =
               default defaultUrlPrefix (emojiSets !! specVendor (qs "Google") e)
               ++ toLower (unifiedCode e) ++ qs ".png")
    /\ (forall e sc0,
          capabilities e = {[ qs "Twitter"; qs "Apple" ]} ->
          specVendor (qs "Google") e = qs "Twitter"
          /\ emote_imageUrl (specEmote (qs "Google") e sc0) =
               defaultUrlPrefix ++ toLower (unifiedCode e) ++ qs ".png").
Proof.
  apply (loadEmojiSet_resolves (qs "Google") smileLoaded).
  intros name p Hp.
  assert (emojis smileLoaded = {[ qs "1F604" := 0%nat ]}) as Hmap
    by (vm_compute; reflexivity).
  rewrite Hmap in Hp. apply lookup_singleton_Some in Hp as [_ <-].
  eexists. split; [reflexivity|]. vm_compute. discriminate.
Defined.

(** C6 fails for a record that [emojis] no longer holds. Two entries have
    one unified code: the second takes the place of the first in [emojis],
    [loadEmojiSet] visits the second only, and the first, which [parse]
    still finds through the first unit of its value, keeps its null emote. *)
Lemma loadEmojiSet_misses_replaced :
  load (Array [capitalRaw; smileRaw]) (qs "Twitter") emptyEmojis = Done twinEngine
  /\ unifiedCode <$> store twinEngine = [qs "1F604"; qs "1F604"]
  /\ emojis twinEngine = {[ qs "1F604" := 1%nat ]}
  /\ emote (deref twinEngine 0%nat) = None
  /\ emote (deref twinEngine 1%nat)
     = Some (specEmote (qs "Twitter") (deref twinEngine 1%nat) (qs "smile"))
  /\ parse twinEngine [0xD83D; 0xDE04] = [inl None].
Proof. conjuncts; by vm_compute. Qed.

(** ** Loading *)

Lemma load_Done (root : Document) (emojiSet : QString) (st0 st : Emojis) :
  load root emojiSet st0 = Done st ->
  exists st1, loadEmojis root st0 = Done st1
              /\ loadEmojiSet emojiSet (sortEmojis st1) = Done st
              /\ SameData (sortEmojis st1) st.
Proof.
  unfold load. destruct (loadEmojis root st0) as [st1|] eqn:E; [|done].
  intros H. exists st1. split; [done|]. split; [done|].
  pose proof (SameData_loadEmojiSet emojiSet (sortEmojis st1)) as Hs.
  by rewrite H in Hs.
Qed.

Lemma Indexed_load (root : Document) (emojiSet : QString) (st0 st : Emojis) :
  load root emojiSet st0 = Done st -> Indexed st0 -> Indexed st.
Proof.
  intros (st1 & Hst1 & _ & Hsame)%load_Done H0.
  eapply Indexed_SameData; [done|].
  apply Indexed_sortEmojis. by eapply Indexed_loadEmojis.
Qed.

Lemma LongestFirst_load (root : Document) (emojiSet : QString) (st0 st : Emojis) :
  load root emojiSet st0 = Done st -> LongestFirst st.
Proof.
  intros (st1 & _ & _ & Hsame)%load_Done.
  eapply LongestFirst_SameData; [done|]. apply sortEmojis_LongestFirst.
Qed.

(** C2, as the code has it: a record whose code has more than 9 parts makes
    [parseEmoji] raise the exception of [std::array::at]; nothing in
    [loadEmojis] or [load] handles it, so the load ends there, in the state
    the records before it left: that record and those after it are not
    registered, and nothing is written to the log. *)
Theorem load_too_long_aborts (bad : RawEmoji) (before after : list RawEmoji)
    (emojiSet : QString) (st st1 : Emojis) :
  (9 < length (split 45 (toLower (codeOf bad))))%nat ->
  forEach loadEmoji before st = Done st1 ->
  (forall shortCode, parseEmoji newEmojiData bad shortCode = Raise OutOfRange)
  /\ loadEmojis (Array (before ++ bad :: after)) st = Thrown st1 OutOfRange
  /\ load (Array (before ++ bad :: after)) emojiSet st = Thrown st1 OutOfRange.
Proof.
  intros Hlong Hbefore.
  assert (loadEmojis (Array (before ++ bad :: after)) st = Thrown st1 OutOfRange) as H.
  { simpl. rewrite forEach_app, Hbefore. simpl.
    rewrite loadEmoji_register, (parseEmoji_too_long _ _ Hlong). done. }
  split; [|split; [done|]].
  - intros shortCode. by apply parseEmoji_too_long.
  - unfold load. by rewrite H.
Qed.

(** C2 fails on the code: after the record that is too long the load does
    not go on, and the record behind it is not there. *)
Lemma load_too_long_stops :
  load (Array [tooLongRaw; smileRaw]) (qs "Twitter") emptyEmojis
    = Thrown emptyEmojis OutOfRange
  /\ emojiShortCodeToEmoji_
       (stateOf (load (Array [tooLongRaw; smileRaw]) (qs "Twitter") emptyEmojis))
     !! qs "smile" = None
  /\ (exists st, load (Array [smileRaw]) (qs "Twitter") emptyEmojis = Done st
                 /\ emojiShortCodeToEmoji_ st !! qs "smile" = Some 0%nat).
Proof.
  split; [by vm_compute|]. split; [by vm_compute|].
  eexists. split; [by vm_compute|]. by vm_compute.
Qed.

Lemma load_too_long_aborts_witness :
  (forall shortCode, parseEmoji newEmojiData tooLongRaw shortCode = Raise OutOfRange)
  /\ loadEmojis (Array ([smileRaw] ++ tooLongRaw :: [smileRaw])) emptyEmojis
     = Thrown smileLoaded OutOfRange
  /\ load (Array ([smileRaw] ++ tooLongRaw :: [smileRaw])) (qs "Twitter") emptyEmojis
     = Thrown smileLoaded OutOfRange.
Proof.
  apply (load_too_long_aborts tooLongRaw [smileRaw] [smileRaw] (qs "Twitter")
           emptyEmojis smileLoaded).
  - apply Nat.ltb_lt. vm_compute. reflexivity.
  - vm_compute. reflexivity.
Defined.

Lemma Extends_refl (st : Emojis) : Extends st st.
Proof. split; try done. intros c ps0 H. by exists ps0. Qed.

Lemma prefix_snoc {A} (l1 l2 l3 : list A) :
  l1 `prefix_of` l2 -> l1 `prefix_of` l2 ++ l3.
Proof. intros [k ->]. exists (k ++ l3). by rewrite app_assoc. Qed.

Lemma Extends_writeLog (st0 : Emojis) (ds : list Diagnostic) (s : Emojis) :
  Extends st0 s -> Extends st0 (writeLog ds s).
Proof.
  intros [H1 H2 H3 H4 H5 H6]. split; simpl; try done. by apply prefix_snoc.
Qed.

Lemma Extends_registered (st0 : Emojis) (e : EmojiData) (c : QChar) (s : Emojis) :
  Extends st0 s -> Extends st0 (registered e c s).
Proof.
  intros [H1 H2 H3 H4 H5 H6]. split; simpl.
  - by apply prefix_snoc.
  - by apply prefix_snoc.
  - done.
  - intros s' Hs'. rewrite lookup_foldl_insert. case_decide; [done|by apply H4].
  - intros k Hk. destruct (decide (k = unifiedCode e)) as [->|Hne].
    + by rewrite lookup_insert_eq.
    + rewrite lookup_insert_ne by done. by apply H5.
  - intros c' ps0 Hps0. destruct (H6 _ _ Hps0) as (ps & Hps & Hpre).
    destruct (decide (c' = c)) as [->|Hne].
    + eexists. rewrite lookup_insert_eq. split; [done|].
      rewrite Hps. simpl. by apply prefix_snoc.
    + exists ps. by rewrite lookup_insert_ne.
Qed.

Lemma Extends_entered (st0 : Emojis) (e : EmojiData) (s : Emojis) :
  Extends st0 s -> Extends st0 (entered e s).
Proof.
  intros [H1 H2 H3 H4 H5 H6]. split; simpl; try done.
  - by apply prefix_snoc.
  - by apply prefix_snoc.
  - intros s' Hs'. rewrite lookup_foldl_insert. case_decide; [done|by apply H4].
Qed.

Lemma getToneNames_log (tones : QString) :
  (getToneNames tones).1
  = ToneMissing <$> filter (fun part => toneNames !! part = None) (split 45 tones).
Proof. unfold getToneNames. by rewrite toneStep_foldl. Qed.

(** C3, as the code has it: a record with neither code is not failed.
    [parseEmoji] returns normally and leaves both codes empty, and
    [loadEmojis] has no way to skip a record or to log it: however the
    loading of the entry ends, its record is in the store behind the records
    that were there, each of its short names is in the shortcode map and in
    the list of shortcodes, and the only lines written to the log are those
    of [getToneNames] on the keys of its skin variations; without skin
    variations nothing is logged and each short name leads to the record.
    After a load that returns, no record of the store has an empty value. *)
Theorem loadEmoji_without_codes (unparsedEmoji : RawEmoji) (st : Emojis) :
  non_qualified unparsedEmoji = None ->
  unified unparsedEmoji = None ->
  (exists e,
      parseEmoji newEmojiData unparsedEmoji [] = Ok e
      /\ unifiedCode e = [] /\ nonQualifiedCode e = []
      /\ shortCodes e = short_names unparsedEmoji
      /\ store (stateOf (loadEmoji unparsedEmoji st)) !! length (store st) = Some e
      /\ (forall s, s ∈ short_names unparsedEmoji ->
            is_Some (emojiShortCodeToEmoji_ (stateOf (loadEmoji unparsedEmoji st)) !! s)
            /\ s ∈ Emojis_shortCodes (stateOf (loadEmoji unparsedEmoji st)))
      /\ (forall d, d ∈ diagnostics (stateOf (loadEmoji unparsedEmoji st)) ->
            d ∈ diagnostics st \/ exists tonePart, d = ToneMissing tonePart)
      /\ (skin_variations unparsedEmoji = None ->
          diagnostics (stateOf (loadEmoji unparsedEmoji st)) = diagnostics st
          /\ forall s, s ∈ short_names unparsedEmoji ->
               emojiShortCodeToEmoji_ (stateOf (loadEmoji unparsedEmoji st)) !! s
               = Some (length (store st))))
  /\ (forall root emojiSet st' p e,
        load root emojiSet emptyEmojis = Done st' ->
        store st' !! p = Some e -> value e <> []).
Proof.
  intros Hnq Hun. split.
  - assert (codeOf unparsedEmoji = []) as Hcode
      by (unfold codeOf; by rewrite Hnq, Hun).
    pose proof (parseEmoji_fresh unparsedEmoji []) as Hparse.
    cbv zeta in Hparse. rewrite Hcode in Hparse.
    rewrite decide_True in Hparse by (vm_compute; lia).
    set (e := mkEmojiData _ _ _ _ _ _) in Hparse.
    assert (value e = [0]) as Hv by reflexivity.
    assert (shortCodes e = short_names unparsedEmoji) as Hsc by reflexivity.
    assert (unifiedCode e = []) as Hu by (subst e; simpl; by rewrite Hun).
    assert (nonQualifiedCode e = []) as Hn by (subst e; simpl; by rewrite Hnq).
    clearbody e.
    exists e. do 4 (split; [done|]).
    set (s1 := registered e 0 st).
    set (P := fun s => Extends s1 s
                /\ forall d, d ∈ diagnostics s ->
                     d ∈ diagnostics st \/ exists tonePart, d = ToneMissing tonePart).
    assert (P s1) as Hs1 by (split; [apply Extends_refl|by left]).
    assert (forall s, s ∈ short_names unparsedEmoji ->
              emojiShortCodeToEmoji_ s1 !! s = Some (length (store st))) as Hmap.
    { intros s Hs. simpl. rewrite lookup_foldl_insert, Hsc.
      by rewrite decide_True. }
    assert (P (stateOf (loadEmoji unparsedEmoji st))) as [Hext Hlog].
    { rewrite loadEmoji_register, Hparse, (register_Done e st 0 [] Hv).
      fold s1. destruct (skin_variations unparsedEmoji) as [variations|]; [|done].
      apply (forEach_invariant P); [|done].
      intros sv s HP. revert s HP. apply (loadVariation_preserves P).
      - intros tones s [Hext Hlog]. split; [by apply Extends_writeLog|].
        simpl. intros d [Hd|Hd]%elem_of_app; [by apply Hlog|]. right.
        rewrite getToneNames_log in Hd.
        apply list_elem_of_fmap in Hd as (part & -> & _). by exists part.
      - intros raw sc v c w s _ _ [Hext Hlog]. split; [|done].
        by apply Extends_registered.
      - intros raw sc v s _ _ [Hext Hlog]. split; [|done].
        by apply Extends_entered. }
    split; [|split; [|split]].
    + eapply prefix_lookup_Some; [|apply (extends_store _ _ Hext)].
      simpl. rewrite lookup_app_r by lia. by rewrite Nat.sub_diag.
    + intros s Hs. split.
      * apply (extends_shortCodeToEmoji _ _ Hext). by rewrite (Hmap s Hs).
      * eapply elem_of_prefix; [|apply (extends_shortCodes _ _ Hext)].
        simpl. rewrite Hsc. apply elem_of_app. by right.
    + done.
    + intros Hsv.
      rewrite loadEmoji_register, Hparse, (register_Done e st 0 [] Hv), Hsv.
      split; [done|]. exact Hmap.
  - intros root emojiSet st' p e Hload He.
    by eapply (indexed_value _ (Indexed_load _ _ _ _ Hload Indexed_empty)).
Qed.

(** C3 fails on the code: the record with neither code is registered, in
    the store and in the three maps. *)
Lemma load_without_codes_registers :
  exists st, load (Array [noCodeRaw]) (qs "Twitter") emptyEmojis = Done st
    /\ value <$> store st = [[0]]
    /\ emojiShortCodeToEmoji_ st !! qs "nothing" = Some 0%nat
    /\ emojiFirstByte_ st !! 0 = Some [0%nat]
    /\ emojis st !! [] = Some 0%nat
    /\ Emojis_shortCodes st = [qs "nothing"]
    /\ diagnostics st = [].
Proof. eexists. split; [by vm_compute|]. by vm_compute. Qed.

Lemma loadEmoji_without_codes_witness :
  (exists e,
      parseEmoji newEmojiData noCodeRaw [] = Ok e
      /\ unifiedCode e = [] /\ nonQualifiedCode e = []
      /\ shortCodes e = short_names noCodeRaw
      /\ store (stateOf (loadEmoji noCodeRaw smileLoaded))
           !! length (store smileLoaded) = Some e
      /\ (forall s, s ∈ short_names noCodeRaw ->
            is_Some (emojiShortCodeToEmoji_
                       (stateOf (loadEmoji noCodeRaw smileLoaded)) !! s)
            /\ s ∈ Emojis_shortCodes (stateOf (loadEmoji noCodeRaw smileLoaded)))
      /\ (forall d, d ∈ diagnostics (stateOf (loadEmoji noCodeRaw smileLoaded)) ->
            d ∈ diagnostics smileLoaded \/ exists tonePart, d = ToneMissing tonePart)
      /\ (skin_variations noCodeRaw = None ->
          diagnostics (stateOf (loadEmoji noCodeRaw smileLoaded))
          = diagnostics smileLoaded
          /\ forall s, s ∈ short_names noCodeRaw ->
               emojiShortCodeToEmoji_ (stateOf (loadEmoji noCodeRaw smileLoaded)) !! s
               = Some (length (store smileLoaded))))
  /\ (forall root emojiSet st' p e,
        load root emojiSet emptyEmojis = Done st' ->
        store st' !! p = Some e -> value e <> []).
Proof.
  apply (loadEmoji_without_codes noCodeRaw smileLoaded); reflexivity.
Defined.

(** ** The scanner *)

Lemma parseLoop_eq (st : Emojis) (text : QString) (i last : nat)
    (result : list Span) :
  parseLoop st text i last result =
    if decide (i < length text)%nat then
      match matchAt st text i with
      | None => parseLoop st text (S i) last result
      | Some (matchedEmoji, matchedEmojiLength) =>
          parseLoop st text (S (i + (matchedEmojiLength - 1)))
            (i + matchedEmojiLength)
            (result ++ inbetween last i ++ [SpanEmoji i matchedEmoji])
      end
    else result ++ inbetween last (length text).
Proof.
  rewrite parseLoop_equation_1.
  destruct (decide (i < length text)%nat) as [Hlt|Hge].
  - rewrite parseLoop_clause_1_equation_1.
    destruct (matchAt st text i) as [[p len]|].
    + by rewrite parseLoop_clause_1_clause_2_equation_1.
    + by rewrite parseLoop_clause_1_clause_2_equation_2.
  - by rewrite parseLoop_clause_1_equation_2.
Qed.

Lemma restMatches_true (text : QString) (i : nat) (v : QString) :
  restMatches text i v = true <->
  forall j, (1 <= j < length v)%nat -> text !! (i + j)%nat = v !! j.
Proof.
  unfold restMatches. rewrite forallb_forall. split.
  - intros H j Hj. eapply bool_decide_eq_true_1, H. apply in_seq. lia.
  - intros H j Hj%in_seq. apply bool_decide_eq_true_2, H. lia.
Qed.

Lemma occursAt_lookup (text : QString) (i : nat) (v : QString) :
  occursAt text i v <->
  forall j, (j < length v)%nat -> text !! (i + j)%nat = v !! j.
Proof.
  unfold occursAt, mid. split.
  - intros H j Hj.
    transitivity (take (length v) (drop i text) !! j); [|by rewrite H].
    by rewrite lookup_take_lt, lookup_drop.
  - intros H. apply list_eq. intros j.
    destruct (decide (j < length v)%nat) as [Hj|Hj].
    + rewrite lookup_take_lt, lookup_drop by done. by apply H.
    + rewrite lookup_take_ge by lia. symmetry. apply lookup_ge_None. lia.
Qed.

Lemma occursAt_fits (text : QString) (i : nat) (v : QString) :
  occursAt text i v -> v <> [] -> (i + length v <= length text)%nat.
Proof.
  intros H Hv. rewrite occursAt_lookup in H.
  destruct (decide (length v = 0)%nat) as [H0|H0].
  { by destruct v. }
  specialize (H (length v - 1)%nat ltac:(lia)).
  assert (is_Some (v !! (length v - 1)%nat)) as [x Hx]
    by (apply lookup_lt_is_Some; lia).
  rewrite Hx in H. apply lookup_lt_Some in H. lia.
Qed.

Lemma firstMatch_Some (st : Emojis) (text : QString) (i : nat)
    (ps : list EmojiPtr) (p : EmojiPtr) :
  firstMatch st text i ps = Some p ->
  p ∈ ps
  /\ (i + valueLength st p <= length text)%nat
  /\ restMatches text i (value (deref st p)) = true.
Proof.
  induction ps as [|q ps IH]; simpl; [done|].
  destruct (_ <? _) eqn:Hfit.
  { intros (? & ? & ?)%IH. split; [by right|done]. }
  destruct (restMatches text i (value (deref st q))) eqn:Hrest.
  - intros [= <-]. split; [by left|]. split; [|done].
    apply Z.ltb_ge in Hfit. unfold valueLength. lia.
  - intros (? & ? & ?)%IH. split; [by right|done].
Qed.

(** With the longer values first, the first match is at least as long as any
    candidate that fits and agrees. *)
Lemma firstMatch_longest (st : Emojis) (text : QString) (i : nat)
    (ps : list EmojiPtr) (q : EmojiPtr) :
  StronglySorted (fun a b => valueLength st b <= valueLength st a)%nat ps ->
  q ∈ ps ->
  (i + valueLength st q <= length text)%nat ->
  restMatches text i (value (deref st q)) = true ->
  exists p, firstMatch st text i ps = Some p
            /\ (valueLength st q <= valueLength st p)%nat.
Proof.
  intros Hsorted Hq Hfit Hrest.
  induction Hsorted as [|a ps Hps IH Ha]; [by apply elem_of_nil in Hq|].
  simpl. destruct (_ <? _) eqn:Hfita.
  - apply elem_of_cons in Hq as [->|Hq]; [|by apply IH].
    apply Z.ltb_lt in Hfita. unfold valueLength in Hfit. lia.
  - destruct (restMatches text i (value (deref st a))) eqn:Hresta.
    + exists a. split; [done|].
      apply elem_of_cons in Hq as [->|Hq]; [done|].
      rewrite Forall_forall in Ha. by apply Ha.
    + apply elem_of_cons in Hq as [->|Hq]; [congruence|by apply IH].
Qed.

Lemma matchAt_Some (st : Emojis) (text : QString) (i : nat) (p : EmojiPtr)
    (len : nat) :
  matchAt st text i = Some (p, len) <->
  exists c ps, text !! i = Some c /\ isLowSurrogate c = false
    /\ emojiFirstByte_ st !! c = Some ps
    /\ firstMatch st text i ps = Some p
    /\ len = valueLength st p /\ len <> 0%nat.
Proof.
  unfold matchAt, valueLength. split.
  - destruct (text !! i) as [c|] eqn:Hc; [|done].
    destruct (isLowSurrogate c) eqn:Hlow; [done|].
    destruct (emojiFirstByte_ st !! c) as [ps|] eqn:Hps; [|done].
    destruct (firstMatch st text i ps) as [q|] eqn:Hfirst; [|done].
    case_decide as Hlen; [done|]. intros [= <- <-].
    exists c, ps. by repeat split.
  - intros (c & ps & -> & -> & -> & -> & -> & Hne).
    by rewrite decide_False.
Qed.

Lemma Indexed_FirstUnit (st : Emojis) : Indexed st -> FirstUnit st.
Proof.
  intros H c ps p Hps Hp.
  destruct (indexed_first _ H c ps p Hps Hp) as (e & He & Hc).
  unfold deref. by rewrite He.
Qed.

Lemma matchAt_occurs (st : Emojis) (text : QString) (i : nat) (p : EmojiPtr)
    (len : nat) :
  FirstUnit st ->
  matchAt st text i = Some (p, len) ->
  len = valueLength st p /\ (0 < len)%nat /\ (i + len <= length text)%nat
  /\ occursAt text i (value (deref st p)).
Proof.
  intros Hfirst (c & ps & Hc & _ & Hps & Hm & -> & Hne)%matchAt_Some.
  apply firstMatch_Some in Hm as (Hp & Hfit & Hrest).
  split; [done|]. split; [lia|]. split; [done|].
  apply occursAt_lookup. intros j Hj.
  destruct (decide (j = 0)%nat) as [->|Hj0].
  - rewrite Nat.add_0_r, Hc. symmetry. by eapply Hfirst.
  - rewrite restMatches_true in Hrest. apply Hrest. lia.
Qed.

Lemma parseLoop_result (st : Emojis) (text : QString) (i last : nat)
    (result : list Span) :
  parseLoop st text i last result = result ++ parseLoop st text i last [].
Proof.
  revert last result. loop_induction text i. intros i Hn last result.
  rewrite (parseLoop_eq st text i last result), (parseLoop_eq st text i last []).
  destruct (decide (i < length text)%nat) as [Hlt|Hge]; [|done].
  destruct (matchAt st text i) as [[p len]|].
  - rewrite (IH (length text - S (i + (len - 1)))%nat ltac:(lia) _ eq_refl _
               (result ++ _)).
    rewrite (IH (length text - S (i + (len - 1)))%nat ltac:(lia) _ eq_refl _
               ([] ++ _)).
    by rewrite <- !app_assoc.
  - by apply (IH (length text - S i)%nat ltac:(lia)).
Qed.

(** An emoji span of the result was matched where it stands. *)
Lemma parseLoop_matched (st : Emojis) (text : QString) (i last : nat)
    (result : list Span) (j : nat) (p : EmojiPtr) :
  SpanEmoji j p ∈ parseLoop st text i last result ->
  SpanEmoji j p ∈ result
  \/ ((i <= j)%nat /\ matchAt st text j = Some (p, valueLength st p)).
Proof.
  revert last result. loop_induction text i. intros i Hn last result.
  rewrite parseLoop_eq.
  destruct (decide (i < length text)%nat) as [Hlt|Hge].
  - destruct (matchAt st text i) as [[q len]|] eqn:Hm.
    + intros [Hin|[Hle Hj]]%(IH (length text - S (i + (len - 1)))%nat ltac:(lia) _ eq_refl).
      * apply elem_of_app in Hin as [Hin|Hin]; [by left|].
        apply elem_of_app in Hin as [Hin|Hin].
        { unfold inbetween in Hin. case_decide; [|by apply elem_of_nil in Hin].
          by apply list_elem_of_singleton in Hin. }
        apply list_elem_of_singleton in Hin as [= -> ->]. right. split; [done|].
        pose proof Hm as (_ & _ & _ & _ & _ & _ & -> & _)%matchAt_Some. done.
      * right. split; [lia|done].
    + intros [Hin|[Hle Hj]]%(IH (length text - S i)%nat ltac:(lia) _ eq_refl).
      * by left.
      * right. split; [lia|done].
  - intros [Hin|Hin]%elem_of_app; [by left|].
    unfold inbetween in Hin. case_decide; [|by apply elem_of_nil in Hin].
    by apply list_elem_of_singleton in Hin.
Qed.

(** Where nothing matches, the loop only flushes the remaining characters. *)
Lemma parseLoop_no_match (st : Emojis) (text : QString) (i last : nat)
    (result : list Span) :
  (forall j, (i <= j)%nat -> matchAt st text j = None) ->
  parseLoop st text i last result = result ++ inbetween last (length text).
Proof.
  revert last result. loop_induction text i. intros i Hn last result Hnone.
  rewrite parseLoop_eq.
  destruct (decide (i < length text)%nat) as [Hlt|Hge]; [|done].
  rewrite (Hnone i) by lia.
  apply (IH (length text - S i)%nat ltac:(lia) _ eq_refl).
  intros j Hj. apply Hnone. lia.
Qed.

(** The first match of the text is in the result. *)
Lemma parseLoop_first_match (st : Emojis) (text : QString) (i0 last : nat)
    (result : list Span) (i : nat) (p : EmojiPtr) (len : nat) :
  (i0 <= i)%nat ->
  (forall j, (i0 <= j < i)%nat -> matchAt st text j = None) ->
  matchAt st text i = Some (p, len) ->
  SpanEmoji i p ∈ parseLoop st text i0 last result.
Proof.
  intros Hle Hnone Hm.
  assert (i < length text)%nat as Hi.
  { apply matchAt_Some in Hm as (c & _ & Hc & _). by eapply lookup_lt_Some. }
  remember (i - i0)%nat as d eqn:Hd. revert i0 Hle Hnone Hd.
  induction d as [|d IH]; intros i0 Hle Hnone Hd.
  - assert (i0 = i) as -> by lia.
    rewrite parseLoop_eq, decide_True, Hm by done.
    rewrite parseLoop_result. apply elem_of_app. left.
    rewrite !elem_of_app. right. right. by apply list_elem_of_singleton.
  - rewrite parseLoop_eq, decide_True by lia.
    rewrite (Hnone i0) by lia. apply IH; [lia| |lia].
    intros j Hj. apply Hnone. lia.
Qed.

(** The spans of the result, put together, are the text. *)
Lemma parseLoop_concat (st : Emojis) (text : QString) (i last : nat)
    (result : list Span) :
  FirstUnit st ->
  (last <= i <= length text)%nat ->
  concat (spanText st text <$> result) = take last text ->
  concat (spanText st text <$> parseLoop st text i last result) = text.
Proof.
  intros Hfirst. revert last result. loop_induction text i.
  intros i Hn last result Hi Hresult.
  rewrite parseLoop_eq.
  destruct (decide (i < length text)%nat) as [Hlt|Hge].
  - destruct (matchAt st text i) as [[p len]|] eqn:Hm.
    + destruct (matchAt_occurs _ _ _ _ _ Hfirst Hm) as (Hlen & Hpos & Hfit & Hocc).
      apply (IH (length text - S (i + (len - 1)))%nat ltac:(lia) _ eq_refl);
        [lia|].
      rewrite !fmap_app, !concat_app, Hresult. simpl. rewrite app_nil_r.
      assert (concat (spanText st text <$> inbetween last i)
              = take (i - last) (drop last text)) as ->.
      { unfold inbetween. case_decide; simpl.
        - by rewrite app_nil_r.
        - by replace (i - last)%nat with 0%nat by lia. }
      rewrite app_assoc, take_take_drop.
      replace (last + (i - last))%nat with i by lia.
      unfold occursAt, mid in Hocc. unfold valueLength in Hlen.
      rewrite <- Hlen in Hocc. rewrite <- Hocc.
      by rewrite take_take_drop.
    + apply (IH (length text - S i)%nat ltac:(lia) _ eq_refl); [lia|done].
  - rewrite fmap_app, concat_app, Hresult.
    unfold inbetween. case_decide; simpl.
    + rewrite app_nil_r. unfold mid. rewrite take_take_drop.
      apply take_ge. lia.
    + rewrite app_nil_r. apply take_ge. lia.
Qed.

(** ** Surrogates *)





(** ** The properties of the scanner *)


Lemma parseSpans_matched (st : Emojis) (text : QString) (i : nat) (p : EmojiPtr) :
  SpanEmoji i p ∈ parseSpans st text ->
  matchAt st text i = Some (p, valueLength st p).
Proof.
  intros [Hin|[_ Hm]]%parseLoop_matched; [by apply elem_of_nil in Hin|done].
Qed.

Lemma matchAt_fits (st : Emojis) (text : QString) (i : nat) (p : EmojiPtr)
    (len : nat) :
  matchAt st text i = Some (p, len) ->
  len = valueLength st p /\ (0 < len)%nat /\ (i + len <= length text)%nat.
Proof.
  intros (c & ps & _ & _ & _ & Hm & -> & Hne)%matchAt_Some.
  apply firstMatch_Some in Hm as (_ & Hfit & _). split; [done|]. lia.
Qed.

Lemma parseLoop_Tiled (st : Emojis) (text : QString) (i last : nat) :
  (last <= i <= length text)%nat ->
  (forall j, (last <= j < i)%nat -> matchAt st text j = None) ->
  Tiled st text last (parseLoop st text i last []).
Proof.
  revert last. loop_induction text i. intros i Hn last Hi Hnone.
  rewrite parseLoop_eq.
  destruct (decide (i < length text)%nat) as [Hlt|Hge].
  - destruct (matchAt st text i) as [[p len]|] eqn:Hm.
    + destruct (matchAt_fits _ _ _ _ _ Hm) as (-> & Hpos & Hfit).
      rewrite parseLoop_result.
      replace (S (i + (valueLength st p - 1))) with (i + valueLength st p)%nat by lia.
      assert (Tiled st text (i + valueLength st p)
                (parseLoop st text (i + valueLength st p) (i + valueLength st p) []))
        as Hrest.
      { apply (IH (length text - (i + valueLength st p))%nat ltac:(lia) _ eq_refl);
          [lia|]. intros j Hj. lia. }
      unfold inbetween. case_decide; simpl.
      * replace (last + (i - last))%nat with i by lia.
        split; [done|]. split; [lia|]. split.
        { intros j Hj. apply Hnone. lia. }
        done.
      * assert (last = i) as -> by lia. done.
    + apply (IH (length text - S i)%nat ltac:(lia) _ eq_refl); [lia|].
      intros j Hj. destruct (decide (j = i)) as [->|Hne]; [done|].
      apply Hnone. lia.
  - simpl. assert (i = length text) as -> by lia.
    unfold inbetween. case_decide; simpl.
    + split; [done|]. split; [lia|]. split; [|split; [done|lia]].
      intros j Hj. apply Hnone. lia.
    + lia.
Qed.

Lemma Tiled_text_no_match (st : Emojis) (text : QString) (pos : nat)
    (spans : list Span) (position n j : nat) :
  Tiled st text pos spans ->
  SpanText position n ∈ spans ->
  (position <= j < position + n)%nat ->
  matchAt st text j = None.
Proof.
  revert pos. induction spans as [|s spans IH]; intros pos Ht Hin Hj.
  - by apply elem_of_nil in Hin.
  - apply elem_of_cons in Hin as [<-|Hin].
    + simpl in Ht. destruct Ht as (-> & _ & Hnone & _). by apply Hnone.
    + destruct s as [p' n'|i' q']; simpl in Ht.
      * destruct Ht as (_ & _ & _ & _ & Ht). by eapply IH.
      * destruct Ht as (_ & _ & Ht). by eapply IH.
Qed.

Lemma Tiled_covers (st : Emojis) (text : QString) (pos : nat)
    (spans : list Span) (i : nat) :
  Tiled st text pos spans ->
  (pos <= i < length text)%nat ->
  (exists position n, SpanText position n ∈ spans
                      /\ (position <= i < position + n)%nat)
  \/ (exists j q, SpanEmoji j q ∈ spans /\ (j <= i < j + valueLength st q)%nat).
Proof.
  revert pos. induction spans as [|s spans IH]; intros pos Ht Hi.
  - simpl in Ht. lia.
  - destruct s as [position n|j q]; simpl in Ht.
    + destruct Ht as (-> & _ & _ & _ & Ht).
      destruct (decide (i < pos + n)%nat) as [Hlt|Hge].
      * left. exists pos, n. split; [apply list_elem_of_here|lia].
      * destruct (IH _ Ht ltac:(lia)) as [(p' & n' & Hin & H)|(j & q & Hin & H)].
        -- left. exists p', n'. split; [by apply list_elem_of_further|done].
        -- right. exists j, q. split; [by apply list_elem_of_further|done].
    + destruct Ht as (-> & _ & Ht).
      destruct (decide (i < pos + valueLength st q)%nat) as [Hlt|Hge].
      * right. exists pos, q. split; [apply list_elem_of_here|lia].
      * destruct (IH _ Ht ltac:(lia)) as [(p' & n' & Hin & H)|(j & q' & Hin & H)].
        -- left. exists p', n'. split; [by apply list_elem_of_further|done].
        -- right. exists j, q'. split; [by apply list_elem_of_further|done].
Qed.

(** C1, as the code has it: after a load every list of candidates is the
    list [loadEmojis] built, sorted by [sortEmojis] with the longer values
    first and values of one length in their order of insertion. Where the
    value A+B of a candidate stands in the text at a position the scan
    matches at, the matched record is a candidate that stands there too and
    whose value is at least as long as A+B: it is never the record of the
    shorter A, and it is the record of A+B itself when every other candidate
    standing there is shorter. The scan does match at that position when
    the unit there is no low surrogate and the position is not inside an
    earlier match. *)
Theorem parse_longest_match (root : Document) (emojiSet : QString) (st : Emojis)
    (text : QString) (i : nat) (c : QChar) (ps : list EmojiPtr)
    (pA pAB : EmojiPtr) (B : QString) :
  load root emojiSet emptyEmojis = Done st ->
  text !! i = Some c ->
  emojiFirstByte_ st !! c = Some ps ->
  pA ∈ ps -> pAB ∈ ps ->
  value (deref st pAB) = value (deref st pA) ++ B -> B <> [] ->
  occursAt text i (value (deref st pAB)) ->
  (exists st1 ps0,
      loadEmojis root emptyEmojis = Done st1
      /\ emojiFirstByte_ st1 !! c = Some ps0
      /\ ps = stable_sort (longerValue st1) ps0
      /\ ps ≡ₚ ps0
      /\ StronglySorted (fun a b => valueLength st b <= valueLength st a)%nat ps
      /\ forall n, filter (fun q => valueLength st1 q = n) ps
                   = filter (fun q => valueLength st1 q = n) ps0)
  /\ (forall p, SpanEmoji i p ∈ parseSpans st text ->
        p ∈ ps
        /\ occursAt text i (value (deref st p))
        /\ (valueLength st pAB <= valueLength st p)%nat
        /\ p <> pA
        /\ ((forall q, q ∈ ps -> occursAt text i (value (deref st q)) ->
               q = pAB \/ (valueLength st q < valueLength st pAB)%nat) ->
            p = pAB))
  /\ (isLowSurrogate c = false ->
      (forall j q, SpanEmoji j q ∈ parseSpans st text ->
         ~ (j < i < j + valueLength st q)%nat) ->
      exists p, SpanEmoji i p ∈ parseSpans st text).
Proof.
  intros Hload Hc Hps HpA HpAB HAB HB Hocc.
  pose proof (Indexed_load _ _ _ _ Hload Indexed_empty) as Hidx.
  pose proof (Indexed_FirstUnit st Hidx) as Hfu.
  pose proof (LongestFirst_load _ _ _ _ Hload c ps Hps) as Hsorted.
  assert (value (deref st pAB) <> []) as Hne.
  { rewrite HAB. intros [_ ?]%app_eq_nil. done. }
  assert (valueLength st pA < valueLength st pAB)%nat as HlenA.
  { unfold valueLength. rewrite HAB, length_app. destruct B; [done|simpl; lia]. }
  destruct (firstMatch_longest st text i ps pAB Hsorted HpAB) as (p0 & Hfirst & Hlong).
  { by apply occursAt_fits. }
  { apply restMatches_true. intros j Hj.
    rewrite occursAt_lookup in Hocc. apply Hocc. lia. }
  split; [|split].
  - destruct (load_Done _ _ _ _ Hload) as (st1 & Hst1 & _ & Hsame).
    rewrite (same_firstByte _ _ Hsame) in Hps.
    destruct (sortEmojis_candidates _ _ _ Hps) as (ps0 & Hps0 & ->).
    exists st1, ps0. repeat (split; [done|]).
    split; [apply (stable_sort_Permutation (valueLength st1))|].
    split; [done|].
    intros n. apply (stable_sort_stable (valueLength st1)).
  - intros p Hp%parseSpans_matched.
    pose proof (matchAt_occurs _ _ _ _ _ Hfu Hp) as (_ & _ & _ & Hoccp).
    apply matchAt_Some in Hp as (c' & ps' & Hc' & _ & Hps' & Hfirst' & _).
    assert (c' = c) as -> by congruence.
    assert (ps' = ps) as -> by congruence.
    assert (p = p0) as -> by congruence.
    apply firstMatch_Some in Hfirst as (Hin & _).
    split; [done|]. split; [done|]. split; [done|]. split.
    + intros ->. lia.
    + intros Huniq. destruct (Huniq p0 Hin Hoccp); [done|lia].
  - intros Hlow Hfree.
    assert (matchAt st text i = Some (p0, valueLength st p0)) as Hm.
    { apply matchAt_Some. exists c, ps. repeat (split; [done|]).
      unfold valueLength in *. destruct (value (deref st pAB)); [done|].
      simpl in Hlong. lia. }
    pose proof (parseLoop_Tiled st text 0 0 ltac:(lia) ltac:(intros; lia)) as Ht.
    fold (parseSpans st text) in Ht.
    destruct (Tiled_covers _ _ _ _ i Ht) as [(pos & n & Hin & Hi)|(j & q & Hin & Hi)].
    + split; [lia|]. by eapply lookup_lt_Some.
    + rewrite (Tiled_text_no_match _ _ _ _ _ _ _ Ht Hin Hi) in Hm. done.
    + destruct (decide (j = i)) as [->|Hne']; [by exists q|].
      exfalso. apply (Hfree j q Hin). lia.
Qed.

(** C1 fails as it is worded: the text is the longest of the three flags,
    which has the value of the second flag (A+B, A being the first) at its
    start, and the scan gives the record of the longest flag there, not the
    record of A+B. *)
Lemma parse_longer_than_both :
  load (Array flagRaws) (qs "Twitter") emptyEmojis = Done flagsLoaded
  /\ emojiFirstByte_ flagsLoaded !! 0xD83C = Some [2; 1; 0]%nat
  /\ value (deref flagsLoaded 0%nat) = [0xD83C; 0xDFF3]
  /\ value (deref flagsLoaded 1%nat) = [0xD83C; 0xDFF3] ++ [0xFE0F]
  /\ occursAt [0xD83C; 0xDFF3; 0xFE0F; 0x200D; 0xD83C; 0xDF08] 0
       (value (deref flagsLoaded 1%nat))
  /\ parseSpans flagsLoaded [0xD83C; 0xDFF3; 0xFE0F; 0x200D; 0xD83C; 0xDF08]
     = [SpanEmoji 0 2]
  /\ value (deref flagsLoaded 2%nat) <> value (deref flagsLoaded 1%nat).
Proof. conjuncts; by vm_compute. Qed.

(** ** Emotes *)

Lemma store_register (emojiData : EmojiData) (st : Emojis) :
  store (stateOf (register emojiData st)) = store st ++ [emojiData].
Proof.
  unfold register, share, indexByValue. rewrite insertShortCodes_foldl.
  by destruct (value emojiData).
Qed.

(** What holds of every record [parseEmoji] returns holds of every record of
    the store after [loadEmojis]. *)
Lemma store_loadEmojis (P : EmojiData -> Prop) (root : Document) (st : Emojis) :
  (forall unparsedEmoji shortCode e,
     parseEmoji newEmojiData unparsedEmoji shortCode = Ok e -> P e) ->
  Forall P (store st) -> Forall P (store (stateOf (loadEmojis root st))).
Proof.
  intros Hparse Hst.
  assert (forall e s, P e -> Forall P (store s) ->
                      Forall P (store (stateOf (register e s)))) as Hreg.
  { intros e s He Hs. rewrite store_register. apply Forall_app. split; [done|].
    by apply Forall_singleton. }
  destruct root as [|entries]; [done|]. simpl.
  apply (forEach_invariant (fun s => Forall P (store s))); [|done].
  clear st Hst. intros unparsedEmoji st Hst. rewrite loadEmoji_register.
  destruct (parseEmoji newEmojiData unparsedEmoji []) as [e|f] eqn:He; [|done].
  specialize (Hreg e st (Hparse _ _ _ He) Hst).
  destruct (register e st) as [st'|st' f]; [|done]. simpl in Hreg.
  destruct (skin_variations unparsedEmoji) as [variations|]; [|done].
  apply (forEach_invariant (fun s => Forall P (store s))); [|done].
  clear st Hst st' Hreg. intros skinVariation st Hst.
  destruct (getToneNames skinVariation.1) as [diags [toneName|f]] eqn:Htone.
  2: { unfold loadVariation. by rewrite Htone. }
  destruct (shortCodes e) as [|shortCode0 rest] eqn:Hsc.
  { unfold loadVariation. by rewrite Htone, Hsc. }
  destruct (parseEmoji newEmojiData skinVariation.2 (shortCode0 ++ qs "_" ++ toneName))
    as [v|f] eqn:Hv.
  2: { unfold loadVariation. by rewrite Htone, Hsc, Hv. }
  erewrite loadVariation_register; [|by rewrite Htone|done|done].
  rewrite store_register. apply Forall_app. split; [done|].
  apply Forall_singleton. by eapply Hparse.
Qed.

Lemma EmoteNamed_setEmoteAt (emojiSet : QString) (entry : QString * EmojiPtr)
    (st : Emojis) :
  EmoteNamed st -> EmoteNamed (stateOf (setEmoteAt emojiSet entry st)).
Proof.
  intros Hst. unfold setEmoteAt.
  destruct (store st !! entry.2) as [e|] eqn:He; [|done].
  destruct (setEmote emojiSet e) as [e'|f] eqn:Hset; [|done].
  intros p e0 em. simpl. intros Hp Hem.
  apply list_lookup_insert_Some in Hp as [(_ & <- & _)|[_ Hp]]; [|by eapply Hst].
  unfold setEmote in Hset. destruct (shortCodes e); [done|].
  injection Hset as <-. simpl in *. by injection Hem as <-.
Qed.

Lemma EmoteNamed_load (root : Document) (emojiSet : QString) :
  EmoteNamed (stateOf (load root emojiSet emptyEmojis)).
Proof.
  assert (Forall (fun e => emote e = None)
            (store (stateOf (loadEmojis root emptyEmojis)))) as Hnone.
  { apply store_loadEmojis; [|done].
    by intros ? ? ? (_ & _ & _ & _ & _ & _ & ?)%parseEmoji_value. }
  assert (EmoteNamed (stateOf (loadEmojis root emptyEmojis))) as Hnamed.
  { intros p e em Hp Hem. rewrite Forall_lookup in Hnone.
    rewrite (Hnone p e Hp) in Hem. done. }
  unfold load. destruct (loadEmojis root emptyEmojis) as [st1|]; [|done].
  simpl in Hnamed. unfold loadEmojiSet.
  apply (forEach_invariant EmoteNamed); [|done].
  intros. by apply EmoteNamed_setEmoteAt.
Qed.

(** C10: after a load, the pieces of text and the values of the matched
    records, in the order of the result of [parse], are the input again; an
    emote of the result is named by the value of its record; the empty input
    gives the empty result, and an input in which the value of no record
    stands gives itself as the one element. *)
Theorem parse_partitions_text (root : Document) (emojiSet : QString)
    (st : Emojis) (text : QString) :
  load root emojiSet emptyEmojis = Done st ->
  parse st text = pushed st text <$> parseSpans st text
  /\ concat (spanText st text <$> parseSpans st text) = text
  /\ (forall s em, s ∈ parseSpans st text -> pushed st text s = inl (Some em) ->
        emote_name em = spanText st text s)
  /\ (forall s t, s ∈ parseSpans st text -> pushed st text s = inr t ->
        t = spanText st text s)
  /\ parse st [] = []
  /\ ((forall p e j, store st !! p = Some e -> ~ occursAt text j (value e)) ->
      text <> [] -> parse st text = [inr text]).
Proof.
  intros Hload.
  pose proof (Indexed_load _ _ _ _ Hload Indexed_empty) as Hidx.
  pose proof (EmoteNamed_load root emojiSet) as Hnamed.
  rewrite Hload in Hnamed. simpl in Hnamed.
  pose proof (Indexed_FirstUnit st Hidx) as Hfu.
  conjuncts.
  - done.
  - apply parseLoop_concat; [done|simpl; lia|done].
  - intros [pos n|i p] em Hs; simpl; [done|]. intros [= Hem].
    apply parseSpans_matched in Hs.
    apply matchAt_Some in Hs as (c & ps & _ & _ & Hps & Hfirst & _).
    apply firstMatch_Some in Hfirst as (Hp & _).
    destruct (indexed_first _ Hidx c ps p Hps Hp) as (e & He & _).
    unfold deref in *. rewrite He in *. simpl in *. by eapply Hnamed.
  - intros [pos n|i p] t Hs; simpl; [|done]. by intros [= <-].
  - unfold parse, parseSpans. by rewrite parseLoop_eq.
  - intros Hfree Hne. unfold parse, parseSpans.
    rewrite parseLoop_no_match.
    + unfold inbetween. rewrite decide_True by (destruct text; [done|simpl; lia]).
      simpl. unfold mid. rewrite drop_0, Nat.sub_0_r. by rewrite firstn_all.
    + intros j _. destruct (matchAt st text j) as [[p len]|] eqn:Hm; [|done].
      exfalso.
      pose proof (matchAt_occurs _ _ _ _ _ Hfu Hm) as (_ & _ & _ & Hocc).
      apply matchAt_Some in Hm as (c & ps & _ & _ & Hps & Hfirst & _).
      apply firstMatch_Some in Hfirst as (Hp & _).
      destruct (indexed_first _ Hidx c ps p Hps Hp) as (e & He & _).
      apply (Hfree p e j He). unfold deref in Hocc. by rewrite He in Hocc.
Qed.

Lemma parse_partitions_text_witness :
  concat (spanText smileEngine smileText <$> parseSpans smileEngine smileText)
  = smileText.
Proof.
  pose proof (parse_partitions_text (Array [smileRaw]) (qs "Twitter")
                smileEngine smileText) as H.
  destruct H as (_ & H & _); [vm_compute; reflexivity|].
  exact H.
Defined.


Lemma parse_longest_match_witness :
  exists p, SpanEmoji 3 p ∈ parseSpans flagsLoaded ([0xD83C; 0xDFF3] ++ flagText).
Proof.
  pose proof (parse_longest_match (Array flagRaws) (qs "Twitter") flagsLoaded
                ([0xD83C; 0xDFF3] ++ flagText) 3 0xD83C [2; 1; 0]%nat
                0%nat 1%nat [0xFE0F]) as H.
  destruct H as (_ & _ & H).
  - vm_compute. reflexivity.
  - reflexivity.
  - vm_compute. reflexivity.
  - do 2 apply list_elem_of_further. apply list_elem_of_here.
  - apply list_elem_of_further, list_elem_of_here.
  - vm_compute. reflexivity.
  - discriminate.
  - vm_compute. reflexivity.
  - apply H; [reflexivity|].
    assert (parseSpans flagsLoaded ([0xD83C; 0xDFF3] ++ flagText)
            = [SpanEmoji 0 0; SpanText 2 1; SpanEmoji 3 1; SpanText 6 1]) as ->
      by (vm_compute; reflexivity).
    assert (valueLength flagsLoaded 0 = 2%nat) as H0 by (vm_compute; reflexivity).
    assert (valueLength flagsLoaded 1 = 3%nat) as H1 by (vm_compute; reflexivity).
    intros j q Hin.
    apply elem_of_cons in Hin as [[= -> ->]|Hin]; [rewrite H0; lia|].
    apply elem_of_cons in Hin as [[=]|Hin].
    apply elem_of_cons in Hin as [[= -> ->]|Hin]; [rewrite H1; lia|].
    apply elem_of_cons in Hin as [[=]|Hin].
    apply elem_of_nil in Hin. destruct Hin.
Defined.

(** ** Shortcode tokens *)

Lemma globalMatchFrom_eq (text : QString) (pos : nat) :
  globalMatchFrom text pos =
    if decide (pos < length text)%nat then
      match tokenAt text pos with
      | None => globalMatchFrom text (S pos)
      | Some run => (pos, run + 2)%nat :: globalMatchFrom text (pos + (run + 2))
      end
    else [].
Proof.
  rewrite globalMatchFrom_equation_1.
  destruct (decide (pos < length text)%nat) as [Hlt|Hge].
  - rewrite globalMatchFrom_clause_1_equation_1.
    destruct (tokenAt text pos) as [run|].
    + by rewrite globalMatchFrom_clause_1_clause_2_equation_1.
    + by rewrite globalMatchFrom_clause_1_clause_2_equation_2.
  - by rewrite globalMatchFrom_clause_1_equation_2.
Qed.

Lemma runLength_le (l : QString) : (runLength l <= length l)%nat.
Proof.
  induction l as [|c l IH]; simpl; [lia|].
  destruct (isShortCodeChar c); simpl; lia.
Qed.

Lemma runLength_take (l : QString) :
  Forall (fun c => isShortCodeChar c = true) (take (runLength l) l).
Proof.
  induction l as [|c l IH]; simpl; [constructor|].
  destruct (isShortCodeChar c) eqn:E; simpl; [by constructor|constructor].
Qed.

Lemma runLength_stop (w : QString) (c : QChar) (rest : QString) :
  Forall (fun c => isShortCodeChar c = true) w ->
  isShortCodeChar c = false ->
  runLength (w ++ c :: rest) = length w.
Proof.
  intros Hw Hc. induction Hw as [|x w Hx _ IH]; simpl.
  - by rewrite Hc.
  - by rewrite Hx, IH.
Qed.

Lemma tokenAt_Some (text : QString) (pos run : nat) :
  tokenAt text pos = Some run <->
  text !! pos = Some 58
  /\ run = runLength (drop (S pos) text)
  /\ run <> 0%nat
  /\ text !! (S pos + run)%nat = Some 58.
Proof.
  unfold tokenAt. split.
  - destruct (text !! pos) as [c|] eqn:Hc; [|done].
    destruct (decide (c = 58)) as [->|Hne].
    2: { destruct c as [|c|c]; try done. do 6 (destruct c as [c|c|]; try done). }
    destruct (runLength (drop (S pos) text)) as [|r] eqn:Hr; [done|].
    destruct (text !! (S pos + S r)%nat) as [c|] eqn:Hc'; [|done].
    destruct (decide (c = 58)) as [->|Hne].
    2: { destruct c as [|c|c]; try done. do 6 (destruct c as [c|c|]; try done). }
    intros [= <-]. done.
  - intros (-> & -> & Hne & Hc).
    destruct (runLength (drop (S pos) text)) as [|r]; [done|]. by rewrite Hc.
Qed.

(** A match of the pattern is a token that stands in the text. *)
Lemma tokenAt_token (text : QString) (pos run : nat) :
  tokenAt text pos = Some run ->
  let w := mid text (S pos) run in
  length w = run /\ isShortCode w /\ occursAt text pos (token w)
  /\ (pos + (run + 2) <= length text)%nat.
Proof.
  intros (Hpos & Hrun & Hne & Hend)%tokenAt_Some. simpl.
  assert (S pos + run < length text)%nat as Hlt by (by eapply lookup_lt_Some).
  assert (length (mid text (S pos) run) = run) as Hlen.
  { unfold mid. rewrite length_take, length_drop. lia. }
  split; [done|]. split; [|split; [|lia]].
  - split; [intros H; rewrite H in Hlen; simpl in Hlen; lia|].
    unfold mid. rewrite Hrun. apply runLength_take.
  - apply occursAt_lookup. unfold token. simpl. rewrite length_app, Hlen. simpl.
    intros j Hj. destruct j as [|j]; simpl.
    + by rewrite Nat.add_0_r.
    + destruct (decide (j < run)%nat) as [Hjr|Hjr].
      * rewrite lookup_app_l by lia. unfold mid.
        rewrite lookup_take_lt, lookup_drop by lia. f_equal. lia.
      * rewrite lookup_app_r by lia. rewrite Hlen.
        replace (j - run)%nat with 0%nat by lia. simpl.
        rewrite <- Hend. f_equal. lia.
Qed.

Lemma colon_no_shortCodeChar : isShortCodeChar 58 = false.
Proof. reflexivity. Qed.

(** The pattern matches the whole of a token. *)
Lemma tokenAt_whole (w : QString) :
  isShortCode w -> tokenAt (token w) 0 = Some (length w).
Proof.
  intros [Hne Hw]. apply tokenAt_Some. unfold token. simpl.
  rewrite drop_0, (runLength_stop w 58 [] Hw colon_no_shortCodeChar).
  split; [done|]. split; [done|]. split; [by destruct w|].
  rewrite lookup_app_r by lia. by rewrite Nat.sub_diag.
Qed.

Lemma globalMatch_token (w : QString) :
  isShortCode w -> globalMatch (token w) = [(0, length w + 2)%nat].
Proof.
  intros Hw. unfold globalMatch.
  rewrite globalMatchFrom_eq, decide_True by (simpl; lia).
  rewrite (tokenAt_whole w Hw). f_equal.
  rewrite globalMatchFrom_eq, decide_False; [done|].
  unfold token. simpl. rewrite length_app. simpl. lia.
Qed.

Lemma QChar_toLower_class (c : QChar) :
  isShortCodeChar (QChar_toLower c) = isShortCodeChar c.
Proof.
  unfold QChar_toLower.
  destruct ((65 <=? c) && (c <=? 90)) eqn:E; [|done].
  unfold isShortCodeChar. rewrite E.
  apply andb_true_iff in E as [E1%Z.leb_le E2%Z.leb_le].
  replace ((97 <=? c + 32) && (c + 32 <=? 122)) with true
    by (symmetry; apply andb_true_iff; split; apply Z.leb_le; lia).
  by rewrite orb_true_r.
Qed.

Lemma toLower_isShortCode (w : QString) :
  isShortCode (toLower w) <-> isShortCode w.
Proof.
  unfold isShortCode, toLower. rewrite Forall_fmap.
  split; intros [Hne Hall]; (split; [by destruct w|]);
    (eapply Forall_impl; [exact Hall|]); simpl; intros c;
    by rewrite QChar_toLower_class.
Qed.

Lemma toLower_token (w : QString) : toLower (token w) = token (toLower w).
Proof. unfold token, toLower. simpl. by rewrite fmap_app. Qed.

Lemma matchKey_token (w : QString) :
  matchKey (token w) (0, length w + 2)%nat = toLower w.
Proof.
  unfold matchKey, mid. cbn [fst snd]. rewrite drop_0.
  assert (length (token w) = length w + 2)%nat as Hl
    by (unfold token; simpl; rewrite length_app; simpl; lia).
  rewrite (take_ge (token w)) by lia. rewrite toLower_token, Hl. unfold token.
  cbn [drop]. replace (length w + 2 - 2)%nat with (length (toLower w))
    by (unfold toLower; rewrite length_fmap; lia).
  apply take_app_length.
Qed.

Lemma replaceStep_key (st : Emojis) (text : QString) (ret : QString) (offset : Z)
    (m : nat * nat) :
  replaceStep st text (ret, offset) m =
    match emojiShortCodeToEmoji_ st !! matchKey text m with
    | None => (ret, offset)
    | Some emojiData =>
        let v := value (deref st emojiData) in
        (replace ret (offset + Z.of_nat m.1) (Z.of_nat m.2) v,
         offset + (Z.of_nat (length v) - Z.of_nat m.2))
    end.
Proof. by destruct m. Qed.

Lemma replace_middle (a b c v : QString) :
  replace (a ++ b ++ c) (Z.of_nat (length a)) (Z.of_nat (length b)) v
  = a ++ v ++ c.
Proof.
  unfold replace. rewrite !length_app.
  destruct (_ || _) eqn:E.
  { apply orb_true_iff in E as [E|E]; apply Z.ltb_lt in E; lia. }
  rewrite Z.min_l by lia. rewrite Nat2Z.id, take_app_length.
  replace (Z.to_nat (Z.of_nat (length a) + Z.of_nat (length b)))
    with (length a + length b)%nat by lia.
  rewrite drop_app_add, drop_app_length. done.
Qed.

Lemma replaceShortCodes_token (st : Emojis) (w : QString) :
  isShortCode w ->
  replaceShortCodes st (token w) =
    match emojiShortCodeToEmoji_ st !! toLower w with
    | Some p => value (deref st p)
    | None => token w
    end.
Proof.
  intros Hw. unfold replaceShortCodes. rewrite (globalMatch_token w Hw).
  cbn [foldl]. rewrite replaceStep_key, matchKey_token.
  destruct (emojiShortCodeToEmoji_ st !! toLower w) as [p|]; [|done].
  cbn [fst snd].
  assert (length (token w) = length w + 2)%nat as Hl
    by (unfold token; simpl; rewrite length_app; simpl; lia).
  rewrite <- Hl.
  pose proof (replace_middle [] (token w) [] (value (deref st p))) as H.
  rewrite app_nil_r in H. simpl in H. rewrite app_nil_r in H. exact H.
Qed.

(** ** Substitution *)

Lemma Placed_weaken (text : QString) (q q' : nat) (ms : list (nat * nat)) :
  (q' <= q)%nat -> Placed text q ms -> Placed text q' ms.
Proof.
  intros Hq H. destruct H as [|q s run rest Hs Htok Hrest]; [constructor|].
  constructor; [lia|done..].
Qed.

Lemma globalMatchFrom_Placed (text : QString) (pos : nat) :
  Placed text pos (globalMatchFrom text pos).
Proof.
  loop_induction text pos. intros pos Hn. rewrite globalMatchFrom_eq.
  destruct (decide (pos < length text)%nat) as [Hlt|Hge]; [|constructor].
  destruct (tokenAt text pos) as [run|] eqn:Htok.
  - constructor; [lia|done|].
    by apply (IH (length text - (pos + (run + 2)))%nat ltac:(lia)).
  - apply (Placed_weaken text (S pos)); [lia|].
    by apply (IH (length text - S pos)%nat ltac:(lia)).
Qed.

Lemma drop_split (text : QString) (q s n : nat) :
  (q <= s)%nat -> (s + n <= length text)%nat ->
  drop q text = mid text q (s - q) ++ mid text s n ++ drop (s + n) text
  /\ length (mid text q (s - q)) = (s - q)%nat
  /\ length (mid text s n) = n.
Proof.
  intros Hq Hs. unfold mid. split; [|split].
  - rewrite <- (take_drop (s - q) (drop q text)) at 1. f_equal.
    rewrite drop_drop. replace (q + (s - q))%nat with s by lia.
    rewrite <- (take_drop n (drop s text)) at 1. f_equal.
    by rewrite drop_drop.
  - rewrite length_take, length_drop. lia.
  - rewrite length_take, length_drop. lia.
Qed.

Lemma replaceShortCodes_fold (st : Emojis) (text : QString) (q : nat)
    (ms : list (nat * nat)) (out ret : QString) (offset : Z) :
  Placed text q ms ->
  ret = out ++ drop q text ->
  offset = Z.of_nat (length out) - Z.of_nat q ->
  (foldl (replaceStep st text) (ret, offset) ms).1
  = out ++ substituteFrom st text q ms.
Proof.
  intros Hms. revert out ret offset.
  induction Hms as [q|q s run rest Hq Htok Hrest IH]; intros out ret offset Hret Hoff.
  - done.
  - pose proof (tokenAt_token _ _ _ Htok) as (_ & _ & _ & Hfit).
    destruct (drop_split text q s (run + 2) Hq Hfit) as (Hsplit & Hl1 & Hl2).
    cbn [foldl substituteFrom fst snd]. rewrite replaceStep_key. cbn [fst snd].
    destruct (emojiShortCodeToEmoji_ st !! matchKey text (s, (run + 2)%nat)) as [p|].
    + cbn zeta. rewrite (IH (out ++ mid text q (s - q) ++ value (deref st p))).
      * by rewrite <- !app_assoc.
      * rewrite Hret, Hsplit.
        pose proof (replace_middle (out ++ mid text q (s - q))
                      (mid text s (run + 2)) (drop (s + (run + 2)) text)
                      (value (deref st p))) as H.
        rewrite Hl2, length_app, Hl1, <- !app_assoc in H.
        replace (offset + Z.of_nat s)
          with (Z.of_nat (length out + (s - q))) by lia.
        rewrite H. by rewrite <- !app_assoc.
      * rewrite !length_app, Hl1. lia.
    + rewrite (IH (out ++ mid text q (s - q) ++ mid text s (run + 2))).
      * by rewrite <- !app_assoc.
      * rewrite Hret, Hsplit. by rewrite <- !app_assoc.
      * rewrite !length_app, Hl1, Hl2. lia.
Qed.

(** The loop of [replaceShortCodes], with its offset into the text it
    changes, does what the design document words. *)
Lemma replaceShortCodes_spec (st : Emojis) (text : QString) :
  replaceShortCodes st text = specSubstitute st text.
Proof.
  unfold replaceShortCodes, specSubstitute, globalMatch.
  by rewrite (replaceShortCodes_fold st text 0 _ [] text 0
                (globalMatchFrom_Placed text 0)).
Qed.

Lemma matchKey_occurs (text : QString) (s : nat) (w : QString) :
  occursAt text s (token w) ->
  matchKey text (s, length w + 2)%nat = toLower w.
Proof.
  intros Hocc. rewrite <- (matchKey_token w). unfold matchKey. cbn [fst snd].
  assert (length (token w) = length w + 2)%nat as Hl
    by (unfold token; simpl; rewrite length_app; simpl; lia).
  unfold occursAt in Hocc. rewrite Hl in Hocc. rewrite Hocc.
  unfold mid at 3 4. rewrite drop_0, take_ge by lia. done.
Qed.

(** Where no match is a known shortcode, nothing changes. *)
Lemma substituteFrom_unknown (st : Emojis) (text : QString) (q : nat)
    (ms : list (nat * nat)) :
  Placed text q ms ->
  (forall m, m ∈ ms -> emojiShortCodeToEmoji_ st !! matchKey text m = None) ->
  substituteFrom st text q ms = drop q text.
Proof.
  induction 1 as [q|q s run rest Hq Htok Hrest IH]; intros Hnone; [done|].
  pose proof (tokenAt_token _ _ _ Htok) as (_ & _ & _ & Hfit).
  destruct (drop_split text q s (run + 2) Hq Hfit) as (Hsplit & _ & _).
  cbn [substituteFrom fst snd]. rewrite (Hnone (s, (run + 2)%nat)) by left.
  rewrite IH; [by rewrite Hsplit|]. intros m Hm. apply Hnone. by right.
Qed.

Lemma Placed_tokens (text : QString) (q : nat) (ms : list (nat * nat))
    (m : nat * nat) :
  Placed text q ms -> m ∈ ms ->
  exists w, isShortCode w /\ occursAt text m.1 (token w)
            /\ m.2 = (length w + 2)%nat /\ matchKey text m = toLower w.
Proof.
  induction 1 as [q|q s run rest Hq Htok Hrest IH]; intros Hm.
  - by apply elem_of_nil in Hm.
  - apply elem_of_cons in Hm as [->|Hm]; [|by apply IH].
    pose proof (tokenAt_token _ _ _ Htok) as (Hlen & Hw & Hocc & _).
    exists (mid text (S s) run). cbn [fst snd]. rewrite Hlen.
    split; [done|]. split; [done|]. split; [done|].
    rewrite <- Hlen at 1. by apply matchKey_occurs.
Qed.

Lemma replaceShortCodes_offset (st : Emojis) (text : QString)
    (ms : list (nat * nat)) (ret : QString) (offset : Z) :
  (foldl (replaceStep st text) (ret, offset) ms).2
  = offset + sumZ (lengthDifference st text <$> ms).
Proof.
  revert ret offset. induction ms as [|m ms IH]; intros ret offset.
  - simpl. lia.
  - cbn [foldl]. rewrite fmap_cons. cbn [sumZ].
    rewrite replaceStep_key. unfold lengthDifference at 1.
    destruct (emojiShortCodeToEmoji_ st !! matchKey text m) as [p|];
      cbn zeta; rewrite IH; lia.
Qed.

(** C4, as the code has it: for a name of the index that is a shortcode of
    the pattern (one or more letters, digits, '_', '+', '-') in lower case,
    [replaceShortCodes] turns the token ":name:" into the value of the record
    the index has for it; a token whose inner text, in lower case, is not in
    the index stays as it is. On any text the result is the text with each
    match of a known shortcode replaced by the value and everything else
    kept, and each replacement is made at the start of the match plus the
    sum of the length differences of the replacements before it. *)
Theorem replaceShortCodes_tokens (st : Emojis) (text : QString) :
  (forall name p,
      emojiShortCodeToEmoji_ st !! name = Some p ->
      isShortCode name -> toLower name = name ->
      replaceShortCodes st (token name) = value (deref st p))
  /\ (forall name,
        isShortCode name ->
        emojiShortCodeToEmoji_ st !! toLower name = None ->
        replaceShortCodes st (token name) = token name)
  /\ replaceShortCodes st text = specSubstitute st text
  /\ (forall ms1 m ms2 p,
        globalMatch text = ms1 ++ m :: ms2 ->
        emojiShortCodeToEmoji_ st !! matchKey text m = Some p ->
        let before := foldl (replaceStep st text) (text, 0) ms1 in
        before.2 = sumZ (lengthDifference st text <$> ms1)
        /\ foldl (replaceStep st text) (text, 0) (ms1 ++ [m])
           = (replace before.1 (before.2 + Z.of_nat m.1) (Z.of_nat m.2)
                (value (deref st p)),
              before.2 + lengthDifference st text m))
  /\ replaceShortCodes smileEngine (qs "hi :smile: there") = smileText.
Proof.
  conjuncts.
  - intros name p Hp Hname Hlow.
    by rewrite (replaceShortCodes_token st name Hname), Hlow, Hp.
  - intros name Hname Hnone.
    by rewrite (replaceShortCodes_token st name Hname), Hnone.
  - apply replaceShortCodes_spec.
  - intros ms1 m ms2 p Hms Hp. cbn zeta. split.
    + rewrite replaceShortCodes_offset. lia.
    + rewrite foldl_app. cbn [foldl].
      destruct (foldl (replaceStep st text) (text, 0) ms1) as [ret offset].
      rewrite replaceStep_key. unfold lengthDifference. rewrite Hp. done.
  - vm_compute. reflexivity.
Qed.

(** C4 fails for a name of the index with a capital: the token is looked up
    in lower case and stays. *)
Lemma replaceShortCodes_capital_name :
  emojiShortCodeToEmoji_ capitalEngine !! qs "Smile" = Some 0%nat
  /\ value (deref capitalEngine 0%nat) = [0xD83D; 0xDE04]
  /\ replaceShortCodes capitalEngine (token (qs "Smile")) = token (qs "Smile")
  /\ replaceShortCodes capitalEngine (token (qs "Smile"))
     <> value (deref capitalEngine 0%nat).
Proof. conjuncts; by vm_compute. Qed.

(** C8, as the code has it: after a load the index has every short name of
    every record as the dataset spells it, for a record that carries it;
    the lookup is by the lower-case form of the token's inner text, so for a
    name of the index that is a shortcode of the pattern in lower case,
    every spelling of it in other cases is replaced by the value of the
    record the index has for the name. *)
Theorem replaceShortCodes_any_case (root : Document) (emojiSet : QString)
    (st : Emojis) :
  load root emojiSet emptyEmojis = Done st ->
  (forall p e s, store st !! p = Some e -> s ∈ shortCodes e ->
     exists q, emojiShortCodeToEmoji_ st !! s = Some q
               /\ s ∈ shortCodes (deref st q))
  /\ (forall s q v,
        emojiShortCodeToEmoji_ st !! s = Some q ->
        isShortCode s -> toLower s = s -> toLower v = s ->
        replaceShortCodes st (token v) = value (deref st q)).
Proof.
  intros Hload.
  pose proof (Indexed_load _ _ _ _ Hload Indexed_empty) as Hidx. split.
  - intros p e s He Hs.
    destruct (indexed_all _ Hidx p e s He Hs) as [q Hq].
    exists q. split; [done|].
    destruct (indexed_shortCode _ Hidx s q Hq) as (e' & He' & Hs').
    unfold deref. by rewrite He'.
  - intros s q v Hq Hs Hlow Hv.
    assert (isShortCode v) as Hvs by (apply toLower_isShortCode; by rewrite Hv).
    by rewrite (replaceShortCodes_token st v Hvs), Hv, Hq.
Qed.

(** C8 fails for a short name with a capital: the index has it as it is
    spelt, not in lower case, and no spelling of it is replaced. *)
Lemma replaceShortCodes_index_verbatim :
  load (Array [capitalRaw]) (qs "Twitter") emptyEmojis = Done capitalEngine
  /\ emojiShortCodeToEmoji_ capitalEngine !! qs "Smile" = Some 0%nat
  /\ emojiShortCodeToEmoji_ capitalEngine !! toLower (qs "Smile") = None
  /\ replaceShortCodes capitalEngine (token (qs "Smile")) = token (qs "Smile")
  /\ replaceShortCodes capitalEngine (token (qs "smile")) = token (qs "smile")
  /\ replaceShortCodes capitalEngine (token (qs "SMILE")) = token (qs "SMILE").
Proof. conjuncts; by vm_compute. Qed.

Lemma replaceShortCodes_any_case_witness :
  replaceShortCodes smileEngine (token (qs "SmIlE"))
  = value (deref smileEngine 0%nat).
Proof.
  pose proof (replaceShortCodes_any_case (Array [smileRaw]) (qs "Twitter")
                smileEngine) as H.
  destruct H as (_ & H); [vm_compute; reflexivity|].
  apply (H (qs "smile")).
  - vm_compute. reflexivity.
  - split; [discriminate|]. repeat constructor.
  - reflexivity.
  - reflexivity.
Defined.

(** C9: when the substituted text has no token of a known shortcode left,
    substituting again changes nothing. *)
Theorem replaceShortCodes_idempotent (st : Emojis) (x : QString) :
  (forall i w, isShortCode w ->
     occursAt (replaceShortCodes st x) i (token w) ->
     emojiShortCodeToEmoji_ st !! toLower w = None) ->
  replaceShortCodes st (replaceShortCodes st x) = replaceShortCodes st x.
Proof.
  intros Hnone. set (y := replaceShortCodes st x) in *.
  rewrite replaceShortCodes_spec. unfold specSubstitute, globalMatch.
  rewrite (substituteFrom_unknown st y 0 _ (globalMatchFrom_Placed y 0)).
  - apply drop_0.
  - intros m Hm.
    destruct (Placed_tokens y 0 _ m (globalMatchFrom_Placed y 0) Hm)
      as (w & Hw & Hocc & _ & ->).
    by eapply Hnone.
Qed.

Lemma replaceShortCodes_idempotent_witness :
  replaceShortCodes smileEngine
    (replaceShortCodes smileEngine (qs "hi :smile: there"))
  = replaceShortCodes smileEngine (qs "hi :smile: there").
Proof.
  apply replaceShortCodes_idempotent.
  intros i w Hw Hocc. exfalso.
  rewrite occursAt_lookup in Hocc.
  specialize (Hocc 0%nat ltac:(simpl; lia)). simpl in Hocc.
  apply list_elem_of_lookup_2 in Hocc. vm_compute in Hocc.
  repeat (apply elem_of_cons in Hocc as [Hocc|Hocc]; [discriminate Hocc|]).
  by apply elem_of_nil in Hocc.
Defined.

(** * Further properties *)

(** ** The loader, as a whole *)

Lemma Consistent_registered (emojiData : EmojiData) (c : QChar) (v : QString)
    (st : Emojis) :
  value emojiData = c :: v ->
  Indexed st /\ Consistent st ->
  Indexed (registered emojiData c st) /\ Consistent (registered emojiData c st).
Proof.
  intros Hv [Hidx [H1 H2 H3 H4]]. split; [by eapply Indexed_registered|].
  split; simpl.
  - intros k p. destruct (decide (k = unifiedCode emojiData)) as [->|Hne].
    + rewrite lookup_insert_eq. intros [= <-]. exists emojiData.
      split; [|done]. rewrite lookup_app_r by lia. by rewrite Nat.sub_diag.
    + rewrite lookup_insert_ne by done. intros Hk.
      destruct (H1 _ _ Hk) as (e & He & Hu). exists e.
      split; [by apply lookup_app_l_Some|done].
  - intros p e [He|[_ He]]%lookup_app_Some.
    + destruct (decide (unifiedCode e = unifiedCode emojiData)) as [->|Hne].
      * by rewrite lookup_insert_eq.
      * rewrite lookup_insert_ne by done. by eapply H2.
    + apply list_lookup_singleton_Some in He as [_ <-]. by rewrite lookup_insert_eq.
  - intros p e [He|[Hp He]]%lookup_app_Some.
    + destruct (H3 _ _ He) as (c' & ps & Hc' & Hps & Hin).
      exists c'. destruct (decide (c' = c)) as [->|Hne].
      * eexists. split; [done|]. rewrite lookup_insert_eq. split; [done|].
        rewrite Hps. simpl. apply elem_of_app. by left.
      * exists ps. by rewrite lookup_insert_ne.
    + apply list_lookup_singleton_Some in He as [Hp' <-].
      exists c. eexists. split; [by rewrite Hv|].
      rewrite lookup_insert_eq. split; [done|].
      apply elem_of_app. right. apply list_elem_of_singleton. lia.
  - intros c' ps. destruct (decide (c' = c)) as [->|Hne].
    + rewrite lookup_insert_eq. intros [= <-].
      apply NoDup_app. split; [|split].
      * destruct (emojiFirstByte_ st !! c) as [ps|] eqn:E; simpl; [by eapply H4|].
        constructor.
      * intros p Hp Hp'. apply list_elem_of_singleton in Hp' as ->.
        destruct (emojiFirstByte_ st !! c) as [ps|] eqn:E; simpl in Hp;
          [|by apply elem_of_nil in Hp].
        destruct (indexed_first _ Hidx c ps _ E Hp) as (e & He & _).
        apply lookup_lt_Some in He. lia.
      * apply NoDup_singleton.
    + rewrite lookup_insert_ne by done. by apply H4.
Qed.

Lemma Consistent_empty : Consistent emptyEmojis.
Proof.
  split; simpl; intros *; rewrite ?lookup_nil, ?lookup_empty; done.
Qed.

Lemma Consistent_loadEmojis (root : Document) (st st' : Emojis) :
  loadEmojis root st = Done st' ->
  Indexed st /\ Consistent st -> Indexed st' /\ Consistent st'.
Proof.
  intros Hrun Hst. revert Hst Hrun.
  apply (loadEmojis_completed (fun s => Indexed s /\ Consistent s)).
  - intros ds s [Hi [H1 H2 H3 H4]]. split; [by apply Indexed_writeLog|].
    by split.
  - intros raw sc e c v s _ Hv Hs. by eapply Consistent_registered.
Qed.

Lemma Consistent_sortEmojis (st : Emojis) : Consistent st -> Consistent (sortEmojis st).
Proof.
  intros [H1 H2 H3 H4]. split; simpl; [done|done| |].
  - intros p e He. destruct (H3 p e He) as (c & ps & Hc & Hps & Hp).
    exists c, (stable_sort (longerValue st) ps). split; [done|].
    rewrite lookup_fmap, Hps. split; [done|].
    by rewrite (stable_sort_Permutation (valueLength st)).
  - intros c ps (ps0 & Hps0 & ->)%sortEmojis_candidates.
    rewrite (stable_sort_Permutation (valueLength st)). by eapply H4.
Qed.

Lemma Consistent_SameData (st st' : Emojis) :
  SameData st st' -> Consistent st -> Consistent st'.
Proof.
  intros Hsame [H1 H2 H3 H4].
  pose proof Hsame as [_ Hem _ _ Hfb _]. split.
  - intros k p. rewrite Hem. intros Hk.
    destruct (H1 _ _ Hk) as (e & He & Hu).
    destruct (SameData_lookup_inv _ _ _ _ Hsame He) as (e' & He' & Hee).
    apply stripEmote_fields in Hee as (_ & Hu' & _).
    exists e'. split; [done|congruence].
  - intros p e' (e & He & Hee)%(SameData_lookup st); [|done].
    apply stripEmote_fields in Hee as (_ & Hu' & _).
    rewrite Hem, <- Hu'. by eapply H2.
  - intros p e' (e & He & Hee)%(SameData_lookup st); [|done].
    apply stripEmote_fields in Hee as (_ & _ & Hv & _).
    rewrite Hfb, <- Hv. by eapply H3.
  - intros c ps. rewrite Hfb. by apply H4.
Qed.

Lemma Consistent_load (root : Document) (emojiSet : QString) (st : Emojis) :
  load root emojiSet emptyEmojis = Done st -> Indexed st /\ Consistent st.
Proof.
  intros (st1 & Hst1 & _ & Hsame)%load_Done.
  destruct (Consistent_loadEmojis _ _ _ Hst1 (conj Indexed_empty Consistent_empty))
    as [Hi Hc].
  split.
  - eapply Indexed_SameData; [done|]. by apply Indexed_sortEmojis.
  - eapply Consistent_SameData; [done|]. by apply Consistent_sortEmojis.
Qed.

(** After a [load] that returns, no pointer of a map dangles and every
    record of the store is reached from each map: the value of a record is
    not empty, a candidate is a record whose value begins with its unit and
    no list of candidates has a pointer twice, a shortcode leads to a record
    that carries it, a unified code to a record that has it; and every
    record is a candidate of its first unit, has its unified code in
    [emojis] and its shortcodes in the shortcode map. *)
Theorem load_indexes_consistent (root : Document) (emojiSet : QString)
    (st : Emojis) :
  load root emojiSet emptyEmojis = Done st -> Indexed st /\ Consistent st.
Proof. apply Consistent_load. Qed.

Lemma load_indexes_consistent_witness : Indexed waveEngine /\ Consistent waveEngine.
Proof.
  apply (load_indexes_consistent (Array [smileRaw; waveRaw]) (qs "Apple")).
  vm_compute. reflexivity.
Defined.

(** [loadEmojis] only adds: the store, the list of shortcodes and the log
    grow at their ends (so a pointer keeps its record), every key of the
    shortcode map and of [emojis] stays a key, and every list of candidates
    grows at its end. *)
Theorem loadEmojis_only_adds (root : Document) (st : Emojis) :
  Extends st (stateOf (loadEmojis root st)).
Proof.
  apply (loadEmojis_preserves (Extends st)); [| | | |apply Extends_refl].
  - intros tones s. apply Extends_writeLog.
  - intros raw sc e c v s _ _. apply Extends_registered.
  - intros raw sc e s _ _. apply Extends_entered.
  - intros s. apply Extends_writeLog.
Qed.

Lemma getToneNames_resolvable (tones : QString) :
  resolvable tones -> exists toneName, (getToneNames tones).2 = Ok toneName.
Proof.
  intros (part & Hpart & [name Hname]).
  unfold getToneNames. rewrite toneStep_foldl. simpl.
  destruct (omap (fun part => toneNames !! part) (split 45 tones)) as [|l ls] eqn:E.
  - assert (name ∈ omap (fun part => toneNames !! part) (split 45 tones)) as Hin
      by (apply list_elem_of_omap; eauto).
    rewrite E in Hin. by apply elem_of_nil in Hin.
  - eauto.
Qed.

Lemma parseEmoji_parts (unparsedEmoji : RawEmoji) (shortCode : QString) :
  (length (partsOf unparsedEmoji) <= 9)%nat ->
  exists e, parseEmoji newEmojiData unparsedEmoji shortCode = Ok e.
Proof.
  intros H. rewrite parseEmoji_fresh. cbv zeta. fold (partsOf unparsedEmoji).
  rewrite decide_True by done. eauto.
Qed.

Lemma parseEmoji_decodable (unparsedEmoji : RawEmoji) (shortCode : QString) :
  decodable unparsedEmoji ->
  exists e c v, parseEmoji newEmojiData unparsedEmoji shortCode = Ok e
                /\ value e = c :: v.
Proof.
  intros [Hlen Hbom]. destruct (parseEmoji_parts _ shortCode Hlen) as (e & He).
  pose proof He as (_ & Hempty & _)%parseEmoji_value.
  fold (partsOf unparsedEmoji) in Hempty.
  destruct (value e) as [|c v] eqn:Hv; [|by eauto].
  exfalso. by apply Hbom, Hempty.
Qed.

Lemma register_value_Done (raw : RawEmoji) (sc : QString) (e : EmojiData) (st : Emojis) :
  decodable raw ->
  parseEmoji newEmojiData raw sc = Ok e ->
  exists st', register e st = Done st' /\ store st' = store st ++ [e].
Proof.
  intros Hdec He.
  destruct (parseEmoji_decodable raw sc Hdec) as (e' & c & v & He' & Hv).
  assert (e' = e) as -> by congruence.
  exists (registered e c st). split; [by eapply register_Done|done].
Qed.

Lemma loadVariations_Done (base : EmojiData) (shortCode0 : QString)
    (rest : list QString) (variations : list (QString * RawEmoji)) (st : Emojis) :
  shortCodes base = shortCode0 :: rest ->
  Forall (fun sv => resolvable sv.1 /\ decodable sv.2) variations ->
  exists st' variants,
    forEach (loadVariation base) variations st = Done st'
    /\ store st' = store st ++ variants
    /\ Forall2 (variantOf shortCode0) variations variants.
Proof.
  intros Hsc Hall. revert st.
  induction Hall as [|sv variations [Hres Hdec] _ IH]; intros st.
  - exists st, []. simpl. by rewrite app_nil_r.
  - destruct (getToneNames_resolvable _ Hres) as (toneName & Htone).
    destruct (parseEmoji_decodable sv.2 (shortCode0 ++ qs "_" ++ toneName) Hdec)
      as (v & _ & _ & Hv & _).
    destruct (register_value_Done _ _ v (writeLog (getToneNames sv.1).1 st) Hdec Hv)
      as (st1 & Hreg & Hstore).
    destruct (IH st1) as (st' & variants & Hrun & Hstore' & Hvariants).
    exists st', (v :: variants). simpl.
    rewrite (loadVariation_register base sv st toneName shortCode0 rest v Htone Hsc Hv).
    rewrite Hreg. split; [done|]. split.
    + rewrite Hstore', Hstore. simpl. by rewrite <- app_assoc.
    + constructor; [|done]. exists toneName. split; [done|]. split; [done|].
      apply parseEmoji_value in Hv as (_ & _ & Hs & _). rewrite Hs.
      by destruct shortCode0.
Qed.

Lemma loadEmoji_Done (unparsedEmoji : RawEmoji) (st : Emojis) :
  wellFormedEntry unparsedEmoji ->
  exists st' base variants,
    loadEmoji unparsedEmoji st = Done st'
    /\ parseEmoji newEmojiData unparsedEmoji [] = Ok base
    /\ shortCodes base = short_names unparsedEmoji
    /\ store st' = store st ++ base :: variants
    /\ Forall2 (variantOf (hd [] (short_names unparsedEmoji)))
         (variationsOf unparsedEmoji) variants.
Proof.
  intros (Hnames & Hdec & Hvars).
  destruct (parseEmoji_decodable unparsedEmoji [] Hdec) as (base & _ & _ & Hbase & _).
  destruct (register_value_Done _ _ base st Hdec Hbase) as (st1 & Hreg & Hstore).
  pose proof Hbase as (_ & _ & Hsc & _)%parseEmoji_value.
  rewrite loadEmoji_register, Hbase, Hreg.
  unfold variationsOf in *.
  destruct (skin_variations unparsedEmoji) as [variations|]; simpl in *.
  - destruct (short_names unparsedEmoji) as [|shortCode0 rest] eqn:Hn; [done|].
    destruct (loadVariations_Done base shortCode0 rest variations st1 Hsc Hvars)
      as (st' & variants & Hrun & Hstore' & Hvariants).
    exists st', base, variants. repeat (split; [done|]). split; [|done].
    rewrite Hstore', Hstore. by rewrite <- app_assoc.
  - exists st1, base, []. by conjuncts.
Qed.

(** A well-formed entry is loaded to the end: the record of the entry goes
    to the end of the store, and behind it, in the order of
    [skin_variations], one record for each variation, whose one shortcode is
    the first short name of the entry, "_" and the names of the tones of its
    key. *)
Theorem loadEmoji_registers_variations (unparsedEmoji : RawEmoji) (st : Emojis) :
  wellFormedEntry unparsedEmoji ->
  exists st' base variants,
    loadEmoji unparsedEmoji st = Done st'
    /\ parseEmoji newEmojiData unparsedEmoji [] = Ok base
    /\ shortCodes base = short_names unparsedEmoji
    /\ store st' = store st ++ base :: variants
    /\ Forall2 (variantOf (hd [] (short_names unparsedEmoji)))
         (variationsOf unparsedEmoji) variants.
Proof. apply loadEmoji_Done. Qed.

Lemma loadEmojis_Done (entries : list RawEmoji) (st : Emojis) :
  Forall wellFormedEntry entries ->
  Forall (fun e => shortCodes e <> []) (store st) ->
  exists st',
    forEach loadEmoji entries st = Done st'
    /\ Forall (fun e => shortCodes e <> []) (store st')
    /\ length (store st') =
         (length (store st)
          + sum_list ((fun raw => S (length (variationsOf raw))) <$> entries))%nat.
Proof.
  intros Hall. revert st. induction Hall as [|raw entries Hraw _ IH]; intros st Hst.
  - exists st. simpl. split; [done|]. split; [done|lia].
  - destruct (loadEmoji_Done raw st Hraw)
      as (st1 & base & variants & Hrun & Hbase & Hsc & Hstore & Hvariants).
    destruct (IH st1) as (st' & Hrun' & Hall' & Hlen).
    { rewrite Hstore. apply Forall_app. split; [done|]. constructor.
      - rewrite Hsc. by destruct Hraw.
      - clear -Hvariants. induction Hvariants as [|sv v ? ? (t & _ & _ & Hv) _ IH];
          constructor; [by rewrite Hv|done]. }
    exists st'. cbn [forEach]. rewrite Hrun. split; [done|]. split; [done|].
    assert (forall x l, sum_list (x :: l) = (x + sum_list l)%nat) as Hsum by done.
    rewrite fmap_cons, Hsum, Hlen, Hstore, length_app. cbn [length].
    rewrite (Forall2_length _ _ _ Hvariants). lia.
Qed.

(** A dataset of well-formed entries is loaded to the end, for any emoji
    set: [load] returns normally, the store has one record for each entry
    and one for each of its variations, and every record [emojis] holds has
    its emote. *)
Theorem load_completes (entries : list RawEmoji) (emojiSet : QString) :
  Forall wellFormedEntry entries ->
  exists st,
    load (Array entries) emojiSet emptyEmojis = Done st
    /\ length (store st) =
         sum_list ((fun raw => S (length (variationsOf raw))) <$> entries)
    /\ (forall k p, emojis st !! k = Some p ->
          exists em, emote (deref st p) = Some em).
Proof.
  intros Hall.
  destruct (loadEmojis_Done entries emptyEmojis Hall) as (st1 & Hrun & Hsc & Hlen);
    [constructor|].
  pose proof (Consistent_loadEmojis (Array entries) emptyEmojis st1 Hrun
                (conj Indexed_empty Consistent_empty)) as [_ Hcons].
  assert (forall name p, emojis (sortEmojis st1) !! name = Some p ->
            exists e, store (sortEmojis st1) !! p = Some e /\ shortCodes e <> [])
    as Hwf.
  { simpl. intros name p Hp.
    destruct (consistent_emojis _ Hcons name p Hp) as (e & He & _).
    exists e. split; [done|]. rewrite Forall_lookup in Hsc. by eapply Hsc. }
  destruct (forEach_setEmoteAt emojiSet (sortEmojis st1)
              (map_to_list (emojis (sortEmojis st1))) (sortEmojis st1))
    as (st & Hset & Hsame & Hin & _); [apply SameData_refl| |].
  { intros [name p] Hentry%elem_of_map_to_list. by eapply Hwf. }
  exists st. unfold load. simpl loadEmojis. rewrite Hrun. split; [done|]. split.
  - pose proof (same_store _ _ Hsame) as Hs.
    apply (f_equal length) in Hs. rewrite !length_fmap in Hs.
    rewrite Hs. change (store (sortEmojis st1)) with (store st1).
    rewrite Hlen. reflexivity.
  - intros k p Hk. rewrite (same_emojis _ _ Hsame) in Hk.
    destruct (Hwf k p Hk) as (e & He & Hne).
    destruct (shortCodes e) as [|sc0 rest] eqn:Hsc0; [done|].
    eexists. eapply Hin; [|done..].
    apply list_elem_of_fmap. exists (k, p). split; [done|].
    by apply elem_of_map_to_list.
Qed.

Lemma decodable_examples :
  decodable smileRaw /\ decodable waveRaw
  /\ Forall (fun sv => decodable sv.2) (variationsOf waveRaw).
Proof.
  assert (forall raw cps,
            toUInt16 <$> partsOf raw = cps -> (length cps <= 9)%nat ->
            ~ byteOrderMarkOnly cps -> decodable raw) as Hdec.
  { intros raw cps <-. rewrite length_fmap. by split. }
  split; [|split; [|constructor; [|constructor]]].
  - apply (Hdec _ [0x1F604]); [by vm_compute|simpl; lia|]. by intros [[=]|[=]].
  - apply (Hdec _ [0x1F44B]); [by vm_compute|simpl; lia|]. by intros [[=]|[=]].
  - apply (Hdec _ [0x1F44B; 0x1F3FB]); [by vm_compute|simpl; lia|].
    by intros [[=]|[=]].
Qed.

Lemma wellFormed_examples : Forall wellFormedEntry [smileRaw; waveRaw].
Proof.
  destruct decodable_examples as (Hsmile & Hwave & Hvar).
  constructor; [|constructor; [|constructor]].
  - split; [discriminate|]. split; [done|]. constructor.
  - split; [discriminate|]. split; [done|].
    apply Forall_cons in Hvar as [Hvar _]. constructor; [|constructor].
    split; [|done]. exists (qs "1F3FB").
    split; [vm_compute; apply list_elem_of_here|]. vm_compute. eauto.
Qed.

Lemma load_completes_witness :
  exists st,
    load (Array [smileRaw; waveRaw]) (qs "Apple") emptyEmojis = Done st
    /\ length (store st) =
         sum_list ((fun raw => S (length (variationsOf raw))) <$> [smileRaw; waveRaw])
    /\ (forall k p, emojis st !! k = Some p ->
          exists em, emote (deref st p) = Some em).
Proof. apply (load_completes [smileRaw; waveRaw] (qs "Apple")), wellFormed_examples. Defined.

Lemma loadEmoji_registers_variations_witness :
  exists st' base variants,
    loadEmoji waveRaw emptyEmojis = Done st'
    /\ parseEmoji newEmojiData waveRaw [] = Ok base
    /\ shortCodes base = short_names waveRaw
    /\ store st' = store emptyEmojis ++ base :: variants
    /\ Forall2 (variantOf (hd [] (short_names waveRaw)))
         (variationsOf waveRaw) variants.
Proof.
  apply (loadEmoji_registers_variations waveRaw emptyEmojis).
  pose proof wellFormed_examples as H.
  apply Forall_cons in H as [_ H]. by apply Forall_cons in H as [H _].
Defined.

(** ** The bounds of [parseEmoji] *)

Lemma fromUcs4_plain_length (cps : list Z) :
  hd 0 cps <> 0xFEFF -> hd 0 cps <> 0xFFFE0000 ->
  (length cps <= length (fromUcs4 cps))%nat.
Proof.
  destruct cps as [|c cps]; [simpl; lia|]. simpl hd. intros H1 H2.
  rewrite (fromUcs4_plain c cps H1 H2).
  generalize (c :: cps). intros l. induction l as [|x l IH]; simpl; [lia|].
  rewrite length_app. unfold QChar_fromUcs4 at 1.
  destruct (0x10000 <=? x); simpl; lia.
Qed.

(** [parseEmoji] on a fresh record fails exactly when the code has more than
    9 parts, by the exception of [std::array::at]; otherwise the value is
    what [QString::fromUcs4] makes of the numbers of the parts: at most two
    units for each part, so at most 18; no unit at all exactly when the
    numbers are a byte-order mark alone; and at least one unit for each
    part when no byte-order mark is in front (one part less when one is). *)
Theorem parseEmoji_bounds (unparsedEmoji : RawEmoji) (shortCode : QString) :
  let n := length (partsOf unparsedEmoji) in
  let cps := toUInt16 <$> partsOf unparsedEmoji in
  (1 <= n)%nat
  /\ ((9 < n)%nat <->
      parseEmoji newEmojiData unparsedEmoji shortCode = Raise OutOfRange)
  /\ ((n <= 9)%nat <->
      exists e, parseEmoji newEmojiData unparsedEmoji shortCode = Ok e)
  /\ (forall e, parseEmoji newEmojiData unparsedEmoji shortCode = Ok e ->
        value e = fromUcs4 cps
        /\ (n - 1 <= length (value e) <= 2 * n)%nat
        /\ (length (value e) <= 18)%nat
        /\ (value e = [] <-> byteOrderMarkOnly cps)
        /\ (hd 0 cps <> 0xFEFF -> hd 0 cps <> 0xFFFE0000 ->
            (n <= length (value e))%nat)).
Proof.
  cbv zeta.
  assert (1 <= length (partsOf unparsedEmoji))%nat as Hn.
  { unfold partsOf. pose proof (split_nonempty 45 (toLower (codeOf unparsedEmoji))).
    destruct (split _ _); [done|simpl; lia]. }
  pose proof (parseEmoji_fresh unparsedEmoji shortCode) as Hp. cbv zeta in Hp.
  fold (partsOf unparsedEmoji) in Hp.
  split; [done|]. split; [|split].
  - rewrite Hp. case_decide; split; (done || lia).
  - rewrite Hp. case_decide; split; try (intros [e He]); (done || lia || eauto).
  - intros e He.
    pose proof He as (_ & Hempty & _)%parseEmoji_value.
    fold (partsOf unparsedEmoji) in Hempty.
    rewrite Hp in He. case_decide; [|done]. injection He as <-. simpl in *.
    pose proof (fromUcs4_length (toUInt16 <$> partsOf unparsedEmoji)) as Hl.
    pose proof (fromUcs4_plain_length (toUInt16 <$> partsOf unparsedEmoji)) as Hpl.
    rewrite length_fmap in Hl, Hpl.
    split; [done|]. split; [lia|]. split; [lia|]. split; [done|]. exact Hpl.
Qed.

(** ** Sorting, in general *)

Lemma insertSorted_Permutation_any {A} (comp : A -> A -> bool) (x : A) (l : list A) :
  insertSorted comp x l ≡ₚ x :: l.
Proof.
  induction l as [|y l IH]; simpl; [done|].
  destruct (comp y x); [|done]. rewrite IH. apply Permutation_swap.
Qed.

Lemma stable_sort_Permutation_any {A} (comp : A -> A -> bool) (l : list A) :
  stable_sort comp l ≡ₚ l.
Proof.
  induction l as [|x l IH]; simpl; [done|].
  rewrite insertSorted_Permutation_any. by rewrite IH.
Qed.

Section stable_sort_order.
Context {A : Type} (comp : A -> A -> bool).
Hypothesis comp_asym : forall a b, comp a b = true -> comp b a = false.
Hypothesis comp_negtrans :
  forall a b c, comp b a = false -> comp c b = false -> comp c a = false.

Lemma insertSorted_ordered (x : A) (l : list A) :
  StronglySorted (fun a b => comp b a = false) l ->
  StronglySorted (fun a b => comp b a = false) (insertSorted comp x l).
Proof.
  induction 1 as [|y l Hl IH Hy]; simpl.
  - repeat constructor.
  - destruct (comp y x) eqn:E.
    + constructor; [done|]. rewrite insertSorted_Permutation_any.
      constructor; [by apply comp_asym|done].
    + constructor; [by constructor|]. constructor; [done|].
      eapply Forall_impl; [exact Hy|]. simpl. intros z Hz.
      by eapply comp_negtrans.
Qed.

Lemma stable_sort_ordered (l : list A) :
  StronglySorted (fun a b => comp b a = false) (stable_sort comp l).
Proof.
  induction l as [|x l IH]; simpl; [constructor|]. by apply insertSorted_ordered.
Qed.

Lemma stable_sort_fixed (l : list A) :
  StronglySorted (fun a b => comp b a = false) l -> stable_sort comp l = l.
Proof.
  induction 1 as [|x l Hl IH Hx]; simpl; [done|]. rewrite IH.
  destruct l as [|y l]; simpl; [done|].
  apply Forall_cons in Hx as [Hy _]. by rewrite Hy.
Qed.

Lemma stable_sort_idempotent (l : list A) :
  stable_sort comp (stable_sort comp l) = stable_sort comp l.
Proof. apply stable_sort_fixed, stable_sort_ordered. Qed.
End stable_sort_order.

Lemma QString_lt_asym (a b : QString) :
  QString_lt a b = true -> QString_lt b a = false.
Proof.
  revert b. induction a as [|x a IH]; intros [|y b]; simpl; try done.
  intros H. apply orb_true_iff in H as [H|H].
  - apply Z.ltb_lt in H.
    rewrite (proj2 (Z.ltb_ge y x)) by lia.
    rewrite (proj2 (Z.eqb_neq y x)) by lia. done.
  - apply andb_true_iff in H as [H1%Z.eqb_eq H2]. subst y.
    rewrite Z.ltb_irrefl, Z.eqb_refl. simpl. by apply IH.
Qed.

Lemma QString_lt_negtrans (a b c : QString) :
  QString_lt b a = false -> QString_lt c b = false -> QString_lt c a = false.
Proof.
  revert b c. induction a as [|x a IH]; intros b c Hba Hcb.
  - by destruct c.
  - destruct b as [|y b]; [done|]. destruct c as [|z c]; [done|].
    simpl in *.
    apply orb_false_iff in Hba as [Hyx%Z.ltb_ge Hba].
    apply orb_false_iff in Hcb as [Hzy%Z.ltb_ge Hcb].
    apply orb_false_iff. split; [apply Z.ltb_ge; lia|].
    destruct (z =? x) eqn:Ezx; [|done]. apply Z.eqb_eq in Ezx. subst z.
    assert (y = x) as -> by lia.
    rewrite Z.eqb_refl in Hba, Hcb. simpl in *. by eapply IH.
Qed.

Lemma longerValue_asym (st : Emojis) (a b : EmojiPtr) :
  longerValue st a b = true -> longerValue st b a = false.
Proof.
  unfold longerValue. intros H%Nat.ltb_lt. apply Nat.ltb_ge. lia.
Qed.

Lemma longerValue_negtrans (st : Emojis) (a b c : EmojiPtr) :
  longerValue st b a = false -> longerValue st c b = false ->
  longerValue st c a = false.
Proof.
  unfold longerValue. intros H1%Nat.ltb_ge H2%Nat.ltb_ge. apply Nat.ltb_ge. lia.
Qed.

(** [sortEmojis] leaves the list of shortcodes a rearrangement of itself in
    ascending order of [QString::operator<], and every list of candidates a
    rearrangement of itself; the store and the other maps are as before. *)
Theorem sortEmojis_shortCodes_ascending (st : Emojis) :
  Emojis_shortCodes (sortEmojis st) ≡ₚ Emojis_shortCodes st
  /\ StronglySorted (fun a b => QString_lt b a = false)
       (Emojis_shortCodes (sortEmojis st))
  /\ (forall c,
        match emojiFirstByte_ st !! c with
        | Some ps => exists ps', emojiFirstByte_ (sortEmojis st) !! c = Some ps'
                                 /\ ps' ≡ₚ ps
        | None => emojiFirstByte_ (sortEmojis st) !! c = None
        end)
  /\ store (sortEmojis st) = store st
  /\ emojis (sortEmojis st) = emojis st
  /\ emojiShortCodeToEmoji_ (sortEmojis st) = emojiShortCodeToEmoji_ st
  /\ diagnostics (sortEmojis st) = diagnostics st.
Proof.
  conjuncts; try done.
  - apply stable_sort_Permutation_any.
  - apply stable_sort_ordered; [apply QString_lt_asym|apply QString_lt_negtrans].
  - intros c. simpl. rewrite lookup_fmap.
    destruct (emojiFirstByte_ st !! c) as [ps|]; simpl; [|done].
    eexists. split; [done|]. apply stable_sort_Permutation_any.
Qed.

(** Sorting twice is sorting once. *)
Theorem sortEmojis_idempotent (st : Emojis) :
  sortEmojis (sortEmojis st) = sortEmojis st.
Proof.
  unfold sortEmojis at 1. cbn [store emojis Emojis_shortCodes
    emojiShortCodeToEmoji_ emojiFirstByte_ diagnostics sortEmojis].
  unfold sortEmojis. f_equal.
  - apply stable_sort_idempotent; [apply QString_lt_asym|apply QString_lt_negtrans].
  - rewrite <- map_fmap_compose. apply map_fmap_ext. intros c ps _. simpl.
    apply (stable_sort_idempotent (longerValue st));
      [apply longerValue_asym|apply longerValue_negtrans].
Qed.

(** ** The emoji set and the rest of the engine *)

Lemma firstMatch_SameData (st st' : Emojis) (text : QString) (i : nat)
    (ps : list EmojiPtr) :
  SameData st st' -> firstMatch st' text i ps = firstMatch st text i ps.
Proof.
  intros Hsame. induction ps as [|p ps IH]; simpl; [done|].
  by rewrite (SameData_value st st' p Hsame), IH.
Qed.

Lemma matchAt_SameData (st st' : Emojis) (text : QString) (i : nat) :
  SameData st st' -> matchAt st' text i = matchAt st text i.
Proof.
  intros Hsame. unfold matchAt.
  destruct (text !! i) as [c|]; [|done].
  destruct (isLowSurrogate c); [done|].
  rewrite (same_firstByte _ _ Hsame).
  destruct (emojiFirstByte_ st !! c) as [ps|]; [|done].
  rewrite (firstMatch_SameData st st' text i ps Hsame).
  destruct (firstMatch st text i ps) as [p|]; [|done].
  by rewrite (SameData_value st st' p Hsame).
Qed.

Lemma parseLoop_SameData (st st' : Emojis) (text : QString) (i last : nat)
    (result : list Span) :
  SameData st st' ->
  parseLoop st' text i last result = parseLoop st text i last result.
Proof.
  intros Hsame. revert last result. loop_induction text i.
  intros i Hn last result.
  rewrite (parseLoop_eq st'), (parseLoop_eq st), (matchAt_SameData st st' text i Hsame).
  destruct (decide (i < length text)%nat) as [Hlt|Hge]; [|done].
  destruct (matchAt st text i) as [[p len]|].
  - by apply (IH (length text - S (i + (len - 1)))%nat ltac:(lia)).
  - by apply (IH (length text - S i)%nat ltac:(lia)).
Qed.

Lemma replaceShortCodes_SameData (st st' : Emojis) (text : QString) :
  SameData st st' -> replaceShortCodes st' text = replaceShortCodes st text.
Proof.
  intros Hsame. unfold replaceShortCodes. generalize (text, 0).
  induction (globalMatch text) as [|m ms IH]; intros acc; [done|].
  cbn [foldl]. rewrite IH. f_equal. destruct acc as [ret offset].
  rewrite !replaceStep_key, (same_shortCodeToEmoji _ _ Hsame).
  destruct (emojiShortCodeToEmoji_ st !! matchKey text m) as [p|]; [|done].
  cbv zeta. by rewrite (SameData_value st st' p Hsame).
Qed.

(** The emoji set changes emotes only: after [loadEmojiSet], however it
    ended, [parse] matches the same records at the same places, their
    values are the same, and [replaceShortCodes] gives the same text. *)
Theorem loadEmojiSet_keeps_matches (emojiSet : QString) (st : Emojis)
    (text : QString) :
  let st' := stateOf (loadEmojiSet emojiSet st) in
  parseSpans st' text = parseSpans st text
  /\ (forall s, spanText st' text s = spanText st text s)
  /\ replaceShortCodes st' text = replaceShortCodes st text.
Proof.
  cbv zeta. pose proof (SameData_loadEmojiSet emojiSet st) as Hsame.
  split; [|split].
  - by apply parseLoop_SameData.
  - intros [pos n|i p]; simpl; [done|]. by apply SameData_value.
  - by apply replaceShortCodes_SameData.
Qed.

Lemma EmojiData_eq (e e' : EmojiData) :
  stripEmote e = stripEmote e' -> emote e = emote e' -> e = e'.
Proof.
  destruct e, e'. unfold stripEmote. simpl. intros [= -> -> -> -> ->] ->. done.
Qed.

Lemma Emojis_eq (s s' : Emojis) :
  store s = store s' -> emojis s = emojis s' ->
  Emojis_shortCodes s = Emojis_shortCodes s' ->
  emojiShortCodeToEmoji_ s = emojiShortCodeToEmoji_ s' ->
  emojiFirstByte_ s = emojiFirstByte_ s' -> diagnostics s = diagnostics s' ->
  s = s'.
Proof. destruct s, s'. simpl. by intros -> -> -> -> -> ->. Qed.

(** The emotes depend on the last emoji set only: when every record of
    [emojis] is in the store with a shortcode, setting one emoji set and then
    another leaves the engine as setting the other at once does. *)
Theorem loadEmojiSet_last_wins (first last : QString) (st : Emojis) :
  (forall name p, emojis st !! name = Some p ->
     exists e, store st !! p = Some e /\ shortCodes e <> []) ->
  exists st', loadEmojiSet last st = Done st'
    /\ loadEmojiSet last (stateOf (loadEmojiSet first st)) = Done st'.
Proof.
  intros Hwf.
  assert (forall entry, entry ∈ map_to_list (emojis st) ->
            exists e, store st !! entry.2 = Some e /\ shortCodes e <> []) as Hl.
  { intros [name p] Hentry%elem_of_map_to_list. by eapply Hwf. }
  destruct (forEach_setEmoteAt first st _ st (SameData_refl st) Hl)
    as (s1 & Hrun1 & Hsame1 & _ & Hout1).
  destruct (forEach_setEmoteAt last st _ st (SameData_refl st) Hl)
    as (s2' & Hrun2' & Hsame2' & Hin2' & Hout2').
  assert (forall entry, entry ∈ map_to_list (emojis st) ->
            exists e, store s1 !! entry.2 = Some e /\ shortCodes e <> []) as Hl1.
  { intros entry Hentry. destruct (Hl entry Hentry) as (e & He & Hne).
    destruct (SameData_lookup_inv _ _ _ _ Hsame1 He) as (e1 & He1 & Hee).
    exists e1. split; [done|].
    apply stripEmote_fields in Hee as (<- & _). done. }
  destruct (forEach_setEmoteAt last s1 _ s1 (SameData_refl s1) Hl1)
    as (s2 & Hrun2 & Hsame2 & Hin2 & Hout2).
  exists s2'. split; [done|].
  unfold loadEmojiSet in *. rewrite Hrun1. simpl.
  rewrite (same_emojis _ _ Hsame1), Hrun2. f_equal.
  destruct Hsame2 as [Hs2 ? ? ? ? ?]. destruct Hsame2' as [Hs2' ? ? ? ? ?].
  pose proof Hsame1 as [Hs1 ? ? ? ? ?].
  apply Emojis_eq; try congruence.
  apply list_eq. intros q.
  destruct (decide (q ∈ (map_to_list (emojis st)).*2)) as [Hq|Hq].
  - apply list_elem_of_fmap in Hq as (entry & -> & Hentry).
    destruct (Hl entry Hentry) as (e & He & Hne).
    destruct (shortCodes e) as [|sc0 rest] eqn:Hsc0; [done|].
    destruct (SameData_lookup_inv _ _ _ _ Hsame1 He) as (e1 & He1 & Hee1).
    assert (entry.2 ∈ (map_to_list (emojis st)).*2) as Hmem
      by (apply list_elem_of_fmap; eauto).
    assert (shortCodes e1 = sc0 :: rest) as Hsc1
      by (apply stripEmote_fields in Hee1 as (<- & _); done).
    pose proof (Hin2 _ e1 sc0 rest Hmem He1 Hsc1) as Hem2.
    pose proof (Hin2' _ e sc0 rest Hmem He Hsc0) as Hem2'.
    rewrite <- (specEmote_stripEmote last e e1 sc0 Hee1) in Hem2.
    assert (is_Some (store s2 !! entry.2)) as [e2 He2].
    { apply lookup_lt_is_Some. apply (f_equal length) in Hs2.
      rewrite !length_fmap in Hs2. rewrite Hs2. by eapply lookup_lt_Some. }
    assert (is_Some (store s2' !! entry.2)) as [e2' He2'].
    { apply lookup_lt_is_Some. apply (f_equal length) in Hs2'.
      rewrite !length_fmap in Hs2'. rewrite Hs2'. by eapply lookup_lt_Some. }
    rewrite He2, He2'. f_equal. unfold deref in Hem2, Hem2'.
    rewrite He2 in Hem2. rewrite He2' in Hem2'. simpl in *.
    apply EmojiData_eq; [|congruence].
    assert ((stripEmote <$> store s2) !! entry.2 = (stripEmote <$> store s2') !! entry.2)
      as Heq by congruence.
    rewrite !list_lookup_fmap, He2, He2' in Heq. simpl in Heq. congruence.
  - by rewrite (Hout2 _ Hq), (Hout1 _ Hq), (Hout2' _ Hq).
Qed.

Lemma loadEmojiSet_last_wins_witness :
  exists st', loadEmojiSet (qs "Apple") smileLoaded = Done st'
    /\ loadEmojiSet (qs "Apple") (stateOf (loadEmojiSet (qs "Google") smileLoaded))
       = Done st'.
Proof.
  apply (loadEmojiSet_last_wins (qs "Google") (qs "Apple") smileLoaded).
  intros name p Hp.
  assert (emojis smileLoaded = {[ qs "1F604" := 0%nat ]}) as Hmap
    by (vm_compute; reflexivity).
  rewrite Hmap in Hp. apply lookup_singleton_Some in Hp as [_ <-].
  eexists. split; [reflexivity|]. vm_compute. discriminate.
Defined.

(** ** The shape of the result of [parse] *)

(** The result of [parse] tiles the text: its spans follow one another from
    the start to the end of the text, an emoji span is the match the scan
    found at its place, and a piece of text is never empty, never followed
    by another piece of text, and has no match beginning inside it. *)
Theorem parse_tiles_text (st : Emojis) (text : QString) :
  Tiled st text 0 (parseSpans st text).
Proof. apply parseLoop_Tiled; [lia|]. intros j Hj. lia. Qed.

Lemma firstMatch_None (st : Emojis) (text : QString) (i : nat)
    (ps : list EmojiPtr) (p : EmojiPtr) :
  firstMatch st text i ps = None -> p ∈ ps ->
  (i + valueLength st p <= length text)%nat ->
  restMatches text i (value (deref st p)) = false.
Proof.
  induction ps as [|q ps IH]; intros Hnone Hp Hfit; [by apply elem_of_nil in Hp|].
  simpl in Hnone. destruct (_ <? _) eqn:Hfitq.
  - apply elem_of_cons in Hp as [->|Hp]; [|by apply IH].
    apply Z.ltb_lt in Hfitq. unfold valueLength in Hfit. lia.
  - destruct (restMatches text i (value (deref st q))) eqn:Hrest; [done|].
    apply elem_of_cons in Hp as [->|Hp]; [done|by apply IH].
Qed.

(** After a load, [parse] misses no emoji: in a piece of text of its
    result, at a unit that is no low surrogate, the value of no record of
    the store stands. *)
Theorem parse_misses_no_emoji (root : Document) (emojiSet : QString)
    (st : Emojis) (text : QString) (position n j : nat) (c : QChar)
    (p : EmojiPtr) (e : EmojiData) :
  load root emojiSet emptyEmojis = Done st ->
  SpanText position n ∈ parseSpans st text ->
  (position <= j < position + n)%nat ->
  text !! j = Some c -> isLowSurrogate c = false ->
  store st !! p = Some e ->
  ~ occursAt text j (value e).
Proof.
  intros Hload Hspan Hj Htj Hlow He Hocc.
  pose proof (Consistent_load root emojiSet st Hload) as [Hidx Hcons].
  pose proof (Tiled_text_no_match _ _ _ _ _ _ _
                (parseLoop_Tiled st text 0 0 ltac:(lia) ltac:(intros; lia))
                Hspan Hj) as Hnone.
  destruct (consistent_candidate _ Hcons p e He) as (c' & ps & Hc & Hps & Hp).
  pose proof (indexed_value _ Hidx p e He) as Hne.
  assert (c' = c) as ->.
  { rewrite occursAt_lookup in Hocc.
    specialize (Hocc 0%nat ltac:(destruct (value e); [done|simpl; lia])).
    rewrite Nat.add_0_r, Hc in Hocc. congruence. }
  unfold matchAt in Hnone. rewrite Htj, Hlow, Hps in Hnone.
  assert (deref st p = e) as Hderef by (unfold deref; by rewrite He).
  destruct (firstMatch st text j ps) as [q|] eqn:Hfirst.
  - case_decide as Hlen; [|done].
    apply firstMatch_Some in Hfirst as (Hq & _).
    destruct (indexed_first _ Hidx c ps q Hps Hq) as (e' & He' & _).
    pose proof (indexed_value _ Hidx q e' He').
    unfold deref in Hlen. rewrite He' in Hlen. simpl in Hlen.
    by destruct (value e').
  - assert (restMatches text j (value e) = false) as Hfalse.
    { rewrite <- Hderef. apply (firstMatch_None st text j ps p Hfirst Hp).
      unfold valueLength. rewrite Hderef. by apply occursAt_fits. }
    assert (restMatches text j (value e) = true) as Htrue; [|congruence].
    apply restMatches_true. intros k Hk.
    rewrite occursAt_lookup in Hocc. apply Hocc. lia.
Qed.

Lemma parse_misses_no_emoji_witness :
  ~ occursAt smileText 0 (value (deref smileEngine 0%nat)).
Proof.
  apply (parse_misses_no_emoji (Array [smileRaw]) (qs "Twitter") smileEngine
           smileText 0 3 0 104 0 (deref smileEngine 0%nat)).
  - vm_compute. reflexivity.
  - vm_compute. apply list_elem_of_here.
  - lia.
  - reflexivity.
  - reflexivity.
  - vm_compute. reflexivity.
Defined.

(** After a load, the value of a record whose first unit is no low surrogate
    is scanned to one element: the emote of a record with that value. *)
Theorem parse_own_value (root : Document) (emojiSet : QString) (st : Emojis)
    (p : EmojiPtr) (e : EmojiData) (c : QChar) :
  load root emojiSet emptyEmojis = Done st ->
  store st !! p = Some e ->
  value e !! 0%nat = Some c -> isLowSurrogate c = false ->
  exists q, parseSpans st (value e) = [SpanEmoji 0 q]
            /\ value (deref st q) = value e
            /\ parse st (value e) = [inl (emote (deref st q))].
Proof.
  intros Hload He Hc Hlow.
  pose proof (Consistent_load root emojiSet st Hload) as [Hidx Hcons].
  pose proof (Indexed_FirstUnit st Hidx) as Hfu.
  destruct (consistent_candidate _ Hcons p e He) as (c' & ps & Hc' & Hps & Hp).
  assert (c' = c) as -> by congruence.
  assert (deref st p = e) as Hderef by (unfold deref; by rewrite He).
  pose proof (LongestFirst_load _ _ _ _ Hload c ps Hps) as Hsorted.
  destruct (firstMatch_longest st (value e) 0 ps p Hsorted Hp) as (q & Hfirst & Hlong).
  { unfold valueLength. rewrite Hderef. simpl. lia. }
  { apply restMatches_true. intros j Hj. by rewrite Hderef. }
  unfold valueLength in Hlong. rewrite Hderef in Hlong.
  assert (matchAt st (value e) 0 = Some (q, valueLength st q)) as Hm.
  { apply matchAt_Some. exists c, ps. conjuncts; try done.
    pose proof (indexed_value _ Hidx p e He).
    unfold valueLength. destruct (value e); [done|simpl in Hlong; lia]. }
  destruct (matchAt_occurs _ _ _ _ _ Hfu Hm) as (_ & Hpos & Hfit & Hocc).
  assert (valueLength st q = length (value e)) as Hlen
    by (unfold valueLength in *; lia).
  assert (value (deref st q) = value e) as Hv.
  { unfold occursAt, mid in Hocc. rewrite drop_0 in Hocc.
    rewrite <- Hocc. apply take_ge. unfold valueLength in Hlen. lia. }
  assert (parseSpans st (value e) = [SpanEmoji 0 q]) as Hspans.
  { unfold parseSpans. rewrite parseLoop_eq, decide_True, Hm by lia.
    rewrite parseLoop_eq, decide_False by lia.
    unfold inbetween. rewrite !decide_False by lia. done. }
  exists q. split; [done|]. split; [done|].
  unfold parse. by rewrite Hspans.
Qed.

Lemma parse_own_value_witness :
  exists q, parseSpans smileEngine (value (deref smileEngine 0%nat)) = [SpanEmoji 0 q]
            /\ value (deref smileEngine q) = value (deref smileEngine 0%nat)
            /\ parse smileEngine (value (deref smileEngine 0%nat))
               = [inl (emote (deref smileEngine q))].
Proof.
  apply (parse_own_value (Array [smileRaw]) (qs "Twitter") smileEngine 0
           (deref smileEngine 0%nat) 0xD83D).
  - vm_compute. reflexivity.
  - vm_compute. reflexivity.
  - vm_compute. reflexivity.
  - reflexivity.
Defined.

(** ** Substitution inside a text *)

Lemma tokenAt_no_colon (text : QString) (j : nat) :
  text !! j <> Some 58 -> tokenAt text j = None.
Proof.
  intros Hj. destruct (tokenAt text j) as [run|] eqn:E; [|done].
  by apply tokenAt_Some in E as (? & _).
Qed.

Lemma globalMatchFrom_skip (text : QString) (pos s : nat) :
  (pos <= s)%nat ->
  (forall j, (pos <= j < s)%nat -> tokenAt text j = None) ->
  globalMatchFrom text pos = globalMatchFrom text s.
Proof.
  intros Hle. remember (s - pos)%nat as d eqn:Hd. revert pos Hle Hd.
  induction d as [|d IH]; intros pos Hle Hd Hnone.
  - by replace s with pos by lia.
  - rewrite globalMatchFrom_eq.
    destruct (decide (pos < length text)%nat) as [Hlt|Hge].
    + rewrite (Hnone pos) by lia. apply IH; [lia|lia|].
      intros j Hj. apply Hnone. lia.
    + rewrite globalMatchFrom_eq, decide_False by lia. done.
Qed.

Lemma globalMatchFrom_none (text : QString) (pos : nat) :
  (forall j, (pos <= j)%nat -> tokenAt text j = None) ->
  globalMatchFrom text pos = [].
Proof.
  intros Hnone. destruct (decide (pos <= length text)%nat).
  - rewrite (globalMatchFrom_skip text pos (length text));
      [|done|intros j Hj; apply Hnone; lia].
    rewrite globalMatchFrom_eq, decide_False by lia. done.
  - rewrite globalMatchFrom_eq, decide_False by lia. done.
Qed.

Lemma lookup_no_colon (l : QString) (j : nat) : 58 ∉ l -> l !! j <> Some 58.
Proof. intros Hl Hj. apply Hl. by eapply list_elem_of_lookup_2. Qed.

Lemma globalMatch_in_context (a w b : QString) :
  isShortCode w -> 58 ∉ a -> 58 ∉ b ->
  globalMatch (a ++ token w ++ b) = [(length a, length w + 2)%nat].
Proof.
  intros Hw Ha Hb. set (text := a ++ token w ++ b).
  assert (length (token w) = length w + 2)%nat as Hl
    by (unfold token; simpl; rewrite length_app; simpl; lia).
  assert (length text = length a + (length w + 2) + length b)%nat as Hlen
    by (unfold text; rewrite !length_app, Hl; lia).
  unfold globalMatch.
  rewrite (globalMatchFrom_skip text 0 (length a)); [|lia|].
  2: { intros j Hj. apply tokenAt_no_colon. unfold text.
       rewrite lookup_app_l by lia. by apply lookup_no_colon. }
  assert (tokenAt text (length a) = Some (length w)) as Htok.
  { apply tokenAt_Some. unfold text, token. destruct Hw as [Hne Hall].
    split; [by rewrite lookup_app_r, Nat.sub_diag by lia|].
    replace (drop (S (length a)) (a ++ (58 :: w ++ [58]) ++ b))
      with (w ++ 58 :: b).
    2: { change (a ++ (58 :: w ++ [58]) ++ b) with (a ++ [58] ++ (w ++ [58]) ++ b).
         rewrite app_assoc.
         rewrite (drop_app_length' (a ++ [58])) by (rewrite length_app; simpl; lia).
         by rewrite <- app_assoc. }
    rewrite (runLength_stop w 58 b Hall colon_no_shortCodeChar).
    split; [done|]. split; [by destruct w|].
    rewrite lookup_app_r by lia.
    replace (S (length a) + length w - length a)%nat with (S (length w)) by lia.
    simpl. rewrite lookup_app_l by (rewrite length_app; simpl; lia).
    rewrite lookup_app_r by lia. by rewrite Nat.sub_diag. }
  rewrite globalMatchFrom_eq, decide_True, Htok by lia. f_equal.
  apply globalMatchFrom_none. intros j Hj. apply tokenAt_no_colon. unfold text.
  rewrite app_assoc, lookup_app_r by (rewrite length_app, Hl; lia).
  by apply lookup_no_colon.
Qed.

(** A token between two texts that have no colon: a known shortcode (in the
    case of the index, whichever the case of the token) becomes the value of
    its record, any other token stays, and the texts around it stay. *)
Theorem replaceShortCodes_in_context (st : Emojis) (a w b : QString) :
  isShortCode w -> 58 ∉ a -> 58 ∉ b ->
  replaceShortCodes st (a ++ token w ++ b)
  = a ++ match emojiShortCodeToEmoji_ st !! toLower w with
         | Some p => value (deref st p)
         | None => token w
         end ++ b.
Proof.
  intros Hw Ha Hb.
  assert (length (token w) = length w + 2)%nat as Hl
    by (unfold token; simpl; rewrite length_app; simpl; lia).
  assert (occursAt (a ++ token w ++ b) (length a) (token w)) as Hocc.
  { unfold occursAt, mid. rewrite drop_app_length. apply take_app_length. }
  rewrite replaceShortCodes_spec. unfold specSubstitute.
  rewrite (globalMatch_in_context a w b Hw Ha Hb). cbn [substituteFrom fst snd].
  rewrite (matchKey_occurs _ _ _ Hocc).
  unfold mid, mid_from. rewrite Nat.sub_0_r, drop_0, take_app_length.
  f_equal.
  replace (drop (length a + (length w + 2)) (a ++ token w ++ b)) with b.
  2: { rewrite app_assoc. symmetry. apply drop_app_length'.
       rewrite length_app, Hl. lia. }
  f_equal. destruct (emojiShortCodeToEmoji_ st !! toLower w); [done|].
  rewrite drop_app_length, <- Hl. apply take_app_length.
Qed.

Lemma replaceShortCodes_in_context_witness :
  replaceShortCodes smileEngine (qs "hi " ++ token (qs "SMILE") ++ qs " there")
  = qs "hi " ++ match emojiShortCodeToEmoji_ smileEngine !! toLower (qs "SMILE") with
                | Some p => value (deref smileEngine p)
                | None => token (qs "SMILE")
                end ++ qs " there".
Proof.
  apply (replaceShortCodes_in_context smileEngine (qs "hi ") (qs "SMILE") (qs " there")).
  - split; [discriminate|]. repeat constructor.
  - vm_compute. intros H.
    repeat (apply elem_of_cons in H as [H|H]; [discriminate H|]).
    by apply elem_of_nil in H.
  - vm_compute. intros H.
    repeat (apply elem_of_cons in H as [H|H]; [discriminate H|]).
    by apply elem_of_nil in H.
Defined.

(** ** A dataset that does not parse *)

Lemma parse_no_candidates (st : Emojis) (text : QString) :
  emojiFirstByte_ st = ∅ ->
  parse st text = match text with [] => [] | _ => [inr text] end.
Proof.
  intros Hfb. unfold parse, parseSpans. rewrite parseLoop_no_match.
  - unfold inbetween. destruct text as [|c text]; [done|].
    rewrite decide_True by (simpl; lia). simpl. unfold mid.
    rewrite drop_0. f_equal. f_equal. apply (take_ge (c :: text)). simpl. lia.
  - intros j _. unfold matchAt. destruct (text !! j) as [c|]; [|done].
    destruct (isLowSurrogate c); [done|]. by rewrite Hfb, lookup_empty.
Qed.

Lemma replaceShortCodes_no_shortCodes (st : Emojis) (text : QString) :
  emojiShortCodeToEmoji_ st = ∅ -> replaceShortCodes st text = text.
Proof.
  intros Hsc. rewrite replaceShortCodes_spec. unfold specSubstitute, globalMatch.
  rewrite (substituteFrom_unknown st text 0 _ (globalMatchFrom_Placed text 0)).
  - apply drop_0.
  - intros m _. by rewrite Hsc, lookup_empty.
Qed.

(** When the dataset does not parse, [load] still returns normally, for any
    emoji set: one line is logged, there is no record and no shortcode,
    [parse] gives a text back as its one element (nothing for the empty
    text) and [replaceShortCodes] gives every text back as it is. *)
Theorem load_parse_error (emojiSet : QString) (text : QString) :
  exists st,
    load ParseError emojiSet emptyEmojis = Done st
    /\ diagnostics st = [JsonParseError]
    /\ store st = [] /\ Emojis_shortCodes st = []
    /\ parse st text = match text with [] => [] | _ => [inr text] end
    /\ replaceShortCodes st text = text.
Proof.
  exists (sortEmojis (writeLog [JsonParseError] emptyEmojis)).
  split; [|split; [done|split; [done|split; [done|split]]]].
  - unfold load, loadEmojiSet. simpl. by rewrite map_to_list_empty.
  - apply parse_no_candidates. simpl. apply fmap_empty.
  - by apply replaceShortCodes_no_shortCodes.
Qed.

(** ** Tone keys *)

Lemma split_no_sep (sep : QChar) (w : QString) : sep ∉ w -> split sep w = [w].
Proof.
  induction w as [|c w IH]; intros Hw; simpl; [done|].
  apply not_elem_of_cons in Hw as [Hne Hw].
  rewrite decide_False by done. by rewrite IH.
Qed.

Lemma split_app_sep (sep : QChar) (w rest : QString) :
  sep ∉ w -> split sep (w ++ sep :: rest) = w :: split sep rest.
Proof.
  induction w as [|c w IH]; intros Hw; simpl.
  - by rewrite decide_True.
  - apply not_elem_of_cons in Hw as [Hne Hw].
    rewrite decide_False by done. by rewrite IH.
Qed.

Lemma split_join (sep : QChar) (l : list QString) :
  l <> [] -> Forall (fun w => sep ∉ w) l -> split sep (join sep l) = l.
Proof.
  intros Hne Hall. induction Hall as [|w l Hw Hl IH]; [done|].
  destruct l as [|w' l].
  - simpl. by apply split_no_sep.
  - change (join sep (w :: w' :: l)) with (w ++ sep :: join sep (w' :: l)).
    rewrite split_app_sep by done. by rewrite IH.
Qed.

Lemma toneNames_key_no_minus (key : QString) :
  is_Some (toneNames !! key) -> 45 ∉ key.
Proof.
  intros [name Hname]. apply elem_of_list_to_map_2 in Hname.
  repeat (apply elem_of_cons in Hname as [Hname|Hname];
          [injection Hname as -> _; vm_compute; intros H;
           repeat (apply elem_of_cons in H as [H|H]; [discriminate H|]);
           by apply elem_of_nil in H|]).
  by apply elem_of_nil in Hname.
Qed.

(** [getToneNames] gives the names of the tones of a key in the order of
    the key: for one or more tones of the table joined with '-', the result
    is their names joined with '-', and nothing is logged. *)
Theorem getToneNames_known_tones (keys : list QString) :
  keys <> [] ->
  Forall (fun key => is_Some (toneNames !! key)) keys ->
  getToneNames (join 45 keys)
  = ([], Ok (join 45 ((fun key => default [] (toneNames !! key)) <$> keys))).
Proof.
  intros Hne Hall. unfold getToneNames. rewrite toneStep_foldl. simpl.
  rewrite split_join; [|done|].
  2: { eapply Forall_impl; [exact Hall|]. apply toneNames_key_no_minus. }
  assert (omap (fun part => toneNames !! part) keys
          = (fun key => default [] (toneNames !! key)) <$> keys) as ->.
  { clear Hne. induction Hall as [|key keys [name Hname] _ IH]; [done|].
    simpl. rewrite Hname. simpl. f_equal. exact IH. }
  assert (filter (fun part => toneNames !! part = None) keys = []) as ->.
  { clear Hne. induction Hall as [|key keys [name Hname] _ IH]; [done|].
    rewrite filter_cons, decide_False by (by rewrite Hname). done. }
  destruct keys; [done|]. done.
Qed.

Lemma getToneNames_known_tones_witness :
  getToneNames (join 45 [qs "1F3FC"; qs "1F3FE"])
  = ([], Ok (join 45 ((fun key => default [] (toneNames !! key))
                        <$> [qs "1F3FC"; qs "1F3FE"]))).
Proof.
  apply (getToneNames_known_tones [qs "1F3FC"; qs "1F3FE"]).
  - discriminate.
  - repeat constructor; vm_compute; eauto.
Defined.

(** ** Registration and lookup *)

(** An entry without variations whose code is decodable (at most 9 parts,
    not a byte-order mark alone) is found again once it is loaded: its
    record is the last of the store, [emojis]
    has it under its unified code and the shortcode map under each of its
    short names, whatever they had there before, it is the last candidate of
    the first unit of its value, and a token of one of its short names (a
    shortcode of the pattern in lower case) is replaced by its value, the
    code points of its code. *)
Theorem loadEmoji_then_lookup (unparsedEmoji : RawEmoji) (st : Emojis) :
  decodable unparsedEmoji ->
  variationsOf unparsedEmoji = [] ->
  exists st' e c,
    loadEmoji unparsedEmoji st = Done st'
    /\ store st' = store st ++ [e]
    /\ value e = fromUcs4 (toUInt16 <$> partsOf unparsedEmoji)
    /\ emojis st' !! unifiedCode e = Some (length (store st))
    /\ (forall s, s ∈ short_names unparsedEmoji ->
          emojiShortCodeToEmoji_ st' !! s = Some (length (store st)))
    /\ value e !! 0%nat = Some c
    /\ emojiFirstByte_ st' !! c
       = Some (default [] (emojiFirstByte_ st !! c) ++ [length (store st)])
    /\ (forall s, s ∈ short_names unparsedEmoji ->
          isShortCode s -> toLower s = s ->
          replaceShortCodes st' (token s) = value e).
Proof.
  intros Hdec Hvars.
  destruct (parseEmoji_decodable unparsedEmoji [] Hdec) as (e & c & v & He & Hve).
  pose proof He as (Hv & _ & Hsc & _)%parseEmoji_value.
  exists (registered e c st), e, c.
  assert (loadEmoji unparsedEmoji st = Done (registered e c st)) as Hrun.
  { rewrite loadEmoji_register, He, (register_Done e st c v Hve).
    unfold variationsOf in Hvars.
    destruct (skin_variations unparsedEmoji) as [vs|]; [|done].
    simpl in Hvars. by subst vs. }
  assert (forall s, s ∈ short_names unparsedEmoji ->
            emojiShortCodeToEmoji_ (registered e c st) !! s
            = Some (length (store st))) as Hlookup.
  { intros s Hs. simpl. rewrite lookup_foldl_insert, Hsc.
    by rewrite decide_True. }
  split; [done|]. split; [done|]. split; [exact Hv|].
  split; [simpl; by rewrite lookup_insert_eq|]. split; [done|].
  split; [by rewrite Hve|]. split; [simpl; by rewrite lookup_insert_eq|].
  intros s Hs Htok Hlow.
  rewrite (replaceShortCodes_token _ s Htok), Hlow, (Hlookup s Hs).
  unfold deref. simpl. rewrite lookup_app_r by lia.
  by rewrite Nat.sub_diag.
Qed.

Lemma loadEmoji_then_lookup_witness :
  exists st' e c,
    loadEmoji smileRaw capitalEngine = Done st'
    /\ store st' = store capitalEngine ++ [e]
    /\ value e = fromUcs4 (toUInt16 <$> partsOf smileRaw)
    /\ emojis st' !! unifiedCode e = Some (length (store capitalEngine))
    /\ (forall s, s ∈ short_names smileRaw ->
          emojiShortCodeToEmoji_ st' !! s = Some (length (store capitalEngine)))
    /\ value e !! 0%nat = Some c
    /\ emojiFirstByte_ st' !! c
       = Some (default [] (emojiFirstByte_ capitalEngine !! c)
               ++ [length (store capitalEngine)])
    /\ (forall s, s ∈ short_names smileRaw ->
          isShortCode s -> toLower s = s ->
          replaceShortCodes st' (token s) = value e).
Proof.
  apply (loadEmoji_then_lookup smileRaw capitalEngine); [|reflexivity].
  apply decodable_examples.
Defined.

(** ** Records of one value *)

Lemma Ascending_loadEmojis (root : Document) (st1 : Emojis) :
  loadEmojis root emptyEmojis = Done st1 -> Indexed st1 /\ Ascending st1.
Proof.
  intros Hrun.
  assert (Indexed emptyEmojis /\ Ascending emptyEmojis) as H0.
  { split; [apply Indexed_empty|]. intros c ps. simpl. by rewrite lookup_empty. }
  revert H0 Hrun.
  apply (loadEmojis_completed (fun s => Indexed s /\ Ascending s)).
  - intros ds s [Hi Ha]. split; [by apply Indexed_writeLog|done].
  - intros raw sc e c v s _ Hv [Hi Ha]. split; [by eapply Indexed_registered|].
    intros c' ps. simpl. destruct (decide (c' = c)) as [->|Hne].
    + rewrite lookup_insert_eq. intros [= <-].
      destruct (emojiFirstByte_ s !! c) as [ps|] eqn:E; simpl.
      * assert (Forall (fun q => q < length (store s))%nat ps) as Hlt.
        { apply Forall_forall. intros q Hq.
          destruct (indexed_first _ Hi c ps q E Hq) as (e' & He' & _).
          by eapply lookup_lt_Some. }
        pose proof (Ha c ps E) as Hs. clear E.
        induction Hs as [|x l Hl IH Hx]; simpl.
        { repeat constructor. }
        apply Forall_cons in Hlt as [Hxlt Hlt].
        constructor; [by apply IH|].
        apply Forall_app. split; [done|]. by apply Forall_singleton.
      * repeat constructor.
    + rewrite lookup_insert_ne by done. apply Ha.
Qed.

Lemma StronglySorted_filter {A} (R : A -> A -> Prop) (P : A -> Prop)
    `{!forall x, Decision (P x)} (l : list A) :
  StronglySorted R l -> StronglySorted R (filter P l).
Proof.
  induction 1 as [|x l Hl IH Hx]; [constructor|].
  rewrite filter_cons. case_decide; [|done].
  constructor; [done|]. rewrite Forall_forall in *.
  intros y [_ Hy]%list_elem_of_filter. by apply Hx.
Qed.

Lemma StronglySorted_suffix {A} (R : A -> A -> Prop) (l1 l2 : list A) :
  StronglySorted R (l1 ++ l2) -> StronglySorted R l2.
Proof.
  induction l1 as [|x l1 IH]; simpl; [done|].
  intros [H _]%StronglySorted_inv. by apply IH.
Qed.

Lemma firstMatch_before (st : Emojis) (text : QString) (i : nat)
    (ps : list EmojiPtr) (q : EmojiPtr) :
  firstMatch st text i ps = Some q ->
  exists l1 l2, ps = l1 ++ q :: l2
    /\ forall x, x ∈ l1 ->
         ~ ((i + valueLength st x <= length text)%nat
            /\ restMatches text i (value (deref st x)) = true).
Proof.
  induction ps as [|a ps IH]; simpl; [done|].
  destruct (_ <? _) eqn:Hfit.
  { intros (l1 & l2 & -> & Hl1)%IH. exists (a :: l1), l2. split; [done|].
    intros x [->|Hx]%elem_of_cons; [|by apply Hl1].
    apply Z.ltb_lt in Hfit. unfold valueLength. lia. }
  destruct (restMatches text i (value (deref st a))) eqn:Hrest.
  - intros [= ->]. exists [], ps. split; [done|]. intros x Hx.
    by apply elem_of_nil in Hx.
  - intros (l1 & l2 & -> & Hl1)%IH. exists (a :: l1), l2. split; [done|].
    intros x [->|Hx]%elem_of_cons; [|by apply Hl1].
    intros [_ ?]. congruence.
Qed.

(** After a load, of several records with one value the scan gives the one
    that was loaded first: a record of the store with the value of a matched
    record is not before it in the store. *)
Theorem parse_first_loaded_wins (root : Document) (emojiSet : QString)
    (st : Emojis) (text : QString) (i : nat) (q p : EmojiPtr) (e : EmojiData) :
  load root emojiSet emptyEmojis = Done st ->
  SpanEmoji i q ∈ parseSpans st text ->
  store st !! p = Some e ->
  value e = value (deref st q) ->
  (q <= p)%nat.
Proof.
  intros Hload Hq He Hv.
  pose proof (Consistent_load root emojiSet st Hload) as [Hidx Hcons].
  destruct (load_Done _ _ _ _ Hload) as (st1 & Hst1 & _ & Hsame).
  pose proof (Ascending_loadEmojis root st1 Hst1) as [_ Hasc].
  assert (deref st p = e) as Hderef by (unfold deref; by rewrite He).
  apply parseSpans_matched in Hq.
  apply matchAt_Some in Hq as (c & ps & Hc & _ & Hps & Hfirst & _ & Hlen).
  pose proof Hfirst as (Hqin & Hfit & Hrest)%firstMatch_Some.
  destruct (firstMatch_before _ _ _ _ _ Hfirst) as (l1 & l2 & Hsplit & Hl1).
  destruct (consistent_candidate _ Hcons p e He) as (c' & ps' & Hc' & Hps' & Hp).
  assert (c' = c) as ->.
  { pose proof (Indexed_FirstUnit st Hidx c ps q Hps Hqin) as Hq0.
    rewrite <- Hv in Hq0. congruence. }
  assert (ps' = ps) as -> by congruence.
  assert (valueLength st p = valueLength st q) as Hlenp
    by (unfold valueLength; by rewrite Hderef, Hv).
  destruct (decide (p = q)) as [->|Hne]; [done|].
  assert (p ∈ l2) as Hp2.
  { rewrite Hsplit in Hp. apply elem_of_app in Hp as [Hp|Hp].
    - exfalso. apply (Hl1 p Hp). split; [lia|]. by rewrite Hderef, Hv.
    - by apply elem_of_cons in Hp as [?|?]. }
  rewrite (same_firstByte _ _ Hsame) in Hps.
  destruct (sortEmojis_candidates _ _ _ Hps) as (ps0 & Hps0 & Hsorted).
  pose proof (stable_sort_stable (valueLength st1) (valueLength st q) ps0) as Hstable.
  change (stable_sort _ ps0) with (stable_sort (longerValue st1) ps0) in Hstable.
  rewrite <- Hsorted, Hsplit in Hstable.
  assert (forall x, valueLength st1 x = valueLength st x) as Hvl.
  { intros x. unfold valueLength. symmetry.
    rewrite (SameData_value (sortEmojis st1) st x Hsame). done. }
  pose proof (StronglySorted_filter lt
                (fun a => valueLength st1 a = valueLength st q) ps0
                (Hasc c ps0 Hps0)) as Hfs.
  rewrite <- Hstable, filter_app, filter_cons, decide_True in Hfs by apply Hvl.
  apply StronglySorted_suffix in Hfs.
  apply StronglySorted_inv in Hfs as [_ Hfs].
  rewrite Forall_forall in Hfs.
  assert (q < p)%nat; [|lia]. apply Hfs.
  apply list_elem_of_filter. split; [|done]. by rewrite Hvl.
Qed.

Lemma parse_first_loaded_wins_witness :
  SpanEmoji 3 0 ∈ parseSpans twinEngine smileText
  /\ value (deref twinEngine 1%nat) = value (deref twinEngine 0%nat)
  /\ (0 <= 1)%nat.
Proof.
  assert (SpanEmoji 3 0 ∈ parseSpans twinEngine smileText) as Hspan
    by (vm_compute; apply list_elem_of_further, list_elem_of_here).
  split; [exact Hspan|]. split; [by vm_compute|].
  apply (parse_first_loaded_wins (Array [capitalRaw; smileRaw]) (qs "Twitter")
           twinEngine smileText 3 0 1 (deref twinEngine 1%nat)).
  - vm_compute. reflexivity.
  - exact Hspan.
  - vm_compute. reflexivity.
  - vm_compute. reflexivity.
Defined.

(** ** A byte-order mark for a code *)

(** An entry whose code decodes to a byte-order mark alone gets the empty
    value from [QString::fromUcs4]: [parseEmoji] returns normally, the
    record is shared and entered under its short names, and then
    [value.at(0)] is called on the empty string; [loadEmojis] and [load] end
    there, with the entries before it loaded and none after it. *)
Theorem loadEmoji_byte_order_mark (unparsedEmoji : RawEmoji)
    (before after : list RawEmoji) (emojiSet : QString) (st st1 : Emojis) :
  byteOrderMarkOnly (toUInt16 <$> partsOf unparsedEmoji) ->
  forEach loadEmoji before st = Done st1 ->
  exists e,
    parseEmoji newEmojiData unparsedEmoji [] = Ok e
    /\ value e = [] /\ shortCodes e = short_names unparsedEmoji
    /\ loadEmoji unparsedEmoji st1 = Thrown (entered e st1) Undefined
    /\ load (Array (before ++ unparsedEmoji :: after)) emojiSet st
       = Thrown (entered e st1) Undefined.
Proof.
  intros Hbom Hbefore.
  assert (length (partsOf unparsedEmoji) <= 9)%nat as Hlen.
  { destruct Hbom as [Hl|Hl];
      apply (f_equal length) in Hl; rewrite length_fmap in Hl; simpl in Hl; lia. }
  destruct (parseEmoji_parts unparsedEmoji [] Hlen) as (e & He).
  pose proof He as (_ & Hempty & Hsc & _)%parseEmoji_value.
  fold (partsOf unparsedEmoji) in Hempty. apply Hempty in Hbom.
  assert (loadEmoji unparsedEmoji st1 = Thrown (entered e st1) Undefined) as Hrun
    by (by rewrite loadEmoji_register, He, (register_Thrown e st1 Hbom)).
  exists e. conjuncts; try done.
  unfold load, loadEmojis. rewrite forEach_app, Hbefore. cbn [forEach].
  by rewrite Hrun.
Qed.

Lemma loadEmoji_byte_order_mark_witness :
  exists e,
    parseEmoji newEmojiData markRaw [] = Ok e
    /\ value e = [] /\ shortCodes e = short_names markRaw
    /\ loadEmoji markRaw smileLoaded = Thrown (entered e smileLoaded) Undefined
    /\ load (Array ([smileRaw] ++ markRaw :: [waveRaw])) (qs "Twitter") emptyEmojis
       = Thrown (entered e smileLoaded) Undefined.
Proof.
  apply (loadEmoji_byte_order_mark markRaw [smileRaw] [waveRaw] (qs "Twitter")
           emptyEmojis smileLoaded).
  - left. vm_compute. reflexivity.
  - vm_compute. reflexivity.
Defined.
